(** * terraform-provider-openclaw: the transport layer of [internal/client]

    A shallow embedding of the Go package [client]: the merge-patch engine
    and the file-backed client ([file.go]), the section helpers
    ([client.go]) and the WebSocket client ([ws.go]).

    Go maps are finite maps with string keys ([gmap string _]); a Go value
    of type [any] holding decoded JSON is the inductive [value]; a Go
    [error] is the inductive [error]; a function returning [(T, error)]
    returns a [result].  Of the standard library, [fmt], [crypto/sha256],
    [encoding/hex] and [encoding/base64] are defined here as far as the
    package uses them; [encoding/json], [strconv.Quote] and
    [filepath.Dir] are the fields of the class [GoLib], [ed25519.Sign] a
    Section variable; the [os] calls act on a model of the one file a
    file client owns.  The goroutines of one connection are a transition
    system whose steps are the statements of [call] and [readPump]
    between two synchronisations.

    The definitions come first, the properties after them. *)

From Stdlib Require Import Ascii String DecimalString DecimalZ.
From stdpp Require Import gmap strings list fin_maps.

#[local] Set Warnings "-register-all".
#[local] Open Scope Z_scope.
#[local] Open Scope string_scope.
#[local] Open Scope list_scope.

(** ** JSON documents as Go sees them *)

(** What [json.Unmarshal] stores in an [any]: [nil], [bool], a number,
    [string], [[]any] and [map[string]any].  No function of the package
    looks inside a number, so an integer payload stands for it. *)
Inductive value :=
| VNull
| VBool (b : bool)
| VNum (n : Z)
| VStr (s : string)
| VList (l : list value)
| VMap (m : gmap string value).

Definition is_null (v : value) : bool :=
  match v with VNull => true | _ => false end.

Definition is_map (v : value) : bool :=
  match v with VMap _ => true | _ => false end.

Fixpoint value_size (v : value) : nat :=
  match v with
  | VList l => S (foldr (λ x n, value_size x + n)%nat 0%nat l)
  | VMap m => S (map_fold (λ _ x n, value_size x + n)%nat 0%nat m)
  | _ => 1%nat
  end.

(** ** The merge-patch engine ([mergePatch], file.go) *)

(** One iteration of the [for key, patchVal := range patch] loop; [rec]
    is the recursive call [mergePatch(targetMap, patchMap)]. *)
Definition patchStep (rec : gmap string value → value → gmap string value)
    (key : string) (patchVal : value) (target : gmap string value)
    : gmap string value :=
  match patchVal with
  | VNull => delete key target
  | VMap patchMap =>
      match target !! key with
      | None => <[key := VMap patchMap]> target
      | Some (VMap targetMap) =>
          <[key := VMap (rec targetMap patchVal)]> target
      | Some _ => <[key := VMap patchMap]> target
      end
  | _ => <[key := patchVal]> target
  end.

(** The loop over a patch held in an [any].  The recursion is on the
    patch, the target is threaded through the iterations. *)
Fixpoint mergeInto (target : gmap string value) (patch : value)
    {struct patch} : gmap string value :=
  match patch with
  | VMap pm => map_fold (patchStep mergeInto) target pm
  | _ => target
  end.

(** [mergePatch(target, patch)].  [target] may be the nil map ([None]),
    replaced by [make(map[string]any)] on entry.  Ranging over a nil
    [patch] runs no iteration, as over the empty map, so the patch is a
    plain [gmap].  The Go function updates [target] in place, stores the
    maps of the patch in it without copying them, and returns it; here
    the updated map is returned as a value, which is what [PatchConfig],
    its one caller, encodes at once. *)
Definition mergePatch (target : option (gmap string value))
    (patch : gmap string value) : gmap string value :=
  mergeInto (default ∅ target) (VMap patch).

(** What one iteration leaves at its own key, given what was there. *)
Definition patchEntry (patchVal : value) (old : option value) : option value :=
  match patchVal with
  | VNull => None
  | VMap patchMap =>
      match old with
      | Some (VMap targetMap) => Some (VMap (mergePatch (Some targetMap) patchMap))
      | _ => Some (VMap patchMap)
      end
  | _ => Some patchVal
  end.

(** A patch none of whose keys, at any depth of nested maps, is null. *)
Fixpoint no_null_keys_val (v : value) : bool :=
  match v with
  | VMap m =>
      map_fold (λ _ x b, negb (is_null x) && no_null_keys_val x && b) true m
  | _ => true
  end.

Definition no_null_keys (patch : gmap string value) : bool :=
  no_null_keys_val (VMap patch).

(** ** Go errors and [fmt] *)

(** The [syscall.Errno] values the [os] calls of the package can meet. *)
Inductive errno := ENOENT | EACCES | ENOTDIR | EISDIR | ENOSPC | EROFS | EIO.

Definition errno_Error (e : errno) : string :=
  match e with
  | ENOENT => "no such file or directory"
  | EACCES => "permission denied"
  | ENOTDIR => "not a directory"
  | EISDIR => "is a directory"
  | ENOSPC => "no space left on device"
  | EROFS => "read-only file system"
  | EIO => "input/output error"
  end.

(** The dynamic types an [error] of this package can have:
    [*errors.errorString] ([fmt.Errorf] without [%w]), [*fmt.wrapError]
    ([fmt.Errorf] with [%w]), [*fs.PathError] (every failing [os] call
    used here), an error of [encoding/json], and the two errors of a
    [context]. *)
Inductive error :=
| errorString (s : string)
| wrapError (msg : string) (err : error)
| PathError (Op Path : string) (Err : errno)
| jsonError (msg : string)
| ctxCanceled
| ctxDeadlineExceeded.

(** The method [Error()] of each. *)
Definition Error (e : error) : string :=
  match e with
  | errorString s => s
  | wrapError msg _ => msg
  | PathError Op Path Err => Op +:+ " " +:+ Path +:+ ": " +:+ errno_Error Err
  | jsonError msg => msg
  | ctxCanceled => "context canceled"
  | ctxDeadlineExceeded => "context deadline exceeded"
  end.

(** A Go function returning [(T, error)]. *)
Inductive result (T : Type) :=
| Ok (x : T)
| Fail (e : error).
Arguments Ok {T} x.
Arguments Fail {T} e.

(** [%d] of an integer. *)
Definition format_int (n : Z) : string :=
  NilEmpty.string_of_int (Z.to_int n).

(** [hex.EncodeToString], also the verb [%x] of a byte array. *)
Definition hex_digit (n : N) : ascii :=
  match n with
  | 0%N => "0" | 1%N => "1" | 2%N => "2" | 3%N => "3" | 4%N => "4"
  | 5%N => "5" | 6%N => "6" | 7%N => "7" | 8%N => "8" | 9%N => "9"
  | 10%N => "a" | 11%N => "b" | 12%N => "c" | 13%N => "d" | 14%N => "e"
  | _ => "f"
  end%char.

Fixpoint hex_EncodeToString (data : string) : string :=
  match data with
  | EmptyString => EmptyString
  | String c rest =>
      String (hex_digit (N_of_ascii c / 16))
        (String (hex_digit (N_of_ascii c mod 16)) (hex_EncodeToString rest))
  end.

(** Byte slices are strings; a byte is also a number below 256. *)
Definition bytes_of_string (s : string) : list Z :=
  (λ c, Z.of_N (N_of_ascii c)) <$> list_ascii_of_string s.

Definition string_of_bytes (l : list Z) : string :=
  string_of_list_ascii ((λ b, ascii_of_N (Z.to_N b)) <$> l).

(** *** [sha256.Sum256] (FIPS 180-4) *)

(** The constants of FIPS 180-4 are the first 32 bits of the fractional
    parts of the cube roots (for [K]) and of the square roots (for the
    initial hash value) of the first primes. *)
Definition is_prime (n : nat) : bool :=
  forallb (λ d, negb (n mod d =? 0)%nat) (seq 2 (n - 2)).

Definition first_primes (n : nat) : list Z :=
  Z.of_nat <$> take n (filter (λ p, is_prime p = true) (seq 2 400)).

(** The integer cube root, one bit at a time from bit [bits] down. *)
Fixpoint cube_root_bits (bits : nat) (n r : Z) : Z :=
  match bits with
  | O => r
  | S bits =>
      let r' := r + 2 ^ Z.of_nat bits in
      cube_root_bits bits n (if (r' * r' * r' <=? n)%Z then r' else r)
  end.

Definition sha256_K : list Z :=
  (λ p, cube_root_bits 40 (p * 2 ^ 96) 0 mod 2 ^ 32) <$> first_primes 64.

Definition sha256_H0 : list Z :=
  (λ p, Z.sqrt (p * 2 ^ 64) mod 2 ^ 32) <$> first_primes 8.

(** Arithmetic on [uint32] wraps around. *)
Definition u32 (x : Z) : Z := x mod 2 ^ 32.

Definition rotr (n x : Z) : Z :=
  Z.lor (Z.shiftr x n) (u32 (Z.shiftl x (32 - n))).

Definition xor3 (a b c : Z) : Z := Z.lxor (Z.lxor a b) c.

Definition sha256_Ch (e f g : Z) : Z :=
  Z.lxor (Z.land e f) (Z.land (Z.lxor e 0xffffffff) g).

Definition sha256_Maj (a b c : Z) : Z :=
  xor3 (Z.land a b) (Z.land a c) (Z.land b c).

Definition bsig0 (a : Z) : Z := xor3 (rotr 2 a) (rotr 13 a) (rotr 22 a).
Definition bsig1 (e : Z) : Z := xor3 (rotr 6 e) (rotr 11 e) (rotr 25 e).
Definition ssig0 (x : Z) : Z := xor3 (rotr 7 x) (rotr 18 x) (Z.shiftr x 3).
Definition ssig1 (x : Z) : Z := xor3 (rotr 17 x) (rotr 19 x) (Z.shiftr x 10).

(** The [n] bytes of [x], most significant first. *)
Definition be_bytes (n : nat) (x : Z) : list Z :=
  (λ i, (x / 256 ^ Z.of_nat i) mod 256) <$> rev (seq 0 n).

Definition sha256_pad (msg : list Z) : list Z :=
  let len := Z.of_nat (length msg) in
  (msg ++ [128] ++ replicate (Z.to_nat ((55 - len) mod 64)) 0
       ++ be_bytes 8 (len * 8))%list.

Fixpoint be_words (bytes : list Z) : list Z :=
  match bytes with
  | a :: b :: c :: d :: rest =>
      (((a * 256 + b) * 256 + c) * 256 + d) :: be_words rest
  | _ => []
  end.

(** The message schedule, latest word first. *)
Fixpoint sha256_schedule (n : nat) (w : list Z) : list Z :=
  match n with
  | O => w
  | S n =>
      sha256_schedule n
        (u32 (ssig1 (w !!! 1%nat) + w !!! 6%nat
              + ssig0 (w !!! 14%nat) + w !!! 15%nat) :: w)
  end.

Definition sha256_round (st : list Z) (kw : Z * Z) : list Z :=
  match st with
  | [a; b; c; d; e; f; g; h] =>
      let t1 := h + bsig1 e + sha256_Ch e f g + kw.1 + kw.2 in
      let t2 := bsig0 a + sha256_Maj a b c in
      [u32 (t1 + t2); a; b; c; u32 (d + t1); e; f; g]
  | _ => st
  end.

Definition sha256_block (hs : list Z) (block : list Z) : list Z :=
  let w := rev (sha256_schedule 48 (rev (be_words block))) in
  let st := foldl sha256_round hs (zip sha256_K w) in
  zip_with (λ x y, u32 (x + y)) hs st.

Fixpoint sha256_blocks (n : nat) (hs : list Z) (bytes : list Z) : list Z :=
  match n with
  | O => hs
  | S n => sha256_blocks n (sha256_block hs (take 64 bytes)) (drop 64 bytes)
  end.

Definition sha256_Sum256 (data : string) : string :=
  let padded := sha256_pad (bytes_of_string data) in
  string_of_bytes
    (sha256_blocks (length padded / 64) sha256_H0 padded ≫= be_bytes 4).

(** *** [base64.RawURLEncoding.EncodeToString]: URL alphabet, no padding *)

Definition base64url_char (n : Z) : ascii :=
  ascii_of_N (Z.to_N
    (if (n <? 26)%Z then 65 + n
     else if (n <? 52)%Z then 97 + (n - 26)
     else if (n <? 62)%Z then 48 + (n - 52)
     else if (n =? 62)%Z then 45 else 95)).

Fixpoint base64url_bytes (bytes : list Z) : list ascii :=
  match bytes with
  | a :: b :: c :: rest =>
      base64url_char (a / 4)
      :: base64url_char ((a mod 4) * 16 + b / 16)
      :: base64url_char ((b mod 16) * 4 + c / 64)
      :: base64url_char (c mod 64)
      :: base64url_bytes rest
  | [a; b] =>
      [base64url_char (a / 4);
       base64url_char ((a mod 4) * 16 + b / 16);
       base64url_char ((b mod 16) * 4)]
  | [a] => [base64url_char (a / 4); base64url_char ((a mod 4) * 16)]
  | [] => []
  end.

Definition base64_RawURLEncoding (data : string) : string :=
  string_of_list_ascii (base64url_bytes (bytes_of_string data)).

(** The functions of the Go standard library the package calls and this
    development does not define. *)
Class GoLib := {
  (** [json.Unmarshal(data, &m)] for [var m map[string]any]: an error,
      or the map, which stays nil when the input is [null] *)
  json_Unmarshal : string → result (option (gmap string value));
  (** [json.MarshalIndent(m, prefix, indent)] *)
  json_MarshalIndent : gmap string value → string → string → result string;
  (** [strconv.Quote], the verb [%q] *)
  strconv_Quote : string → string;
  (** [filepath.Dir] *)
  filepath_Dir : string → string;
}.

(** The operands of the [fmt] calls of the package. *)
Inductive arg :=
| AString (s : string)
| AInt (n : Z)
| AStrings (l : list string)
| ABytes (b : string)
| AError (e : error)
| ANil.

Section Fmt.
Context `{GoLib}.

(** One operand under one verb.  The last case is what [fmt] prints for
    a verb that does not fit its operand; no call of the package gets
    there. *)
Definition fmt_verb (verb : ascii) (a : arg) : string :=
  match verb, a with
  | ("s" | "v")%char, AString s => s
  | "q"%char, AString s => strconv_Quote s
  | ("d" | "v")%char, AInt n => format_int n
  | "v"%char, AStrings l => "[" +:+ String.concat " " l +:+ "]"
  | "x"%char, ABytes b => hex_EncodeToString b
  | ("s" | "v" | "w")%char, AError e => Error e
  | "v"%char, ANil => "<nil>"
  | _, _ => String "%" (String "!" (String verb "(BADVERB)"))
  end.

(** [fmt.Sprintf(format, args...)], together with the operand of a [%w]
    verb when there is one. *)
Fixpoint fmt_scan (format : string) (args : list arg)
    : string * option error :=
  match format with
  | EmptyString => (EmptyString, None)
  | String "%" (String verb rest) =>
      if Ascii.eqb verb "%" then
        let '(s, w) := fmt_scan rest args in (String "%" s, w)
      else
        match args with
        | a :: args' =>
            let '(s, w) := fmt_scan rest args' in
            (fmt_verb verb a +:+ s,
             match verb, a with
             | "w"%char, AError e => Some e
             | _, _ => w
             end)
        | [] =>
            let '(s, w) := fmt_scan rest [] in
            (String "%" (String "!" (String verb "(MISSING)")) +:+ s, w)
        end
  | String c rest =>
      let '(s, w) := fmt_scan rest args in (String c s, w)
  end.

Definition fmt_Sprintf (format : string) (args : list arg) : string :=
  (fmt_scan format args).1.

Definition fmt_Errorf (format : string) (args : list arg) : error :=
  match fmt_scan format args with
  | (msg, Some err) => wrapError msg err
  | (msg, None) => errorString msg
  end.

End Fmt.

(** ** client.go: payloads and the [Client] interface *)

Record ConfigPayload := {
  Raw : string;
  Hash : string;
  Parsed : option (gmap string value);
}.

Record HealthPayload := {
  OK : bool;
  Timestamp : Z;
  DurationMs : Z;
  DefaultAgentID : string;
  HeartbeatSecs : Z;
}.

(** The interface [Client], over the state [W] its methods act on: the
    file system for the file client, the connection for the WebSocket
    client.  A method takes the state and returns it. *)
Record Client (W : Type) := {
  GetConfig : W → result ConfigPayload * W;
  PatchConfig : gmap string value → string → W → option error * W;
  ApplyConfig : string → string → W → option error * W;
  Health : W → result HealthPayload * W;
  Close : W → option error * W;
}.
Arguments GetConfig {W} _ _.
Arguments PatchConfig {W} _ _ _ _.
Arguments ApplyConfig {W} _ _ _ _.
Arguments Health {W} _ _.
Arguments Close {W} _ _.

Section ClientHelpers.
Context `{GoLib}.

(** [parseRawJSON] *)
Definition parseRawJSON (raw : string) : result (option (gmap string value)) :=
  match json_Unmarshal raw with
  | Fail err => Fail (fmt_Errorf "json unmarshal: %w" [AError err])
  | Ok m => Ok m
  end.

(** Reading [m[key]] of a Go map that may be nil. *)
Definition map_index (m : option (gmap string value)) (key : string)
    : option value :=
  m ≫= (λ m, m !! key).

(** [GetSection]: the triple [(map, hash, error)] it returns. *)
Definition GetSection {W} (c : Client W) (key : string) (w : W)
    : (option (gmap string value) * string * option error) * W :=
  match GetConfig c w with
  | (Fail err, w') =>
      ((None, "", Some (fmt_Errorf "reading config: %w" [AError err])), w')
  | (Ok cfg, w') =>
      match parseRawJSON (Raw cfg) with
      | Fail err =>
          ((None, Hash cfg,
            Some (fmt_Errorf "parsing config JSON: %w" [AError err])), w')
      | Ok parsed =>
          match map_index parsed key with
          | None => ((None, Hash cfg, None), w')
          | Some (VMap m) => ((Some m, Hash cfg, None), w')
          | Some _ =>
              ((None, Hash cfg,
                Some (fmt_Errorf "config key %q is not an object"
                        [AString key])), w')
          end
      end
  end.

(** The loop of [GetNestedSection]: [i] is the index of the head of
    [rest] in [keys]; the result is the map and the error returned. *)
Fixpoint walkSections (keys : list string) (i : nat) (rest : list string)
    (current : option (gmap string value))
    : option (gmap string value) * option error :=
  match rest with
  | [] => (current, None)
  | key :: rest' =>
      match map_index current key with
      | None => (None, None)
      | Some (VMap m) => walkSections keys (S i) rest' (Some m)
      | Some _ =>
          (None,
           Some (fmt_Errorf "config path %v at index %d is not an object"
                   [AStrings (take (S i) keys); AInt (Z.of_nat i)]))
      end
  end.

(** [GetNestedSection] *)
Definition GetNestedSection {W} (c : Client W) (keys : list string) (w : W)
    : (option (gmap string value) * string * option error) * W :=
  match GetConfig c w with
  | (Fail err, w') =>
      ((None, "", Some (fmt_Errorf "reading config: %w" [AError err])), w')
  | (Ok cfg, w') =>
      match parseRawJSON (Raw cfg) with
      | Fail err =>
          ((None, Hash cfg,
            Some (fmt_Errorf "parsing config JSON: %w" [AError err])), w')
      | Ok parsed =>
          let '(m, err) := walkSections keys 0 keys parsed in
          ((m, Hash cfg, err), w')
      end
  end.

(** [PatchSection] *)
Definition PatchSection {W} (c : Client W) (key : string) (v : value)
    (baseHash : string) (w : W) : option error * W :=
  PatchConfig c {[ key := v ]} baseHash w.

(** [PatchNestedSection]: the nested map built from the inside out.
    With no key the assertion [patch.(map[string]any)] is on [value]
    itself and panics unless it is a map ([None]). *)
Definition nestedPatch (v : value) (keys : list string) : value :=
  foldr (λ key patch, VMap {[ key := patch ]}) v keys.

Definition PatchNestedSection {W} (c : Client W) (v : value)
    (baseHash : string) (keys : list string) (w : W)
    : option (option error * W) :=
  match nestedPatch v keys with
  | VMap patch => Some (PatchConfig c patch baseHash w)
  | _ => None
  end.

(** [DeleteSection] *)
Definition DeleteSection {W} (c : Client W) (key : string)
    (baseHash : string) (w : W) : option error * W :=
  PatchConfig c {[ key := VNull ]} baseHash w.

End ClientHelpers.

(** What a path leads to in a document: [resolves doc keys m] when every
    key of [keys], in turn, is present and holds a map, the last of
    which is [m]. *)
Inductive resolves
    : gmap string value → list string → gmap string value → Prop :=
| resolves_here m : resolves m [] m
| resolves_down m key sub keys m' :
    m !! key = Some (VMap sub) → resolves sub keys m' →
    resolves m (key :: keys) m'.

(** ** file.go: the file client *)

(** The calls that change the file system, as the client issues them. *)
Inductive os_call :=
| CallMkdirAll (dir : string)
| CallWriteFile (name data : string).

(** What the operating system holds for the one path a [FileClient]
    works on.  [file] is what [os.ReadFile] gives: the bytes, or the
    [Op] and errno of its [*PathError].  [mkdir_fault] and [write_fault]
    are the failures [os.MkdirAll] and [os.WriteFile] would meet (the
    first with the directory it fails on, the second with its [Op]); a
    failing write is one that fails to open the file, and leaves it as
    it was.  [calls] records every changing call attempted so far. *)
Record world := {
  file : string + string * errno;
  mkdir_fault : option (string * errno);
  write_fault : option (string * errno);
  calls : list os_call;
}.

Record FileClient := { path : string }.

Definition log_call (c : os_call) (w : world) : world :=
  {| file := file w; mkdir_fault := mkdir_fault w;
     write_fault := write_fault w; calls := calls w ++ [c] |}.

Definition os_ReadFile (name : string) (w : world) : string * option error :=
  match file w with
  | inl data => (data, None)
  | inr (op, e) => (EmptyString, Some (PathError op name e))
  end.

Definition os_IsNotExist (err : option error) : bool :=
  match err with
  | Some (PathError _ _ ENOENT) => true
  | _ => false
  end.

Definition os_MkdirAll (dir : string) (w : world) : option error * world :=
  let w := log_call (CallMkdirAll dir) w in
  match mkdir_fault w with
  | Some (at_dir, e) => (Some (PathError "mkdir" at_dir e), w)
  | None => (None, w)
  end.

(** What [os.ReadFile] gives after a write that succeeded: the bytes
    written, when the file could be read or was not there (it is then
    created).  [os.WriteFile] truncates a file that exists and leaves
    its permissions as they are: a file that was there and could not be
    read takes the write and still cannot be read. *)
Definition written_file (data : string) (before : string + string * errno)
    : string + string * errno :=
  match before with
  | inl _ => inl data
  | inr (_, ENOENT) => inl data
  | inr (op, e) => inr (op, e)
  end.

Definition os_WriteFile (name : string) (data : string) (w : world)
    : option error * world :=
  let w := log_call (CallWriteFile name data) w in
  match write_fault w with
  | Some (op, e) => (Some (PathError op name e), w)
  | None =>
      (None, {| file := written_file data (file w);
                mkdir_fault := mkdir_fault w;
                write_fault := write_fault w; calls := calls w |})
  end.

Section File.
Context `{GoLib}.

(** [hashBytes] *)
Definition hashBytes (data : string) : string :=
  hex_EncodeToString (sha256_Sum256 data).

(** [getConfigLocked] *)
Definition getConfigLocked (f : FileClient) (w : world)
    : result ConfigPayload :=
  let '(data, err) := os_ReadFile (path f) w in
  if os_IsNotExist err then
    Ok {| Raw := "{}"; Hash := hashBytes "{}"; Parsed := None |}
  else
    match err with
    | Some err =>
        Fail (fmt_Errorf "reading %s: %w" [AString (path f); AError err])
    | None => Ok {| Raw := data; Hash := hashBytes data; Parsed := None |}
    end.

(** The methods hold [f.mu] from entry to return: each is one step of
    the world. *)
Definition File_GetConfig (f : FileClient) (w : world)
    : result ConfigPayload * world :=
  (getConfigLocked f w, w).

(** [ensureDir]: [os.MkdirAll(filepath.Dir(filePath), 0o755)] *)
Definition ensureDir (filePath : string) (w : world) : option error * world :=
  os_MkdirAll (filepath_Dir filePath) w.

Definition File_PatchConfig (f : FileClient) (patch : gmap string value)
    (baseHash : string) (w : world) : option error * world :=
  match getConfigLocked f w with
  | Fail err => (Some err, w)
  | Ok cfg =>
      match parseRawJSON (Raw cfg) with
      | Fail err =>
          (Some (fmt_Errorf "parsing existing config: %w" [AError err]), w)
      | Ok existing =>
          let merged := mergePatch existing patch in
          match json_MarshalIndent merged "" "  " with
          | Fail err =>
              (Some (fmt_Errorf "marshaling config: %w" [AError err]), w)
          | Ok out =>
              match ensureDir (path f) w with
              | (Some err, w') => (Some err, w')
              | (None, w') => os_WriteFile (path f) out w'
              end
          end
      end
  end.

Definition File_ApplyConfig (f : FileClient) (raw : string)
    (baseHash : string) (w : world) : option error * world :=
  match ensureDir (path f) w with
  | (Some err, w') => (Some err, w')
  | (None, w') => os_WriteFile (path f) raw w'
  end.

Definition File_Health (f : FileClient) (w : world)
    : result HealthPayload * world :=
  (Fail (fmt_Errorf
           "health check not available in file mode (no running gateway)" []),
   w).

Definition File_Close (f : FileClient) (w : world) : option error * world :=
  (None, w).

(** [FileClient] implements [Client]. *)
Definition FileClient_Client (f : FileClient) : Client world := {|
  GetConfig := File_GetConfig f;
  PatchConfig := File_PatchConfig f;
  ApplyConfig := File_ApplyConfig f;
  Health := File_Health f;
  Close := File_Close f;
|}.

End File.

(** ** ws.go: the WebSocket client *)

(** [wsFrame] *)
Record wsFrame := {
  frame_Type : string;
  frame_ID : string;
  frame_Method : string;
  frame_Params : value;
  frame_OK : option bool;
  frame_Payload : value;
  frame_Error : value;
  frame_Event : string;
}.

(** Arithmetic on [int64] ([time.Duration], [atomic.Int64]) wraps around. *)
Definition int64 (x : Z) : Z := (x + 2 ^ 63) mod 2 ^ 64 - 2 ^ 63.

Definition time_Second : Z := 1000000000.

(** *** [NewWSClient]: dialing with backoff *)

(** Which case of the [select] before a retry ran: the timer, or the
    context (with [ctx.Err()]).  When both are ready Go picks one. *)
Inductive select_result :=
| TimerFired
| CtxDone (err : error).

(** What [NewWSClient] does that can be seen from outside. *)
Inductive connect_event :=
| EvSleep (d : Z)
| EvDial (attempt : Z).

Section Connect.
Context `{GoLib}.
(** [*WSClient] *)
Variable WSClient : Type.
(** What [dialAndHandshake] returns at each attempt, and which case the
    [select] before each retry runs. *)
Variable dialAndHandshake : Z → result WSClient.
Variable wait : Z → select_result.

Definition maxRetries : Z := 5.

(** The [for attempt := 0; attempt <= maxRetries; attempt++] loop, with
    [n] iterations left. *)
Fixpoint retry_loop (n : nat) (attempt backoff : Z) (lastErr : option error)
    (log : list connect_event)
    : (option WSClient * option error) * list connect_event :=
  match n with
  | O => ((None, lastErr), log)
  | S n =>
      let dial (backoff : Z) (log : list connect_event) :=
        match dialAndHandshake attempt with
        | Ok c => ((Some c, None), (log ++ [EvDial attempt])%list)
        | Fail err =>
            retry_loop n (attempt + 1) backoff (Some err)
              (log ++ [EvDial attempt])%list
        end in
      if (0 <? attempt)%Z then
        match wait attempt with
        | TimerFired =>
            let doubled := int64 (backoff * 2) in
            dial (if (10 * time_Second <? doubled)%Z
                  then 10 * time_Second else doubled)
                 (log ++ [EvSleep backoff])%list
        | CtxDone err =>
            ((None,
              Some (fmt_Errorf
                      "ws connect cancelled after %d attempts: %w (last error: %v)"
                      [AInt attempt; AError err;
                       match lastErr with
                       | Some e => AError e
                       | None => ANil
                       end])),
             log)
        end
      else dial backoff log
  end.

Definition NewWSClient
    : (option WSClient * option error) * list connect_event :=
  retry_loop (Z.to_nat (maxRetries + 1)) 0 (1 * time_Second) None [].

End Connect.

(** The attempts and delays of a connection that never succeeds. *)
Definition backoff_schedule : list connect_event :=
  [EvDial 0; EvSleep (1 * time_Second);
   EvDial 1; EvSleep (2 * time_Second);
   EvDial 2; EvSleep (4 * time_Second);
   EvDial 3; EvSleep (8 * time_Second);
   EvDial 4; EvSleep (10 * time_Second);
   EvDial 5].

(** *** [handshake]: the signed device identity *)

Section Handshake.
Context `{GoLib}.
(** [ed25519.Sign(priv, message)] *)
Variable ed25519_Sign : string → string → string.

(** The [select] on [c.challenge]: the nonce of the frame received, or
    the empty string. *)
Definition challenge_nonce (frame : option wsFrame) : string :=
  match frame with
  | Some frame =>
      match frame_Payload frame with
      | VMap p =>
          match p !! "nonce" with
          | Some (VStr n) => n
          | _ => ""
          end
      | _ => ""
      end
  | None => ""
  end.

Definition clientID : string := "cli".
Definition clientMode : string := "cli".
Definition role : string := "operator".
Definition scopes : list string :=
  ["operator.read"; "operator.write"; "operator.admin"].

(** [deviceID := fmt.Sprintf("%x", sha256.Sum256(pub))] *)
Definition deviceID (pub : string) : string :=
  fmt_Sprintf "%x" [ABytes (sha256_Sum256 pub)].

Definition handshake_version (challengeNonce : string) : string :=
  if decide (challengeNonce = "") then "v1" else "v2".

(** [signedPayload], for the token of the client, the nonce received,
    the fresh public key and [time.Now().UnixMilli()]. *)
Definition signedPayload (token challengeNonce pub : string) (signedAt : Z)
    : string :=
  let authToken := token in
  let scopeStr := String.concat "," scopes in
  if decide (challengeNonce = "") then
    fmt_Sprintf "%s|%s|%s|%s|%s|%s|%d|%s"
      [AString "v1"; AString (deviceID pub); AString clientID;
       AString clientMode; AString role; AString scopeStr; AInt signedAt;
       AString authToken]
  else
    fmt_Sprintf "%s|%s|%s|%s|%s|%s|%d|%s|%s"
      [AString "v2"; AString (deviceID pub); AString clientID;
       AString clientMode; AString role; AString scopeStr; AInt signedAt;
       AString authToken; AString challengeNonce].

(** The [device] block of the [connect] request. *)
Definition handshake_device (token challengeNonce pub priv : string)
    (signedAt : Z) : gmap string value :=
  let sig := ed25519_Sign priv (signedPayload token challengeNonce pub signedAt) in
  let device : gmap string value :=
    {[ "id" := VStr (deviceID pub);
       "publicKey" := VStr (base64_RawURLEncoding pub);
       "signature" := VStr (base64_RawURLEncoding sig);
       "signedAt" := VNum signedAt ]} in
  if decide (challengeNonce = "") then device
  else <[ "nonce" := VStr challengeNonce ]> device.

End Handshake.

(** *** [call] and [readPump]: requests in flight on one connection *)

(** What [call] returns. *)
Inductive call_result :=
| Response (resp : wsFrame)
| CallError (err : error).

(** Where a goroutine is inside [call]. *)
Inductive call_pc :=
| Registering               (* id taken, channel made *)
| Sending                   (* [c.pending[id] = ch] done *)
| Waiting                   (* frame written, in the [select] *)
| Returning (r : call_result)   (* result chosen, deferred [delete] to run *)
| Returned (r : call_result).

(** One goroutine in [call]: its [id], its frame, the content of its
    channel [ch] (of capacity 1) and where it is. *)
Record caller := {
  call_id : string;
  call_method : string;
  call_params : value;
  call_ch : list wsFrame;
  call_pc_of : call_pc;
}.

(** Where [readPump] is: reading, or blocked in [ch <- frame] on the
    channel of goroutine [t], or gone. *)
Inductive pump_state :=
| PumpReading
| PumpSending (t : nat) (frame : wsFrame)
| PumpExited.

(** A connection: the fields of [WSClient] that [call] and [readPump]
    use, the goroutines in [call] (by number), the state of [readPump]
    and the frames written to [conn] so far. *)
Record connection := {
  nextID : Z;
  pending : gmap string nat;
  challenge : list wsFrame;
  done : bool;
  callers : gmap nat caller;
  pump : pump_state;
  written : list wsFrame;
}.

(** The atomic steps of the goroutines: the statements of [call] between
    two uses of [c.mu], of [nextID] or of a channel, and those of
    [readPump]. *)
Inductive action :=
| ACall (t : nat) (method : string) (params : value)
| ARegister (t : nat)
| AMarshalFails (t : nat) (err : error)
| AWriteFails (t : nat) (err : error)
| AWrite (t : nat)
| AReceive (t : nat)
| ACtxDone (t : nat) (err : error)
| AConnClosed (t : nat)
| AUnregister (t : nat)
| APumpReadFails
| APumpBadMessage
| APumpFrame (frame : wsFrame)
| APumpSend.

Section Call.
Context `{GoLib}.

Definition dialed : connection := {|
  nextID := 0; pending := ∅; challenge := []; done := false;
  callers := ∅; pump := PumpReading; written := [];
|}.

Definition set_caller (t : nat) (c : caller) (s : connection) : connection :=
  {| nextID := nextID s; pending := pending s; challenge := challenge s;
     done := done s; callers := <[t := c]> (callers s); pump := pump s;
     written := written s |}.

Definition set_pc (pc : call_pc) (c : caller) : caller :=
  {| call_id := call_id c; call_method := call_method c;
     call_params := call_params c; call_ch := call_ch c; call_pc_of := pc |}.

Definition set_ch (ch : list wsFrame) (c : caller) : caller :=
  {| call_id := call_id c; call_method := call_method c;
     call_params := call_params c; call_ch := ch;
     call_pc_of := call_pc_of c |}.

Definition set_pending (p : gmap string nat) (s : connection) : connection :=
  {| nextID := nextID s; pending := p; challenge := challenge s;
     done := done s; callers := callers s; pump := pump s;
     written := written s |}.

Definition set_pump (p : pump_state) (s : connection) : connection :=
  {| nextID := nextID s; pending := pending s; challenge := challenge s;
     done := done s; callers := callers s; pump := p;
     written := written s |}.

(** The request frame of a caller. *)
Definition request_frame (c : caller) : wsFrame := {|
  frame_Type := "req"; frame_ID := call_id c;
  frame_Method := call_method c; frame_Params := call_params c;
  frame_OK := None; frame_Payload := VNull; frame_Error := VNull;
  frame_Event := "";
|}.

(** A goroutine [t] at [pc] takes a step. *)
Definition at_pc (t : nat) (pc : call_pc) (s : connection)
    (k : caller → option connection) : option connection :=
  match callers s !! t with
  | Some c =>
      match call_pc_of c, pc with
      | Registering, Registering | Sending, Sending | Waiting, Waiting => k c
      | _, _ => None
      end
  | None => None
  end.

(** One step; [None] when the goroutine is not there or is blocked. *)
Definition step (a : action) (s : connection) : option connection :=
  match a with
  | ACall t method params =>
      (* id := fmt.Sprintf("tf-%d", c.nextID.Add(1)); ch := make(chan wsFrame, 1) *)
      match callers s !! t with
      | Some _ => None
      | None =>
          let n := int64 (nextID s + 1) in
          Some {| nextID := n; pending := pending s;
                  challenge := challenge s; done := done s;
                  callers :=
                    <[t := {| call_id := fmt_Sprintf "tf-%d" [AInt n];
                              call_method := method; call_params := params;
                              call_ch := []; call_pc_of := Registering |}]>
                      (callers s);
                  pump := pump s; written := written s |}
      end
  | ARegister t =>
      (* c.pending[id] = ch *)
      at_pc t Registering s (λ c,
        Some (set_caller t (set_pc Sending c)
                (set_pending (<[call_id c := t]> (pending s)) s)))
  | AMarshalFails t err =>
      at_pc t Sending s (λ c,
        Some (set_caller t
                (set_pc (Returning (CallError
                   (fmt_Errorf "marshal request: %w" [AError err]))) c) s))
  | AWriteFails t err =>
      at_pc t Sending s (λ c,
        Some (set_caller t
                (set_pc (Returning (CallError
                   (fmt_Errorf "ws write: %w" [AError err]))) c) s))
  | AWrite t =>
      (* c.conn.WriteMessage(websocket.TextMessage, data) *)
      at_pc t Sending s (λ c,
        Some {| nextID := nextID s; pending := pending s;
                challenge := challenge s; done := done s;
                callers := <[t := set_pc Waiting c]> (callers s);
                pump := pump s;
                written := (written s ++ [request_frame c])%list |})
  | AReceive t =>
      (* case resp := <-ch *)
      at_pc t Waiting s (λ c,
        match call_ch c with
        | resp :: rest =>
            Some (set_caller t
                    (set_pc (Returning (Response resp)) (set_ch rest c)) s)
        | [] => None
        end)
  | ACtxDone t err =>
      (* case <-ctx.Done() *)
      at_pc t Waiting s (λ c,
        Some (set_caller t (set_pc (Returning (CallError err)) c) s))
  | AConnClosed t =>
      (* case <-c.done *)
      at_pc t Waiting s (λ c,
        if done s then
          Some (set_caller t
                  (set_pc (Returning (CallError
                     (fmt_Errorf "connection closed" []))) c) s)
        else None)
  | AUnregister t =>
      (* the deferred delete(c.pending, id) *)
      match callers s !! t with
      | Some c =>
          match call_pc_of c with
          | Returning r =>
              Some (set_caller t (set_pc (Returned r) c)
                      (set_pending (delete (call_id c) (pending s)) s))
          | _ => None
          end
      | None => None
      end
  | APumpReadFails =>
      (* ReadMessage fails: return, and the deferred close(c.done) *)
      match pump s with
      | PumpReading =>
          Some {| nextID := nextID s; pending := pending s;
                  challenge := challenge s; done := true;
                  callers := callers s; pump := PumpExited;
                  written := written s |}
      | _ => None
      end
  | APumpBadMessage =>
      (* json.Unmarshal fails: continue *)
      match pump s with
      | PumpReading => Some s
      | _ => None
      end
  | APumpFrame frame =>
      match pump s with
      | PumpReading =>
          if decide (frame_Type frame = "res" ∧ frame_ID frame ≠ "") then
            match pending s !! frame_ID frame with
            | Some t => Some (set_pump (PumpSending t frame) s)
            | None => Some s
            end
          else if decide (frame_Type frame = "event"
                          ∧ frame_Event frame = "connect.challenge") then
            match challenge s with
            | [] =>
                Some {| nextID := nextID s; pending := pending s;
                        challenge := [frame]; done := done s;
                        callers := callers s; pump := pump s;
                        written := written s |}
            | _ => Some s
            end
          else Some s
      | _ => None
      end
  | APumpSend =>
      (* ch <- frame, once the channel has room *)
      match pump s with
      | PumpSending t frame =>
          match callers s !! t with
          | Some c =>
              match call_ch c with
              | [] =>
                  Some (set_pump PumpReading
                          (set_caller t (set_ch [frame] c) s))
              | _ => None
              end
          | None => None
          end
      | _ => None
      end
  end.

(** A run of the goroutines, one step after the other. *)
Fixpoint run (acts : list action) (s : connection) : option connection :=
  match acts with
  | [] => Some s
  | a :: acts =>
      match step a s with
      | Some s' => run acts s'
      | None => None
      end
  end.

End Call.

(** Whether an event is an attempt to dial. *)
Definition is_dial (ev : connect_event) : bool :=
  match ev with EvDial _ => true | EvSleep _ => false end.

Section ConnectErrors.
Context `{GoLib}.

(** The error of [NewWSClient] when the context is done before attempt
    [attempt], after [lastErr]. *)
Definition cancelled_error (attempt : Z) (ctxErr lastErr : error) : error :=
  fmt_Errorf "ws connect cancelled after %d attempts: %w (last error: %v)"
    [AInt attempt; AError ctxErr; AError lastErr].

End ConnectErrors.

(** Attempts [0] to [i - 1] failed, each retry after its timer fired. *)
Definition attempts_failed {WSClient : Type}
    (dialAndHandshake : Z → result WSClient) (wait : Z → select_result)
    (i : nat) : Prop :=
  ∀ j : nat, (j < i)%nat →
    (∃ err, dialAndHandshake (Z.of_nat j) = Fail err)
    ∧ ((1 ≤ j)%nat → wait (Z.of_nat j) = TimerFired).

(** ** What holds of a connection at every moment *)

(** A goroutine between [c.pending[id] = ch] and the deferred
    [delete(c.pending, id)]. *)
Definition registered (pc : call_pc) : bool :=
  match pc with
  | Sending | Waiting | Returning _ => true
  | Registering | Returned _ => false
  end.

(** A response frame that answers the request [id]. *)
Definition frame_for (id : string) (frame : wsFrame) : Prop :=
  frame_ID frame = id ∧ frame_Type frame = "res".

Definition result_for (id : string) (r : call_result) : Prop :=
  match r with
  | Response resp => frame_for id resp
  | CallError _ => True
  end.

(** One goroutine in [call]: its id is [tf-n] for a value [n] the
    counter has taken; its slot is in [pending] exactly while it is
    registered; its channel and its result hold frames of its own id. *)
Definition caller_inv (s : connection) (t : nat) (c : caller) : Prop :=
  (∃ n : Z, (1 ≤ n ≤ nextID s)%Z ∧ call_id c = "tf-" +:+ format_int n)
  ∧ pending s !! call_id c =
      (if registered (call_pc_of c) then Some t else None)
  ∧ Forall (frame_for (call_id c)) (call_ch c)
  ∧ match call_pc_of c with
    | Returning r | Returned r => result_for (call_id c) r
    | _ => True
    end.

(** The connection after at most [k] steps. *)
Record conn_inv (k : Z) (s : connection) : Prop := {
  inv_next : (0 ≤ nextID s ≤ k)%Z;
  inv_callers : ∀ t c, callers s !! t = Some c → caller_inv s t c;
  inv_unique : ∀ t t' c c',
    callers s !! t = Some c → callers s !! t' = Some c' →
    call_id c = call_id c' → t = t';
  inv_pending : ∀ id t,
    pending s !! id = Some t →
    ∃ c, callers s !! t = Some c ∧ call_id c = id;
  inv_pump : ∀ t frame,
    pump s = PumpSending t frame →
    ∃ c, callers s !! t = Some c ∧ frame_for (call_id c) frame;
}.

(** ** Telling errors apart by their message *)

Fixpoint has_char (c : ascii) (s : string) : bool :=
  match s with
  | EmptyString => false
  | String c' rest => Ascii.eqb c c' || has_char c rest
  end.


(** ** The library on a fragment of JSON

    An instance of [GoLib] to run the package on: documents whose
    numbers are integers and whose strings are plain ASCII, paths
    written with [/].  Outside the fragment the codec reports an error. *)

(** The double quote, and a string between two of them. *)
Definition quote_char : ascii := "034"%char.

Definition quoted (s : string) : string :=
  String quote_char (s +:+ String quote_char EmptyString).

(** A JSON text written with single quotes for its double quotes. *)
Fixpoint json_text (s : string) : string :=
  match s with
  | EmptyString => EmptyString
  | String c rest =>
      String (if Ascii.eqb c "'" then quote_char else c) (json_text rest)
  end.

(** *** Decoding *)

Definition is_space (c : ascii) : bool :=
  match c with
  | " " | "009" | "010" | "013" => true
  | _ => false
  end%char.

Definition is_digit (c : ascii) : bool :=
  (48 <=? N_of_ascii c)%N && (N_of_ascii c <=? 57)%N.

(** A character a string of the fragment holds as itself. *)
Definition is_plain (c : ascii) : bool :=
  (32 <=? N_of_ascii c)%N && (N_of_ascii c <=? 126)%N
  && negb (bool_decide (c ∈ [quote_char; "092"; "<"; ">"; "&"]%char)).

Fixpoint skip_space (s : string) : string :=
  match s with
  | String c rest => if is_space c then skip_space rest else s
  | EmptyString => s
  end.

Fixpoint scan_digits (acc : Z) (s : string) : Z * string :=
  match s with
  | String c rest =>
      if is_digit c then scan_digits (acc * 10 + Z.of_N (N_of_ascii c - 48)) rest
      else (acc, s)
  | EmptyString => (acc, s)
  end.

Fixpoint scan_string (s : string) : option (string * string) :=
  match s with
  | String c rest =>
      if Ascii.eqb c quote_char then Some (EmptyString, rest)
      else if is_plain c then
        '(body, rest') ← scan_string rest; Some (String c body, rest')
      else None
  | EmptyString => None
  end.

Definition scan_literal (lit : string) (v : value) (s : string)
    : option (value * string) :=
  if String.prefix lit s
  then Some (v, String.substring (String.length lit)
                  (String.length s - String.length lit) s)
  else None.

(** The next character that is not white space, and what follows it. *)
Definition next_char (s : string) : option (ascii * string) :=
  match skip_space s with
  | String c rest => Some (c, rest)
  | EmptyString => None
  end.

Fixpoint decode_value (fuel : nat) (s : string) : option (value * string) :=
  match fuel with
  | O => None
  | S fuel =>
      let fix members (n : nat) (acc : gmap string value) (s : string)
          {struct n} : option (value * string) :=
        match n with
        | O => None
        | S n =>
            '(q, s) ← next_char s;
            if negb (Ascii.eqb q quote_char) then None else
            '(key, s) ← scan_string s;
            '(colon, s) ← next_char s;
            if negb (Ascii.eqb colon ":") then None else
            '(v, s) ← decode_value fuel s;
            '(sep, s) ← next_char s;
            if Ascii.eqb sep "," then members n (<[key := v]> acc) s
            else if Ascii.eqb sep "}" then Some (VMap (<[key := v]> acc), s)
            else None
        end in
      let fix elements (n : nat) (acc : list value) (s : string)
          {struct n} : option (value * string) :=
        match n with
        | O => None
        | S n =>
            '(v, s) ← decode_value fuel s;
            '(sep, s) ← next_char s;
            if Ascii.eqb sep "," then elements n (acc ++ [v])%list s
            else if Ascii.eqb sep "]" then Some (VList (acc ++ [v])%list, s)
            else None
        end in
      '(c, rest) ← next_char s;
      if Ascii.eqb c "{" then
        match next_char rest with
        | Some ("}"%char, rest') => Some (VMap ∅, rest')
        | _ => members (String.length rest) ∅ rest
        end
      else if Ascii.eqb c "[" then
        match next_char rest with
        | Some ("]"%char, rest') => Some (VList [], rest')
        | _ => elements (String.length rest) [] rest
        end
      else if Ascii.eqb c quote_char then
        '(body, rest) ← scan_string rest; Some (VStr body, rest)
      else if Ascii.eqb c "-" then
        match rest with
        | String d _ =>
            if is_digit d
            then let '(n, rest) := scan_digits 0 rest in Some (VNum (- n), rest)
            else None
        | EmptyString => None
        end
      else if is_digit c then
        let '(n, rest) := scan_digits 0 (String c rest) in Some (VNum n, rest)
      else
        match scan_literal "true" (VBool true) (String c rest) with
        | Some r => Some r
        | None =>
            match scan_literal "false" (VBool false) (String c rest) with
            | Some r => Some r
            | None => scan_literal "null" VNull (String c rest)
            end
        end
  end.

Definition decode_document (raw : string)
    : option (option (gmap string value)) :=
  '(v, rest) ← decode_value (S (String.length raw)) raw;
  match skip_space rest, v with
  | EmptyString, VMap m => Some (Some m)
  | EmptyString, VNull => Some None
  | _, _ => None
  end.

(** *** Encoding *)

Fixpoint insert_sorted (kv : string * value) (l : list (string * value))
    : list (string * value) :=
  match l with
  | [] => [kv]
  | kv' :: l' =>
      if String.leb kv.1 kv'.1 then kv :: l else kv' :: insert_sorted kv l'
  end.

Definition sorted_members (m : gmap string value) : list (string * value) :=
  foldr insert_sorted [] (map_to_list m).

Definition newline : string := String "010" EmptyString.

Fixpoint repeat_string (n : nat) (s : string) : string :=
  match n with O => EmptyString | S n => s +:+ repeat_string n s end.

Definition encode_string (s : string) : option string :=
  if forallb is_plain (list_ascii_of_string s)
  then Some (quoted s) else None.

Fixpoint join_lines (sep : string) (l : list string) : string :=
  match l with
  | [] => EmptyString
  | [x] => x
  | x :: l => x +:+ sep +:+ join_lines sep l
  end.

Fixpoint encode_value (fuel : nat) (pre indent : string) (depth : nat)
    (v : value) : option string :=
  match fuel with
  | O => None
  | S fuel =>
      let line d := newline +:+ pre +:+ repeat_string d indent in
      match v with
      | VNull => Some "null"
      | VBool true => Some "true"
      | VBool false => Some "false"
      | VNum n => Some (format_int n)
      | VStr s => encode_string s
      | VList [] => Some "[]"
      | VList l =>
          items ← mapM (encode_value fuel pre indent (S depth)) l;
          Some ("[" +:+ line (S depth)
                +:+ join_lines ("," +:+ line (S depth)) items
                +:+ line depth +:+ "]")
      | VMap m =>
          match sorted_members m with
          | [] => Some "{}"
          | kvs =>
              items ← mapM (λ kv : string * value,
                         k ← encode_string kv.1;
                         x ← encode_value fuel pre indent (S depth) kv.2;
                         Some (k +:+ ": " +:+ x)) kvs;
              Some ("{" +:+ line (S depth)
                    +:+ join_lines ("," +:+ line (S depth)) items
                    +:+ line depth +:+ "}")
          end
      end
  end.

Definition encode_document (m : gmap string value) (pre indent : string)
    : option string :=
  encode_value (value_size (VMap m)) pre indent 0 (VMap m).


(** [filepath.Dir] of a cleaned path. *)
Fixpoint drop_last_element (rev_path : list ascii) : list ascii :=
  match rev_path with
  | [] => []
  | c :: rest => if Ascii.eqb c "/" then rest else drop_last_element rest
  end.

Definition path_dir (p : string) : string :=
  if bool_decide ("/"%char ∈ list_ascii_of_string p) then
    match drop_last_element (rev (list_ascii_of_string p)) with
    | [] => "/"
    | d => string_of_list_ascii (rev d)
    end
  else ".".

Definition golib_fragment : GoLib := {|
  json_Unmarshal raw :=
    match decode_document raw with
    | Some m => Ok m
    | None => Fail (jsonError "invalid character in JSON input")
    end;
  json_MarshalIndent m pre indent :=
    match encode_document m pre indent with
    | Some out => Ok out
    | None => Fail (jsonError "json: unsupported value")
    end;
  strconv_Quote := quoted;
  filepath_Dir := path_dir;
|}.

(** The encoding of the document a JSON text decodes to. *)
Definition json_encoded (text : string) : option string :=
  match decode_document text with
  | Some (Some m) => encode_document m "" ""
  | _ => None
  end.

(** ** The documents and runs of the package's tests *)

Definition test_client : FileClient :=
  {| path := "/home/user/.openclaw/openclaw.json" |}.

(** A file system without faults, before any call. *)
Definition world_of (f : string + string * errno) : world :=
  {| file := f; mkdir_fault := None; write_fault := None; calls := [] |}.

Definition gateway_18789 : string := json_text "{'gateway':{'port':18789}}".
Definition gateway_9999 : string := json_text "{'gateway':{'port':9999}}".

Definition gateway_9999_test : string :=
  json_text
"{
  'gateway': {
    'port': 9999
  },
  'test': true
}".

Definition whatsapp_config : string :=
  json_text "{'channels':{'whatsapp':{'dmPolicy':'pairing'}}}".

(** [TestMergePatch], "deep merge". *)
Definition deep_target : gmap string value :=
  {[ "a" := VNum 1; "nested" := VMap {[ "x" := VNum 1; "y" := VNum 2 ]} ]}.
Definition deep_patch : gmap string value :=
  {[ "nested" := VMap {[ "y" := VNum 3; "z" := VNum 4 ]} ]}.

(** A response frame to the request [id]. *)
Definition response_to (id : string) (payload : value) : wsFrame := {|
  frame_Type := "res"; frame_ID := id; frame_Method := "";
  frame_Params := VNull; frame_OK := Some true; frame_Payload := payload;
  frame_Error := VNull; frame_Event := "";
|}.

(** Three requests in flight at once, answered last first. *)
Definition out_of_order_run : list action :=
  [ACall 0 "config.get" (VMap ∅); ACall 1 "health" (VMap ∅);
   ACall 2 "config.get" (VMap ∅);
   ARegister 1; ARegister 0; ARegister 2;
   AWrite 0; AWrite 2; AWrite 1;
   APumpFrame (response_to "tf-3" (VStr "third")); APumpSend;
   APumpFrame (response_to "tf-2" (VStr "second")); APumpSend;
   AReceive 1;
   APumpFrame (response_to "tf-1" (VStr "first")); APumpSend;
   AReceive 0; AReceive 2;
   AUnregister 2; AUnregister 0; AUnregister 1].

(** Where [out_of_order_run] ends. *)
Definition out_of_order_final : connection :=
  default dialed (run (H := golib_fragment) out_of_order_run dialed).

(** What [GetConfig] returns on a file that holds [whatsapp_config]. *)
Definition whatsapp_payload : ConfigPayload :=
  {| Raw := whatsapp_config; Hash := hashBytes whatsapp_config;
     Parsed := None |}.

Definition whatsapp_document : gmap string value :=
  {[ "channels" :=
       VMap {[ "whatsapp" := VMap {[ "dmPolicy" := VStr "pairing" ]} ]} ]}.

(** A file that does not hold JSON, and a file system that refuses the
    write. *)
Definition world_not_json : world := world_of (inl "gateway: 18789").


(** A gateway that refuses the first two dials, a context that is
    never done, and one that is done during the second delay. *)
Definition dial_third (attempt : Z) : result unit :=
  if (attempt <? 2)%Z then Fail (errorString "dial: connection refused")
  else Ok tt.

Definition wait_timer (attempt : Z) : select_result := TimerFired.

Definition wait_cancelled (attempt : Z) : select_result :=
  if (attempt =? 2)%Z then CtxDone ctxCanceled else TimerFired.

(** A challenge event with the nonce [n-1]. *)
Definition challenge_frame : wsFrame := {|
  frame_Type := "event"; frame_ID := ""; frame_Method := "";
  frame_Params := VNull; frame_OK := None;
  frame_Payload := VMap {[ "nonce" := VStr "n-1" ]};
  frame_Error := VNull; frame_Event := "connect.challenge";
|}.

(** ** More of what holds of a connection *)

(** A goroutine past its [WriteMessage], or past the failure that kept
    it from writing. *)
Definition past_write (pc : call_pc) : bool :=
  match pc with
  | Registering | Sending => false
  | Waiting | Returning _ | Returned _ => true
  end.

(** The frames written to [conn]: no two carry the same id, each is
    the request of a goroutine past its write, and the request of every
    goroutine that waits is among them. *)
Definition written_inv (s : connection) : Prop :=
  NoDup (frame_ID <$> written s)
  ∧ (∀ frame, frame ∈ written s →
       ∃ t c, callers s !! t = Some c ∧ frame = request_frame c
              ∧ past_write (call_pc_of c) = true)
  ∧ (∀ t c, callers s !! t = Some c → call_pc_of c = Waiting →
       request_frame c ∈ written s).

(** A caller of goroutine [t] that has returned and left a frame in its
    channel, while [readPump] is about to send it another one. *)
Definition pump_stuck (t : nat) (frame : wsFrame) (s : connection) : Prop :=
  pump s = PumpSending t frame
  ∧ ∃ c r, callers s !! t = Some c ∧ call_pc_of c = Returned r
           ∧ call_ch c ≠ [].

(** A digit of lower-case hexadecimal. *)
Definition is_lower_hex (c : ascii) : bool :=
  existsb (Ascii.eqb c) (list_ascii_of_string "0123456789abcdef").

(** ** Package resources: the helpers the resources share *)

(** [strings.Contains(s, substr)] *)
Fixpoint strings_Contains (s substr : string) : bool :=
  String.prefix substr s
  || match s with
     | EmptyString => false
     | String _ rest => strings_Contains rest substr
     end.

(** [isConnectionClosed], of an [error] that may be nil *)
Definition isConnectionClosed (err : option error) : bool :=
  match err with
  | None => false
  | Some err =>
      let msg := Error err in
      strings_Contains msg "connection closed"
      || strings_Contains msg "websocket: close"
      || strings_Contains msg "use of closed network connection"
  end.

(** [types.String] of the plugin framework: null (its zero value),
    unknown, or a known string. *)
Inductive tfString :=
| StringNull
| StringUnknown
| StringValue (s : string).

Definition IsNull (v : tfString) : bool :=
  match v with StringNull => true | _ => false end.

Definition IsUnknown (v : tfString) : bool :=
  match v with StringUnknown => true | _ => false end.

Definition ValueString (v : tfString) : string :=
  match v with StringValue s => s | _ => "" end.

(** [setIfString]: the map [m] after the call *)
Definition setIfString (m : gmap string value) (key : string) (val : tfString)
    : gmap string value :=
  if negb (IsNull val) && negb (IsUnknown val)
  then <[key := VStr (ValueString val)]> m
  else m.

(** [readString]: [*target] after the call *)
Definition readString (m : gmap string value) (key : string)
    (target : tfString) : tfString :=
  match m !! key with
  | Some (VStr v) => StringValue v
  | _ => target
  end.

(** ** binding.go: the bindings of agents to channels *)

Record BindingModel := {
  ID : tfString;
  AgentID : tfString;
  MatchChannel : tfString;
  MatchAccountID : tfString;
  MatchPeerKind : tfString;
  MatchPeerID : tfString;
}.

Definition bindingCompositeKey (agentID channel accountID : string) : string :=
  agentID +:+ "/" +:+ channel +:+ "/" +:+ accountID.

Definition bindingKeyFromModel (m : BindingModel) : string :=
  let accountID :=
    if negb (IsNull (MatchAccountID m)) && negb (IsUnknown (MatchAccountID m))
    then ValueString (MatchAccountID m)
    else "" in
  bindingCompositeKey (ValueString (AgentID m)) (ValueString (MatchChannel m))
    accountID.

(** [v, _ := m[key].(string)] *)
Definition string_at (m : gmap string value) (key : string) : string :=
  match m !! key with
  | Some (VStr s) => s
  | _ => ""
  end.

Definition bindingKeyFromMap (entry : gmap string value) : string :=
  let agentID := string_at entry "agentId" in
  match entry !! "match" with
  | Some (VMap matchMap) =>
      bindingCompositeKey agentID (string_at matchMap "channel")
        (string_at matchMap "accountId")
  | _ => bindingCompositeKey agentID "" ""
  end.

(** [findBindingIndex]: the loop from index [i] on. *)
Fixpoint findBindingIndex_from (i : Z) (bindings : list value) (key : string) : Z :=
  match bindings with
  | [] => -1
  | item :: rest =>
      match item with
      | VMap m =>
          if decide (bindingKeyFromMap m = key) then i
          else findBindingIndex_from (i + 1) rest key
      | _ => findBindingIndex_from (i + 1) rest key
      end
  end.

Definition findBindingIndex (bindings : list value) (key : string) : Z :=
  findBindingIndex_from 0 bindings key.

(** [modelToMap] *)
Definition modelToMap (m : BindingModel) : gmap string value :=
  let d := setIfString ∅ "agentId" (AgentID m) in
  let matchMap :=
    setIfString (setIfString ∅ "channel" (MatchChannel m))
      "accountId" (MatchAccountID m) in
  let peer :=
    setIfString (setIfString ∅ "kind" (MatchPeerKind m))
      "id" (MatchPeerID m) in
  let matchMap :=
    if (0 <? size peer)%nat then <["peer" := VMap peer]> matchMap
    else matchMap in
  if (0 <? size matchMap)%nat then <["match" := VMap matchMap]> d else d.

(** [mapToModel]: [*m] after the call *)
Definition mapToModel (s : gmap string value) (m : BindingModel)
    : BindingModel :=
  let agentID := readString s "agentId" (AgentID m) in
  match s !! "match" with
  | Some (VMap matchMap) =>
      let channel := readString matchMap "channel" (MatchChannel m) in
      let accountID := readString matchMap "accountId" (MatchAccountID m) in
      match matchMap !! "peer" with
      | Some (VMap peer) =>
          {| ID := ID m; AgentID := agentID; MatchChannel := channel;
             MatchAccountID := accountID;
             MatchPeerKind := readString peer "kind" (MatchPeerKind m);
             MatchPeerID := readString peer "id" (MatchPeerID m) |}
      | _ =>
          {| ID := ID m; AgentID := agentID; MatchChannel := channel;
             MatchAccountID := accountID;
             MatchPeerKind := MatchPeerKind m;
             MatchPeerID := MatchPeerID m |}
      end
  | _ =>
      {| ID := ID m; AgentID := agentID; MatchChannel := MatchChannel m;
         MatchAccountID := MatchAccountID m;
         MatchPeerKind := MatchPeerKind m; MatchPeerID := MatchPeerID m |}
  end.

Definition set_ID (id : tfString) (m : BindingModel) : BindingModel :=
  {| ID := id; AgentID := AgentID m; MatchChannel := MatchChannel m;
     MatchAccountID := MatchAccountID m; MatchPeerKind := MatchPeerKind m;
     MatchPeerID := MatchPeerID m |}.

(** [Create] and [Update], whose bodies are the same, between
    [getBindingsList] and [writeBindingsList]: the list they write and
    the id they store in the state.  [None] is the panic of
    [list[idx] = entry] on an index out of range. *)
Definition Create_list (bindings : list value) (plan : BindingModel)
    : option (list value * BindingModel) :=
  let entry := modelToMap plan in
  let key := bindingKeyFromModel plan in
  let idx := findBindingIndex bindings key in
  if (0 <=? idx)%Z then
    if (idx <? Z.of_nat (length bindings))%Z
    then Some (<[Z.to_nat idx := VMap entry]> bindings,
               set_ID (StringValue key) plan)
    else None
  else Some (bindings ++ [VMap entry], set_ID (StringValue key) plan).

(** [Delete], likewise: the list it writes.  [None] is the panic of
    [list[:idx]] or [list[idx+1:]] out of range. *)
Definition Delete_list (bindings : list value) (state : BindingModel)
    : option (list value) :=
  let key := bindingKeyFromModel state in
  let idx := findBindingIndex bindings key in
  if (0 <=? idx)%Z then
    if (idx <? Z.of_nat (length bindings))%Z
    then Some (take (Z.to_nat idx) bindings ++ drop (Z.to_nat idx + 1) bindings)
    else None
  else Some bindings.

(** [Read], after [getBindingsList]: the state it sets, or [Some None]
    when it removes the resource.  [None] is the panic of [list[idx]]
    out of range. *)
Definition Read_list (bindings : list value) (state : BindingModel)
    : option (option BindingModel) :=
  let key := bindingKeyFromModel state in
  let idx := findBindingIndex bindings key in
  if (idx <? 0)%Z then Some None
  else
    match bindings !! Z.to_nat idx with
    | Some (VMap entry) =>
        Some (Some (set_ID (StringValue key) (mapToModel entry state)))
    | Some _ => Some None
    | None => None
    end.

(** [strings.SplitN(s, sep, n)] for a separator of one byte and
    [n >= 0]: [strings.Index] first. *)
Fixpoint strings_IndexByte (s : string) (sep : ascii) : option (string * string) :=
  match s with
  | EmptyString => None
  | String c rest =>
      if Ascii.eqb c sep then Some (EmptyString, rest)
      else match strings_IndexByte rest sep with
           | Some (before, after) => Some (String c before, after)
           | None => None
           end
  end.

Fixpoint strings_SplitN (s : string) (sep : ascii) (n : nat) : list string :=
  match n with
  | O => []
  | S O => [s]
  | S n' =>
      match strings_IndexByte s sep with
      | Some (before, after) => before :: strings_SplitN after sep n'
      | None => [s]
      end
  end.

(** [ImportState]: the key it looks up, or [None] for the diagnostic
    "Invalid import ID". *)
Definition ImportState_key (id : string) : option string :=
  let parts := strings_SplitN id "/" 3 in
  if (length parts <? 2)%nat then None
  else
    let agentID := parts !!! 0%nat in
    let channel := parts !!! 1%nat in
    let accountID := if (length parts =? 3)%nat then parts !!! 2%nat else "" in
    Some (bindingCompositeKey agentID channel accountID).

(** The keys of the entries of [bindings] that are objects. *)
Definition binding_keys (bindings : list value) : list string :=
  omap (λ item, match item with
                | VMap m => Some (bindingKeyFromMap m)
                | _ => None
                end) bindings.

(** The number of [/] in a string. *)
Fixpoint count_slash (s : string) : nat :=
  match s with
  | EmptyString => 0
  | String c rest => (if Ascii.eqb c "/" then 1 else 0) + count_slash rest
  end.

(** The zero value of [BindingModel]. *)
Definition BindingModel_zero : BindingModel :=
  {| ID := StringNull; AgentID := StringNull; MatchChannel := StringNull;
     MatchAccountID := StringNull; MatchPeerKind := StringNull;
     MatchPeerID := StringNull |}.

(** A value the provider knows, or null. *)
Definition known (v : tfString) : tfString :=
  match v with StringUnknown => StringNull | _ => v end.

(** ** More documents and states of the tests *)

(** [TestPatchNestedSection]: the file after the patch, and after a nil
    patch at the same path of an empty document. *)
Definition telegram_open : string :=
  json_text
"{
  'channels': {
    'telegram': {
      'dmPolicy': 'open'
    }
  }
}".


Definition channels_empty : string :=
  json_text
"{
  'channels': {}
}".

Definition created_document : string :=
  json_text
"{
  'a': {
    'b': 1
  }
}".

(** A file system where the directory of the file cannot be made. *)
Definition world_no_dir : world :=
  {| file := inr ("open", ENOENT); mkdir_fault := Some ("/home/user", EACCES);
     write_fault := None; calls := [] |}.

(** Two bindings of the agent [main]. *)
Definition binding_whatsapp : BindingModel :=
  {| ID := StringUnknown; AgentID := StringValue "main";
     MatchChannel := StringValue "whatsapp";
     MatchAccountID := StringValue "personal";
     MatchPeerKind := StringNull; MatchPeerID := StringNull |}.

Definition binding_telegram : BindingModel :=
  {| ID := StringUnknown; AgentID := StringValue "main";
     MatchChannel := StringValue "telegram"; MatchAccountID := StringNull;
     MatchPeerKind := StringValue "dm"; MatchPeerID := StringValue "42" |}.

(** A gateway that answers one request three times. *)
Definition repeated_response_run : list action :=
  [ACall 0 "config.get" (VMap ∅); ARegister 0; AWrite 0;
   APumpFrame (response_to "tf-1" (VStr "once")); APumpSend;
   APumpFrame (response_to "tf-1" (VStr "twice"));
   AReceive 0; APumpSend;
   APumpFrame (response_to "tf-1" (VStr "thrice"));
   AUnregister 0].

Definition repeated_response_final : connection :=
  default dialed (run (H := golib_fragment) repeated_response_run dialed).

(** The connection is lost while a request waits for its response. *)
Definition connection_lost_run : list action :=
  [ACall 0 "config.patch" (VMap ∅); ARegister 0; AWrite 0; APumpReadFails].

Definition connection_lost : connection :=
  default dialed (run (H := golib_fragment) connection_lost_run dialed).

(** What goes on after [repeated_response_run]: a second request is
    written and never answered. *)
Definition unanswered_run : list action :=
  [ACall 1 "health" (VMap ∅); ARegister 1; AWrite 1;
   ACtxDone 1 ctxDeadlineExceeded; AUnregister 1].

Definition unanswered_final : connection :=
  default dialed
    (run (H := golib_fragment) unanswered_run repeated_response_final).

(** * Properties *)

(** *** Size of a member, and induction on documents *)

Lemma value_size_lookup (m : gmap string value) k v :
  m !! k = Some v → (value_size v < value_size (VMap m))%nat.
Proof.
  simpl. revert k v.
  induction m as [|i x m Hi Hfirst IH] using map_first_key_ind; intros k v.
  - by rewrite lookup_empty.
  - rewrite map_fold_insert_first_key by done.
    rewrite lookup_insert. case_decide as Hk.
    + intros [= ->]. lia.
    + intros Hv. specialize (IH _ _ Hv). lia.
Qed.

Lemma value_map_ind (P : gmap string value → Prop) :
  (∀ m, (∀ k sub, m !! k = Some (VMap sub) → P sub) → P m) →
  ∀ m, P m.
Proof.
  intros Hstep m.
  remember (value_size (VMap m)) as n eqn:Hn.
  revert m Hn. induction n as [n IH] using lt_wf_ind. intros m ->.
  apply Hstep. intros k sub Hk.
  eapply IH; [|reflexivity]. exact (value_size_lookup _ _ _ Hk).
Qed.

(** *** The loop, key by key *)

Lemma patchStep_lookup key patchVal target k :
  patchStep mergeInto key patchVal target !! k =
    if decide (key = k) then patchEntry patchVal (target !! key)
    else target !! k.
Proof.
  unfold patchStep, patchEntry, mergePatch.
  destruct patchVal as [| | | | |pm]; simpl;
    try (rewrite ?lookup_insert, ?lookup_delete; by case_decide; simplify_eq).
  destruct (target !! key) as [[| | | | |tm]|] eqn:Ht;
    rewrite lookup_insert; by case_decide; simplify_eq.
Qed.

Lemma foldr_patchStep_lookup (l : list (string * value)) target k :
  NoDup l.*1 →
  foldr (uncurry (patchStep mergeInto)) target l !! k =
    match list_to_map (M := gmap string value) l !! k with
    | Some patchVal => patchEntry patchVal (target !! k)
    | None => target !! k
    end.
Proof.
  induction l as [|[key pv] l IH]; intros Hnd; simpl.
  - by rewrite lookup_empty.
  - apply NoDup_cons in Hnd as [Hnotin Hnd]. specialize (IH Hnd).
    rewrite patchStep_lookup, lookup_insert. case_decide as Hk; [|done].
    subst k. rewrite IH.
    by rewrite (not_elem_of_list_to_map_1 (M := gmap string) l key Hnotin).
Qed.

(** The result of [mergePatch] at every key. *)
Lemma mergePatch_lookup target patch k :
  mergePatch target patch !! k =
    match patch !! k with
    | Some patchVal => patchEntry patchVal (default ∅ target !! k)
    | None => default ∅ target !! k
    end.
Proof.
  unfold mergePatch at 1. simpl. rewrite map_fold_foldr.
  rewrite foldr_patchStep_lookup by apply NoDup_fst_map_to_list.
  by rewrite list_to_map_to_list.
Qed.

Lemma foldl_rev_foldr {A B} (f : A → B → A) (a : A) (l : list B) :
  foldl f a l = foldr (λ x acc, f acc x) a (rev l).
Proof.
  revert a. induction l as [|x l IH]; intros a; simpl; [done|].
  by rewrite IH, foldr_app.
Qed.

(** Go ranges over a map in an unspecified order: whatever order the
    loop visits the entries of [patch] in, it ends in [mergePatch]. *)
Lemma mergePatch_any_order target patch (l : list (string * value)) :
  l ≡ₚ map_to_list patch →
  foldl (λ tgt kv, patchStep mergeInto kv.1 kv.2 tgt) (default ∅ target) l =
    mergePatch target patch.
Proof.
  intros Hl. apply map_eq; intros k.
  rewrite mergePatch_lookup, foldl_rev_foldr.
  assert (Hperm : rev l ≡ₚ map_to_list patch).
  { etrans; [|exact Hl]. symmetry. apply Permutation_rev. }
  assert (Hnd : NoDup (rev l).*1).
  { rewrite Hperm. apply NoDup_fst_map_to_list. }
  pose proof (foldr_patchStep_lookup (rev l) (default ∅ target) k Hnd) as E.
  assert (Hmap : list_to_map (M := gmap string value) (rev l) = patch).
  { rewrite <-(list_to_map_to_list patch).
    apply list_to_map_proper; [done|exact Hperm]. }
  rewrite Hmap in E. rewrite <-E. f_equal.
  clear. induction (rev l) as [|[??] ? IH]; simpl; [done|]. by rewrite IH.
Qed.

(** *** Null-free patches *)

Lemma no_null_keys_lookup (patch : gmap string value) :
  no_null_keys patch = true ↔
  ∀ k v, patch !! k = Some v → is_null v = false ∧ no_null_keys_val v = true.
Proof.
  unfold no_null_keys. simpl.
  induction patch as [|i x m Hi Hfirst IH] using map_first_key_ind.
  - rewrite map_fold_empty. split; [|done]. intros _ k v.
    by rewrite lookup_empty.
  - rewrite map_fold_insert_first_key by done.
    rewrite !andb_true_iff, negb_true_iff, IH. split.
    + intros [[Hx Hsub] Hm] k v. rewrite lookup_insert.
      case_decide; [by intros [= <-]|exact (Hm k v)].
    + intros Hall. split.
      * apply (Hall i x). by rewrite lookup_insert_eq.
      * intros k v Hk. apply (Hall k v). rewrite lookup_insert_ne; [done|].
        intros ->. by rewrite Hi in Hk.
Qed.

Lemma no_null_keys_sub (patch sub : gmap string value) k :
  no_null_keys patch = true → patch !! k = Some (VMap sub) →
  no_null_keys sub = true.
Proof.
  intros Hp Hk. by destruct (proj1 (no_null_keys_lookup patch) Hp _ _ Hk).
Qed.

(** Merging a null-free patch onto itself changes nothing. *)
Lemma mergePatch_self (patch : gmap string value) :
  no_null_keys patch = true → mergePatch (Some patch) patch = patch.
Proof.
  induction patch as [patch IH] using value_map_ind. intros Hnn.
  apply map_eq; intros k. rewrite mergePatch_lookup. simpl.
  destruct (patch !! k) as [v|] eqn:Hk; [|done].
  destruct (proj1 (no_null_keys_lookup patch) Hnn _ _ Hk) as [Hv Hsub].
  destruct v as [| | | | |pm]; simpl; try done.
  by rewrite (IH _ _ Hk Hsub).
Qed.

Lemma patchEntry_twice (patchVal : value) (old : option value) :
  is_null patchVal = false →
  (∀ pm, patchVal = VMap pm →
     no_null_keys pm = true ∧
     ∀ tm, mergePatch (Some (mergePatch (Some tm) pm)) pm =
           mergePatch (Some tm) pm) →
  patchEntry patchVal (patchEntry patchVal old) = patchEntry patchVal old.
Proof.
  intros Hv Hmap. destruct patchVal as [| | | | |pm]; simpl; try done.
  destruct (Hmap pm eq_refl) as [Hnn Hidem].
  destruct old as [[| | | | |tm]|]; simpl;
    rewrite ?Hidem, ?(mergePatch_self pm Hnn); done.
Qed.

(** ** Properties of the merge-patch engine *)

(** C1. [mergePatch(T, P)] follows the algorithm of the merge-patch
    engine: a key of [P] holding null is absent from the result, whether
    or not [T] had it; where the patch value and the existing target
    value are both maps the result holds the merge of the two sub-maps;
    every other key of [P] holds [P]'s value outright; the keys [P] does
    not mention are those of [T], untouched; and a nil [T] is merged onto
    as the empty map is. *)
Theorem mergePatch_algorithm
    (T : option (gmap string value)) (P : gmap string value) :
  (∀ k, P !! k = Some VNull → mergePatch T P !! k = None) ∧
  (∀ k pm tm,
     P !! k = Some (VMap pm) → default ∅ T !! k = Some (VMap tm) →
     mergePatch T P !! k = Some (VMap (mergePatch (Some tm) pm))) ∧
  (∀ k v,
     P !! k = Some v → is_null v = false →
     ¬ (is_map v = true ∧ ∃ tm, default ∅ T !! k = Some (VMap tm)) →
     mergePatch T P !! k = Some v) ∧
  (∀ k, P !! k = None → mergePatch T P !! k = default ∅ T !! k) ∧
  mergePatch None P = mergePatch (Some ∅) P.
Proof.
  repeat split.
  - intros k Hk. by rewrite mergePatch_lookup, Hk.
  - intros k pm tm Hk Ht. by rewrite mergePatch_lookup, Hk, Ht.
  - intros k v Hk Hv Hshape. rewrite mergePatch_lookup, Hk.
    destruct v as [| | | | |pm]; simpl; try done.
    destruct (default ∅ T !! k) as [[| | | | |tm]|]; try done.
    destruct Hshape. eauto.
  - intros k Hk. by rewrite mergePatch_lookup, Hk.
Qed.

(** C7. For every base document [D] and every patch [P] with no
    null-valued keys, applying [P] a second time changes nothing:
    [merge(merge(D, P), P) = merge(D, P)]. *)
Theorem mergePatch_idempotent
    (D : option (gmap string value)) (P : gmap string value) :
  no_null_keys P = true →
  mergePatch (Some (mergePatch D P)) P = mergePatch D P.
Proof.
  revert D. induction P as [P IH] using value_map_ind. intros D Hnn.
  apply map_eq; intros k. rewrite (mergePatch_lookup (Some _)). simpl.
  rewrite !mergePatch_lookup.
  destruct (P !! k) as [v|] eqn:Hk; [|done].
  destruct (proj1 (no_null_keys_lookup P) Hnn _ _ Hk) as [Hv Hsub].
  apply patchEntry_twice; [done|]. intros pm ->. split; [done|].
  intros tm. by apply (IH k pm Hk (Some tm)).
Qed.

(** ** Properties of the file client *)

Section FileProperties.
Context `{GoLib}.
#[local] Opaque sha256_Sum256.
#[local] Arguments hashBytes : simpl never.




(** The file is there: [GetConfig] returns its bytes and their digest. *)
Lemma File_GetConfig_existing (f : FileClient) (w : world) (data : string) :
  file w = inl data →
  File_GetConfig f w =
    (Ok {| Raw := data; Hash := hashBytes data; Parsed := None |}, w).
Proof.
  intros Hf. unfold File_GetConfig, getConfigLocked, os_ReadFile.
  by rewrite Hf.
Qed.






(** C3. When the file of a file client does not exist, [GetConfig]
    succeeds and returns the payload of the empty document: [Raw] is the
    2-byte string [{}] and [Hash] is the digest of exactly those 2
    bytes, by the digest function applied to the bytes of a file that
    exists. *)
Theorem File_GetConfig_missing (f : FileClient) (w : world) (op : string) :
  file w = inr (op, ENOENT) →
  ∃ cfg,
    File_GetConfig f w = (Ok cfg, w)
    ∧ Raw cfg = "{}"
    ∧ String.length (Raw cfg) = 2%nat
    ∧ Hash cfg = hashBytes "{}"
    ∧ Hash cfg =
        "44136fa355b3678a1146ad16f7e8649e94fb4fc21fe77e8310c060f61caaff8a"
    ∧ ∀ w', file w' = inl "{}" → File_GetConfig f w' = (Ok cfg, w').
Proof.
  intros Hf.
  exists {| Raw := "{}"; Hash := hashBytes "{}"; Parsed := None |}.
  split.
  { unfold File_GetConfig, getConfigLocked, os_ReadFile. rewrite Hf.
    reflexivity. }
  do 3 (split; [reflexivity|]). split; [vm_compute; reflexivity|].
  intros w' Hw'. rewrite (File_GetConfig_existing f w' "{}" Hw').
  reflexivity.
Qed.


(** [PatchConfig] never reads [baseHash]. *)
Lemma File_PatchConfig_any_hash f P (h h' : string) w :
  File_PatchConfig f P h w = File_PatchConfig f P h' w.
Proof. reflexivity. Qed.

(** C2. Whatever [baseHash] is given, also one taken before the file
    was changed behind the client's back, [PatchConfig(P, baseHash)] on
    a file whose current content [C] parses succeeds and rewrites the
    file with the encoding of [merge(parse(C), P)] (on a file system
    that takes the write, for a merged document the encoder accepts);
    and in every state its outcome is the same for every [baseHash]. *)
Theorem File_PatchConfig_ignores_baseHash
    (f : FileClient) (P : gmap string value) (h : string) (w : world)
    (C : string) (D : option (gmap string value)) (out : string) :
  file w = inl C →
  json_Unmarshal C = Ok D →
  json_MarshalIndent (mergePatch D P) "" "  " = Ok out →
  mkdir_fault w = None →
  write_fault w = None →
  File_PatchConfig f P h w =
    (None,
     {| file := inl out; mkdir_fault := None; write_fault := None;
        calls := calls w ++ [CallMkdirAll (filepath_Dir (path f));
                             CallWriteFile (path f) out] |})
  ∧ ∀ h' w', File_PatchConfig f P h' w' = File_PatchConfig f P h w'.
Proof.
  intros Hf Hparse Hout Hmk Hwr. split; [|done].
  unfold File_PatchConfig, getConfigLocked, os_ReadFile, parseRawJSON.
  rewrite Hf. simpl. rewrite Hparse, Hout.
  unfold ensureDir, os_MkdirAll, os_WriteFile. simpl.
  rewrite Hmk. simpl. rewrite Hwr, Hmk, Hf, <-app_assoc. reflexivity.
Qed.

(** C10. When [PatchConfig] fails because the content of the file does
    not parse, or because the merged document cannot be encoded, the
    file system is left as it was, byte for byte, and no write was
    attempted; a run of [PatchConfig] that attempts any changing call
    has read, parsed, merged and encoded with success before. *)
Theorem File_PatchConfig_failure_keeps_file
    (f : FileClient) (P : gmap string value) (h : string) (w : world) :
  (∀ cfg e,
     getConfigLocked f w = Ok cfg → parseRawJSON (Raw cfg) = Fail e →
     File_PatchConfig f P h w =
       (Some (fmt_Errorf "parsing existing config: %w" [AError e]), w))
  ∧ (∀ cfg existing e,
     getConfigLocked f w = Ok cfg → parseRawJSON (Raw cfg) = Ok existing →
     json_MarshalIndent (mergePatch existing P) "" "  " = Fail e →
     File_PatchConfig f P h w =
       (Some (fmt_Errorf "marshaling config: %w" [AError e]), w))
  ∧ (∀ err w',
     File_PatchConfig f P h w = (err, w') → w' ≠ w →
     ∃ cfg existing out,
       getConfigLocked f w = Ok cfg
       ∧ parseRawJSON (Raw cfg) = Ok existing
       ∧ json_MarshalIndent (mergePatch existing P) "" "  " = Ok out
       ∧ (calls w' = calls w ++ [CallMkdirAll (filepath_Dir (path f))]
          ∨ calls w' = calls w ++ [CallMkdirAll (filepath_Dir (path f));
                                   CallWriteFile (path f) out])).
Proof.
  unfold File_PatchConfig. repeat split.
  - intros cfg e -> ->. done.
  - intros cfg existing e -> -> ->. done.
  - intros err w'.
    destruct (getConfigLocked f w) as [cfg|e0]; [|by intros [= _ <-]].
    destruct (parseRawJSON (Raw cfg)) as [existing|e0] eqn:Hparse;
      [|by intros [= _ <-]].
    destruct (json_MarshalIndent _ _ _) as [out|e0] eqn:Hout;
      [|by intros [= _ <-]].
    intros Hrun _. exists cfg, existing, out. do 3 (split; [done|]).
    revert Hrun. unfold ensureDir, os_MkdirAll, os_WriteFile. simpl.
    destruct (mkdir_fault w) as [[d en]|]; simpl.
    { intros [= _ <-]. by left. }
    destruct (write_fault w) as [[op en]|]; simpl;
      intros [= _ <-]; right; simpl; by rewrite <-app_assoc.
Qed.

End FileProperties.

(** ** Properties of the section helpers *)

Section HelperProperties.
Context `{GoLib}.

Lemma resolves_snoc doc pre key m sub :
  resolves doc pre m → m !! key = Some (VMap sub) →
  resolves doc (pre ++ [key]) sub.
Proof.
  induction 1 as [m|m k s ks m' Hk _ IH]; intros Hsub; simpl.
  - eapply resolves_down; [done|constructor].
  - eapply resolves_down; [done|auto].
Qed.

Lemma walkSections_found keys i rest cur m :
  resolves cur rest m → walkSections keys i rest (Some cur) = (Some m, None).
Proof.
  intros Hres. revert i.
  induction Hres as [m|m k sub ks m' Hk _ IH]; intros i; simpl; [done|].
  by rewrite Hk.
Qed.

Lemma walkSections_absent keys i pre key post cur m :
  resolves cur pre m → m !! key = None →
  walkSections keys i (pre ++ key :: post) (Some cur) = (None, None).
Proof.
  intros Hres. revert i.
  induction Hres as [m|m k sub ks m' Hk _ IH]; intros i Hkey; simpl.
  - by rewrite Hkey.
  - rewrite Hk. by apply IH.
Qed.

Lemma walkSections_not_map keys i pre key post cur m v :
  resolves cur pre m → m !! key = Some v → is_map v = false →
  walkSections keys i (pre ++ key :: post) (Some cur) =
    (None,
     Some (fmt_Errorf "config path %v at index %d is not an object"
             [AStrings (take (S (i + length pre)) keys);
              AInt (Z.of_nat (i + length pre))])).
Proof.
  intros Hres. revert i.
  induction Hres as [m|m k sub ks m' Hk _ IH]; intros i Hkey Hv; simpl.
  - rewrite Hkey, Nat.add_0_r. by destruct v.
  - rewrite Hk, (IH (S i) Hkey Hv). simpl.
    by rewrite <-!Nat.add_succ_r.
Qed.

(** Every path either leads to a map, or stops at a first key that is
    absent or holds something else than a map. *)
Lemma resolves_or_stops doc keys :
  (∃ m, resolves doc keys m)
  ∨ (∃ pre key post m, keys = pre ++ key :: post ∧ resolves doc pre m
       ∧ (m !! key = None ∨ ∃ v, m !! key = Some v ∧ is_map v = false)).
Proof.
  revert doc. induction keys as [|k keys IH]; intros doc.
  - left. eexists. constructor.
  - destruct (doc !! k) as [v|] eqn:Hk.
    2:{ right. exists [], k, keys, doc. repeat split; [constructor|by left]. }
    destruct (is_map v) eqn:Hv.
    2:{ right. exists [], k, keys, doc. repeat split; [constructor|].
        right. eauto. }
    destruct v as [| | | | |sub]; try done.
    destruct (IH sub) as [[m Hm]|(pre & key & post & m & -> & Hm & Hstop)].
    + left. exists m. by eapply resolves_down.
    + right. exists (k :: pre), key, post, m. repeat split; [|done].
      by eapply resolves_down.
Qed.

(** C9. On a parsed document, [GetNestedSection] walks the key path
    through nested maps: it returns the sub-map when every segment is
    present and holds a map; it returns no map and no error when a
    segment is absent; and it returns an error naming the path so far
    when a segment is present and holds something else than a map.  One
    of the three always applies. *)
Theorem GetNestedSection_walk {W} (c : Client W) (keys : list string)
    (w w' : W) (cfg : ConfigPayload) (doc : gmap string value) :
  GetConfig c w = (Ok cfg, w') →
  parseRawJSON (Raw cfg) = Ok (Some doc) →
  (∀ m, resolves doc keys m →
     GetNestedSection c keys w = ((Some m, Hash cfg, None), w'))
  ∧ (∀ pre key post m,
       keys = pre ++ key :: post → resolves doc pre m → m !! key = None →
       GetNestedSection c keys w = ((None, Hash cfg, None), w'))
  ∧ (∀ pre key post m v,
       keys = pre ++ key :: post → resolves doc pre m →
       m !! key = Some v → is_map v = false →
       GetNestedSection c keys w =
         ((None, Hash cfg,
           Some (fmt_Errorf "config path %v at index %d is not an object"
                   [AStrings (pre ++ [key]);
                    AInt (Z.of_nat (length pre))])), w'))
  ∧ ((∃ m, resolves doc keys m)
     ∨ (∃ pre key post m, keys = pre ++ key :: post ∧ resolves doc pre m
          ∧ (m !! key = None ∨ ∃ v, m !! key = Some v ∧ is_map v = false))).
Proof.
  intros Hget Hparse. unfold GetNestedSection. rewrite Hget, Hparse.
  repeat split.
  - intros m Hm. by rewrite (walkSections_found keys 0 keys doc m Hm).
  - intros pre key post m -> Hm Hkey.
    by rewrite (walkSections_absent _ 0 pre key post doc m Hm Hkey).
  - intros pre key post m v -> Hm Hkey Hv.
    rewrite (walkSections_not_map _ 0 pre key post doc m v Hm Hkey Hv).
    replace (take (S (0 + length pre)) (pre ++ key :: post))
      with (pre ++ [key]); [done|].
    rewrite take_app_ge by lia.
    by replace (S (0 + length pre) - length pre)%nat with 1%nat by lia.
  - apply resolves_or_stops.
Qed.

(** The message of the error of a present segment that is not a map. *)
Lemma GetNestedSection_type_error_message (pre : list string) key :
  fmt_Errorf "config path %v at index %d is not an object"
    [AStrings (pre ++ [key]); AInt (Z.of_nat (length pre))] =
  errorString
    ("config path " +:+
       (("[" +:+ String.concat " " (pre ++ [key]) +:+ "]") +:+
          " at index " +:+
            (format_int (Z.of_nat (length pre)) +:+ " is not an object"))).
Proof. reflexivity. Qed.

(** A document that is nil (the input [null]) has no section at all. *)
Lemma GetNestedSection_nil_document {W} (c : Client W) key keys w w' cfg :
  GetConfig c w = (Ok cfg, w') → parseRawJSON (Raw cfg) = Ok None →
  GetNestedSection c (key :: keys) w = ((None, Hash cfg, None), w').
Proof.
  intros Hget Hparse. unfold GetNestedSection. by rewrite Hget, Hparse.
Qed.

(** X13. [GetSection] is the walk of a path of one key, up to the
    wording of the error: it returns the map and the hash that
    [GetNestedSection] returns for the path of that key, and fails
    exactly when [GetNestedSection] does. *)
Lemma GetSection_one_key {W} (c : Client W) key w :
  (GetSection c key w).1.1 = (GetNestedSection c [key] w).1.1
  ∧ (GetSection c key w).2 = (GetNestedSection c [key] w).2
  ∧ (is_Some (GetSection c key w).1.2
     ↔ is_Some (GetNestedSection c [key] w).1.2).
Proof.
  unfold GetSection, GetNestedSection.
  destruct (GetConfig c w) as [[cfg|e] w']; simpl; [|done].
  destruct (parseRawJSON (Raw cfg)) as [parsed|e]; simpl; [|done].
  destruct (map_index parsed key) as [[| | | | |m]|]; simpl;
    repeat split; intros; by eauto.
Qed.

End HelperProperties.


(** ** Properties of the handshake *)

Lemma append_empty_r (s : string) : s +:+ "" = s.
Proof.
  induction s as [|c s IH]; [reflexivity|].
  change (String c (s +:+ "") = String c s). by f_equal.
Qed.

Section HandshakeProperties.
Context `{GoLib}.
Variable ed25519_Sign : string → string → string.
#[local] Opaque sha256_Sum256.

(** The identity of a session: the digest of the public key, in
    lower-case hexadecimal. *)
Lemma deviceID_hash (pub : string) :
  deviceID pub = hex_EncodeToString (sha256_Sum256 pub).
Proof. unfold deviceID, fmt_Sprintf. cbn. apply append_empty_r. Qed.

Lemma signedPayload_v1 token pub signedAt :
  signedPayload token "" pub signedAt =
    String.concat "|"
      ["v1"; hex_EncodeToString (sha256_Sum256 pub); "cli"; "cli";
       "operator"; "operator.read,operator.write,operator.admin";
       format_int signedAt; token].
Proof.
  unfold signedPayload. rewrite deviceID_hash.
  destruct (decide ("" = "")) as [_|]; [|done].
  unfold fmt_Sprintf. cbn. by rewrite !append_empty_r.
Qed.

Lemma signedPayload_v2 token challengeNonce pub signedAt :
  challengeNonce ≠ "" →
  signedPayload token challengeNonce pub signedAt =
    String.concat "|"
      ["v2"; hex_EncodeToString (sha256_Sum256 pub); "cli"; "cli";
       "operator"; "operator.read,operator.write,operator.admin";
       format_int signedAt; token; challengeNonce].
Proof.
  intros Hn. unfold signedPayload. rewrite deviceID_hash.
  destruct (decide (challengeNonce = "")) as [|_]; [done|].
  unfold fmt_Sprintf. cbn. by rewrite !append_empty_r.
Qed.

Lemma handshake_device_signature token challengeNonce pub priv signedAt :
  handshake_device ed25519_Sign token challengeNonce pub priv signedAt
    !! "signature" =
  Some (VStr (base64_RawURLEncoding
                (ed25519_Sign priv
                   (signedPayload token challengeNonce pub signedAt)))).
Proof.
  unfold handshake_device. destruct (decide (challengeNonce = "")).
  - by simplify_map_eq.
  - by simplify_map_eq.
Qed.

(** C4. The string a handshake signs with the fresh private key is the
    pipe-delimited encoding of, in this order: the version tag ([v2]
    when a challenge nonce was received, else [v1]), the session
    identity (the digest of the public key), the client descriptor
    ([cli|cli]), the role, the scopes joined by commas, the signing
    time, the token of the client (possibly empty) and, in the [v2]
    form only, the nonce as the last field. *)
Theorem handshake_signs_canonical_payload
    (token pub priv : string) (signedAt : Z) :
  (∀ frame p nonce,
     frame_Payload frame = VMap p → p !! "nonce" = Some (VStr nonce) →
     nonce ≠ "" →
     signedPayload token (challenge_nonce (Some frame)) pub signedAt =
       String.concat "|"
         ["v2"; hex_EncodeToString (sha256_Sum256 pub); "cli"; "cli";
          "operator"; "operator.read,operator.write,operator.admin";
          format_int signedAt; token; nonce])
  ∧ signedPayload token (challenge_nonce None) pub signedAt =
      String.concat "|"
        ["v1"; hex_EncodeToString (sha256_Sum256 pub); "cli"; "cli";
         "operator"; "operator.read,operator.write,operator.admin";
         format_int signedAt; token]
  ∧ (∀ challenge,
       handshake_device ed25519_Sign token (challenge_nonce challenge)
         pub priv signedAt !! "signature" =
       Some (VStr (base64_RawURLEncoding
                     (ed25519_Sign priv
                        (signedPayload token (challenge_nonce challenge)
                           pub signedAt)))))
  ∧ (∀ challenge,
       signedPayload token (challenge_nonce challenge) pub signedAt =
         String.concat "|"
           ([handshake_version (challenge_nonce challenge);
             hex_EncodeToString (sha256_Sum256 pub); "cli"; "cli";
             "operator"; "operator.read,operator.write,operator.admin";
             format_int signedAt; token]
            ++ if decide (challenge_nonce challenge = "") then []
               else [challenge_nonce challenge])).
Proof.
  repeat split.
  - intros frame p nonce Hp Hn Hne.
    assert (challenge_nonce (Some frame) = nonce) as ->.
    { unfold challenge_nonce. by rewrite Hp, Hn. }
    by apply signedPayload_v2.
  - apply signedPayload_v1.
  - intros challenge. apply handshake_device_signature.
  - intros challenge. unfold handshake_version.
    destruct (decide (challenge_nonce challenge = "")) as [->|Hne].
    + apply signedPayload_v1.
    + by apply signedPayload_v2.
Qed.

End HandshakeProperties.

(** ** Properties of connection establishment *)

Section ConnectProperties.
Context `{GoLib}.
Context {WSClient : Type}.
Variable dialAndHandshake : Z → result WSClient.
Variable wait : Z → select_result.

(** The first iteration dials at once. *)
Lemma retry_loop_first n backoff lastErr log :
  retry_loop WSClient dialAndHandshake wait (S n) 0 backoff lastErr log =
    match dialAndHandshake 0 with
    | Ok c => ((Some c, None), log ++ [EvDial 0])
    | Fail err =>
        retry_loop WSClient dialAndHandshake wait n 1 backoff (Some err)
          (log ++ [EvDial 0])
    end.
Proof. reflexivity. Qed.

(** A later iteration waits for the timer or the context, then dials. *)
Lemma retry_loop_retry n attempt next backoff lastErr log :
  0 < attempt → next = attempt + 1 →
  retry_loop WSClient dialAndHandshake wait (S n) attempt backoff
    (Some lastErr) log =
    match wait attempt with
    | TimerFired =>
        match dialAndHandshake attempt with
        | Ok c =>
            ((Some c, None), log ++ [EvSleep backoff; EvDial attempt])
        | Fail err =>
            retry_loop WSClient dialAndHandshake wait n next
              (if (10 * time_Second <? int64 (backoff * 2))%Z
               then 10 * time_Second else int64 (backoff * 2))
              (Some err) (log ++ [EvSleep backoff; EvDial attempt])
        end
    | CtxDone err =>
        ((None, Some (cancelled_error attempt err lastErr)), log)
    end.
Proof.
  intros Hpos ->. cbn [retry_loop].
  destruct (Z.ltb_spec 0 attempt) as [_|]; [|lia].
  destruct (wait attempt); [|done].
  rewrite <-!app_assoc. done.
Qed.

Lemma take_prefix_of {A} (k : nat) (l log : list A) :
  log = take k l → log `prefix_of` l.
Proof. intros ->. exists (drop k l). by rewrite take_drop. Qed.

(** The attempts so far, from the hypotheses on each. *)
#[local] Ltac failed_so_far :=
  let j := fresh "j" in
  intros j ?;
  do 6 (destruct j as [|j];
        [first [exfalso; lia
               |split; [eexists; eassumption
                       |intros; first [assumption|lia]]]|]);
  exfalso; lia.

(** How a run of [NewWSClient] ends: connected at attempt [i] after [i]
    failures, cancelled before attempt [i], or out of attempts. *)
Lemma NewWSClient_outcome :
  let '(res, log) := NewWSClient WSClient dialAndHandshake wait in
  (∃ (i : nat) c,
     (i ≤ 5)%nat ∧ attempts_failed dialAndHandshake wait i
     ∧ ((1 ≤ i)%nat → wait (Z.of_nat i) = TimerFired)
     ∧ dialAndHandshake (Z.of_nat i) = Ok c
     ∧ res = (Some c, None) ∧ log = take (2 * i + 1) backoff_schedule)
  ∨ (∃ (i : nat) ctxErr lastErr,
       (1 ≤ i ≤ 5)%nat ∧ attempts_failed dialAndHandshake wait i
       ∧ wait (Z.of_nat i) = CtxDone ctxErr
       ∧ dialAndHandshake (Z.of_nat i - 1) = Fail lastErr
       ∧ res = (None, Some (cancelled_error (Z.of_nat i) ctxErr lastErr))
       ∧ log = take (2 * i - 1) backoff_schedule)
  ∨ (∃ err,
       attempts_failed dialAndHandshake wait 6
       ∧ dialAndHandshake 5 = Fail err
       ∧ res = (None, Some err) ∧ log = backoff_schedule).
Proof.
  unfold NewWSClient. change (Z.to_nat (maxRetries + 1)) with 6%nat.
  rewrite retry_loop_first.
  destruct (dialAndHandshake 0) as [c|e0] eqn:D0.
  { left. exists 0%nat, c. split; [lia|]. split; [failed_so_far|].
    split; [lia|]. by split. }
  rewrite (retry_loop_retry _ 1 2) by done.
  destruct (wait 1) as [|ce] eqn:W1.
  2:{ right. left. exists 1%nat, ce, e0. split; [lia|].
      split; [failed_so_far|]. by split. }
  destruct (dialAndHandshake 1) as [c|e1] eqn:D1.
  { left. exists 1%nat, c. split; [lia|]. split; [failed_so_far|].
    split; [done|]. by split. }
  rewrite (retry_loop_retry _ 2 3) by done.
  destruct (wait 2) as [|ce] eqn:W2.
  2:{ right. left. exists 2%nat, ce, e1. split; [lia|].
      split; [failed_so_far|]. by split. }
  destruct (dialAndHandshake 2) as [c|e2] eqn:D2.
  { left. exists 2%nat, c. split; [lia|]. split; [failed_so_far|].
    split; [done|]. by split. }
  rewrite (retry_loop_retry _ 3 4) by done.
  destruct (wait 3) as [|ce] eqn:W3.
  2:{ right. left. exists 3%nat, ce, e2. split; [lia|].
      split; [failed_so_far|]. by split. }
  destruct (dialAndHandshake 3) as [c|e3] eqn:D3.
  { left. exists 3%nat, c. split; [lia|]. split; [failed_so_far|].
    split; [done|]. by split. }
  rewrite (retry_loop_retry _ 4 5) by done.
  destruct (wait 4) as [|ce] eqn:W4.
  2:{ right. left. exists 4%nat, ce, e3. split; [lia|].
      split; [failed_so_far|]. by split. }
  destruct (dialAndHandshake 4) as [c|e4] eqn:D4.
  { left. exists 4%nat, c. split; [lia|]. split; [failed_so_far|].
    split; [done|]. by split. }
  rewrite (retry_loop_retry _ 5 6) by done.
  destruct (wait 5) as [|ce] eqn:W5.
  2:{ right. left. exists 5%nat, ce, e4. split; [lia|].
      split; [failed_so_far|]. by split. }
  destruct (dialAndHandshake 5) as [c|e5] eqn:D5.
  { left. exists 5%nat, c. split; [lia|]. split; [failed_so_far|].
    split; [done|]. by split. }
  cbn [retry_loop]. right. right. exists e5.
  split; [failed_so_far|]. by split.
Qed.


(** What the schedule holds up to an attempt. *)
Lemma backoff_schedule_take (i : nat) :
  (i ≤ 5)%nat →
  (length (filter (λ ev, is_dial ev = true)
             (take (2 * i + 1) backoff_schedule)) ≤ 6)%nat
  ∧ last (take (2 * i + 1) backoff_schedule) = Some (EvDial (Z.of_nat i))
  ∧ ((1 ≤ i)%nat →
     (length (filter (λ ev, is_dial ev = true)
                (take (2 * i - 1) backoff_schedule)) ≤ 6)%nat
     ∧ last (take (2 * i - 1) backoff_schedule)
       = Some (EvDial (Z.of_nat i - 1))).
Proof.
  intros Hi.
  do 6 (destruct i as [|i];
        [split; [vm_compute; lia|]; split; [reflexivity|];
         intros; first [exfalso; lia|split; [vm_compute; lia|reflexivity]]|]).
  exfalso; lia.
Qed.

(** Two ways a run can end exclude each other. *)
Lemma connected_once (i i0 : nat) c c0 :
  attempts_failed dialAndHandshake wait i →
  dialAndHandshake (Z.of_nat i) = Ok c →
  attempts_failed dialAndHandshake wait i0 →
  dialAndHandshake (Z.of_nat i0) = Ok c0 →
  i = i0.
Proof.
  intros Hi Hc Hi0 Hc0.
  destruct (Nat.lt_trichotomy i i0) as [Hlt|[->|Hlt]]; [|done|].
  - destruct (Hi0 i Hlt) as [[err Herr] _]. congruence.
  - destruct (Hi i0 Hlt) as [[err Herr] _]. congruence.
Qed.

Lemma connected_not_cancelled (i i0 : nat) c ctxErr :
  attempts_failed dialAndHandshake wait i →
  ((1 ≤ i)%nat → wait (Z.of_nat i) = TimerFired) →
  dialAndHandshake (Z.of_nat i) = Ok c →
  (1 ≤ i0)%nat →
  attempts_failed dialAndHandshake wait i0 →
  wait (Z.of_nat i0) = CtxDone ctxErr →
  False.
Proof.
  intros Hi Hw Hc Hpos Hi0 Hw0.
  destruct (Nat.lt_trichotomy i i0) as [Hlt|[->|Hlt]].
  - destruct (Hi0 i Hlt) as [[err Herr] _]. congruence.
  - specialize (Hw Hpos). congruence.
  - destruct (Hi i0 Hlt) as [_ Htimer]. specialize (Htimer Hpos). congruence.
Qed.

Lemma cancelled_once (i i0 : nat) ctxErr ctxErr0 :
  (1 ≤ i)%nat →
  attempts_failed dialAndHandshake wait i →
  wait (Z.of_nat i) = CtxDone ctxErr →
  (1 ≤ i0)%nat →
  attempts_failed dialAndHandshake wait i0 →
  wait (Z.of_nat i0) = CtxDone ctxErr0 →
  i = i0.
Proof.
  intros Hpos Hi Hw Hpos0 Hi0 Hw0.
  destruct (Nat.lt_trichotomy i i0) as [Hlt|[->|Hlt]]; [|done|].
  - destruct (Hi0 i Hlt) as [_ Htimer]. specialize (Htimer Hpos). congruence.
  - destruct (Hi i0 Hlt) as [_ Htimer]. specialize (Htimer Hpos0). congruence.
Qed.

(** C5. Establishing a connection dials at most 6 times (one first
    attempt and 5 retries); the delay before retry 1 to 5 is 1s, 2s, 4s,
    8s, then 10s, the cap.  A dial and handshake that succeed at attempt
    [i], after [i] failures, end the loop there: the client is returned
    and the dial of attempt [i] is the last event, no further attempt is
    made.  When the caller's context is done during the delay before
    attempt [i], the loop ends there with the error of the cancellation:
    attempt [i] is not dialed.  When all 6 dials fail, the error of the
    last one is returned.  A run always ends in one of these ways. *)
Theorem NewWSClient_backoff :
  let '(res, log) := NewWSClient WSClient dialAndHandshake wait in
  log `prefix_of` backoff_schedule
  ∧ (length (filter (λ ev, is_dial ev = true) log) ≤ 6)%nat
  ∧ match res with
    | (Some c, None) =>
        ∃ i : nat, (i ≤ 5)%nat ∧ dialAndHandshake (Z.of_nat i) = Ok c
          ∧ log = take (2 * i + 1) backoff_schedule
    | (None, Some err) =>
        (log = backoff_schedule ∧ dialAndHandshake 5 = Fail err)
        ∨ (∃ (i : nat) ctxErr lastErr,
             (1 ≤ i ≤ 5)%nat ∧ wait (Z.of_nat i) = CtxDone ctxErr
             ∧ dialAndHandshake (Z.of_nat i - 1) = Fail lastErr
             ∧ log = take (2 * i - 1) backoff_schedule
             ∧ err = cancelled_error (Z.of_nat i) ctxErr lastErr)
    | _ => False
    end
  ∧ (∀ (i : nat) c,
       (i ≤ 5)%nat →
       attempts_failed dialAndHandshake wait i →
       ((1 ≤ i)%nat → wait (Z.of_nat i) = TimerFired) →
       dialAndHandshake (Z.of_nat i) = Ok c →
       res = (Some c, None)
       ∧ log = take (2 * i + 1) backoff_schedule
       ∧ last log = Some (EvDial (Z.of_nat i)))
  ∧ (∀ (i : nat) ctxErr,
       (1 ≤ i ≤ 5)%nat →
       attempts_failed dialAndHandshake wait i →
       wait (Z.of_nat i) = CtxDone ctxErr →
       ∃ lastErr,
         dialAndHandshake (Z.of_nat i - 1) = Fail lastErr
         ∧ res = (None, Some (cancelled_error (Z.of_nat i) ctxErr lastErr))
         ∧ log = take (2 * i - 1) backoff_schedule
         ∧ last log = Some (EvDial (Z.of_nat i - 1)))
  ∧ (attempts_failed dialAndHandshake wait 6 →
     ∃ err,
       dialAndHandshake 5 = Fail err
       ∧ res = (None, Some err) ∧ log = backoff_schedule).
Proof.
  pose proof NewWSClient_outcome as Hout.
  destruct (NewWSClient WSClient dialAndHandshake wait) as [res log].
  destruct Hout as [(i & c & Hi & Hfailed & Hwait & Hdial & -> & ->)
                   |[(i & ce & le & Hi & Hfailed & Hwait & Hdial & -> & ->)
                    |(err & Hfailed & Hdial & -> & ->)]].
  - destruct (backoff_schedule_take i Hi) as (Hcount & Hlast & _).
    split; [by apply (take_prefix_of (2 * i + 1))|]. split; [done|].
    split; [by exists i|]. split; [|split].
    + intros i0 c0 Hi0 Hfailed0 Hwait0 Hdial0.
      assert (i = i0) as <- by (by eapply connected_once).
      split; [congruence|done].
    + intros i0 ce0 Hi0 Hfailed0 Hwait0.
      destruct (connected_not_cancelled i i0 c ce0); (done || lia).
    + intros Hall. destruct (Hall i) as [[err Herr] _]; [lia|congruence].
  - destruct (backoff_schedule_take i) as (_ & _ & Hcancel); [lia|].
    destruct Hcancel as [Hcount Hlast]; [lia|].
    split; [by apply (take_prefix_of (2 * i - 1))|]. split; [done|].
    split; [right; by exists i, ce, le|]. split; [|split].
    + intros i0 c0 Hi0 Hfailed0 Hwait0 Hdial0.
      destruct (connected_not_cancelled i0 i c0 ce); (done || lia).
    + intros i0 ce0 Hi0 Hfailed0 Hwait0.
      assert (i = i0) as <- by (eapply cancelled_once; (done || lia)).
      exists le. split; [done|]. split; [congruence|done].
    + intros Hall. destruct (Hall i) as [_ Htimer]; [lia|].
      rewrite Htimer in Hwait by lia. done.
  - split; [done|]. split; [vm_compute; lia|].
    split; [by left|]. split; [|split].
    + intros i0 c0 Hi0 Hfailed0 Hwait0 Hdial0.
      destruct (Hfailed i0) as [[e He] _]; [lia|congruence].
    + intros i0 ce0 Hi0 Hfailed0 Hwait0.
      destruct (Hfailed i0) as [_ Htimer]; [lia|].
      rewrite Htimer in Hwait0 by lia. done.
    + intros _. by exists err.
Qed.

End ConnectProperties.

(** ** Properties of requests in flight *)

Section CallProperties.
Context `{GoLib}.

Lemma format_int_inj (a b : Z) : format_int a = format_int b → a = b.
Proof.
  unfold format_int. intros Heq.
  assert (Some (Z.to_int a) = Some (Z.to_int b)) as [= Hi].
  { by rewrite <-!NilEmpty.isi, Heq. }
  by rewrite <-(DecimalZ.of_to a), <-(DecimalZ.of_to b), Hi.
Qed.

Lemma request_id_format (n : Z) :
  fmt_Sprintf "tf-%d" [AInt n] = "tf-" +:+ format_int n.
Proof. unfold fmt_Sprintf. cbn. by rewrite append_empty_r. Qed.

Lemma request_id_inj (a b : Z) :
  "tf-" +:+ format_int a = "tf-" +:+ format_int b → a = b.
Proof. intros [= Heq]. by apply format_int_inj. Qed.

Lemma int64_small (x : Z) : (- 2 ^ 63 ≤ x < 2 ^ 63)%Z → int64 x = x.
Proof. intros Hx. unfold int64. rewrite Z.mod_small; lia. Qed.

Lemma dialed_inv : conn_inv 0 dialed.
Proof.
  split; simpl; try done.
Qed.

Lemma conn_inv_mono k k' s : (k ≤ k')%Z → conn_inv k s → conn_inv k' s.
Proof. intros Hk [? ? ? ? ?]. split; try done. lia. Qed.

(** A step that changes one goroutine only, and neither its id, nor
    whether it is registered, nor [pending], nor the counter. *)
Lemma conn_inv_update k s s' t c c' :
  conn_inv k s →
  callers s !! t = Some c →
  nextID s' = nextID s → pending s' = pending s →
  callers s' = <[t := c']> (callers s) →
  (∀ t' frame, pump s' = PumpSending t' frame → pump s = PumpSending t' frame) →
  call_id c' = call_id c →
  registered (call_pc_of c') = registered (call_pc_of c) →
  Forall (frame_for (call_id c)) (call_ch c') →
  match call_pc_of c' with
  | Returning r | Returned r => result_for (call_id c) r
  | _ => True
  end →
  conn_inv k s'.
Proof.
  intros [Hnext Hcallers Huniq Hpend Hpump] Hc Hn Hp Hcs Hpu Hid Hreg Hch Hres.
  split.
  - by rewrite Hn.
  - intros t' c0. rewrite Hcs, lookup_insert. case_decide as Ht.
    + intros [= <-]. subst t'. destruct (Hcallers t c Hc) as (Hn0 & Hp0 & _).
      unfold caller_inv. rewrite Hn, Hp, Hid, Hreg. done.
    + intros Hc0. destruct (Hcallers t' c0 Hc0) as (? & ? & ? & ?).
      unfold caller_inv. by rewrite Hn, Hp.
  - intros t1 t2 c1 c2. rewrite Hcs, !lookup_insert.
    repeat case_decide; simplify_eq; try done.
    + intros [= <-] Hc2 Heq. rewrite Hid in Heq. eauto.
    + intros Hc1 [= <-] Heq. rewrite Hid in Heq. eauto.
    + eauto.
  - intros id t'. rewrite Hp. intros Hl.
    destruct (Hpend id t' Hl) as (c0 & Hc0 & Hid0).
    rewrite Hcs, lookup_insert. case_decide; simplify_eq; eauto.
  - intros t' frame Hs'. destruct (Hpump t' frame (Hpu _ _ Hs')) as (c0 & Hc0 & Hf).
    rewrite Hcs, lookup_insert. case_decide; simplify_eq; [|eauto].
    exists c'. by rewrite Hid.
Qed.

(** A step of [readPump] that touches no goroutine. *)
Lemma conn_inv_pump k s s' :
  conn_inv k s →
  nextID s' = nextID s → pending s' = pending s → callers s' = callers s →
  (∀ t frame, pump s' = PumpSending t frame →
     ∃ c, callers s !! t = Some c ∧ frame_for (call_id c) frame) →
  conn_inv k s'.
Proof.
  intros [Hnext Hcallers Huniq Hpend Hpump] Hn Hp Hcs Hpu. split.
  - by rewrite Hn.
  - intros t c. rewrite Hcs. intros Hc.
    unfold caller_inv. rewrite Hn, Hp. by apply Hcallers.
  - rewrite Hcs. eauto.
  - rewrite Hp, Hcs. eauto.
  - rewrite Hcs. eauto.
Qed.

Lemma at_pc_Some t pc s k s' :
  at_pc t pc s k = Some s' →
  ∃ c, callers s !! t = Some c ∧ call_pc_of c = pc ∧ k c = Some s'.
Proof.
  unfold at_pc. destruct (callers s !! t) as [c|]; [|done].
  destruct (call_pc_of c) eqn:Hpc, pc; try done; eauto.
Qed.

Lemma step_ACall_inv k t method params s s' :
  conn_inv k s → (k + 1 < 2 ^ 63)%Z →
  step (ACall t method params) s = Some s' → conn_inv (k + 1) s'.
Proof.
  intros [Hnext Hcallers Huniq Hpend Hpump] Hk. simpl.
  destruct (callers s !! t) as [|] eqn:Ht; [done|]. intros [= <-].
  rewrite request_id_format, int64_small by lia.
  assert (Hfresh : ∀ t' c', callers s !! t' = Some c' →
            call_id c' ≠ "tf-" +:+ format_int (nextID s + 1)).
  { intros t' c' Hc' Heq.
    destruct (Hcallers t' c' Hc') as ((n & Hn & Hid) & _).
    rewrite Hid in Heq. apply request_id_inj in Heq. lia. }
  split; simpl.
  - lia.
  - intros t' c'. rewrite lookup_insert. case_decide as Htt.
    + intros [= <-]. subst t'. unfold caller_inv. simpl.
      split; [exists (nextID s + 1); split; [lia|done]|].
      split; [|done].
      destruct (pending s !! _) as [t0|] eqn:Hp; [|done].
      destruct (Hpend _ _ Hp) as (c0 & Hc0 & Hid0).
      by destruct (Hfresh _ _ Hc0).
    + intros Hc'. destruct (Hcallers t' c' Hc') as ((n & Hn & Hid) & ? & ? & ?).
      unfold caller_inv. simpl. split; [exists n; split; [lia|done]|done].
  - intros t1 t2 c1 c2. rewrite !lookup_insert.
    repeat case_decide; simplify_eq; try done.
    + intros [= <-] Hc2 Heq. simpl in Heq. by destruct (Hfresh _ _ Hc2).
    + intros Hc1 [= <-] Heq. simpl in Heq. by destruct (Hfresh _ _ Hc1).
    + eauto.
  - intros id t' Hl. destruct (Hpend id t' Hl) as (c0 & Hc0 & Hid0).
    rewrite lookup_insert. case_decide; simplify_eq. eauto.
  - intros t' frame Hs'. destruct (Hpump t' frame Hs') as (c0 & Hc0 & Hf).
    rewrite lookup_insert. case_decide; simplify_eq. eauto.
Qed.

Lemma step_ARegister_inv k t s s' :
  conn_inv k s → step (ARegister t) s = Some s' → conn_inv k s'.
Proof.
  intros [Hnext Hcallers Huniq Hpend Hpump] Hstep. simpl in Hstep.
  apply at_pc_Some in Hstep as (c & Hc & Hpc & [= <-]).
  destruct (Hcallers t c Hc) as (Hn & Hp & Hch & _). rewrite Hpc in Hp.
  split; simpl.
  - done.
  - intros t' c'. rewrite lookup_insert. case_decide as Htt.
    + intros [= <-]. subst t'. unfold caller_inv. simpl.
      by rewrite lookup_insert_eq.
    + intros Hc'. destruct (Hcallers t' c' Hc') as (? & Hp' & ? & ?).
      unfold caller_inv. simpl. rewrite lookup_insert_ne; [done|].
      intros Heq. apply Htt. symmetry. by eapply Huniq.
  - intros t1 t2 c1 c2. rewrite !lookup_insert.
    repeat case_decide; simplify_eq; try done.
    + intros [= <-] Hc2 Heq. simpl in Heq. eauto.
    + intros Hc1 [= <-] Heq. simpl in Heq. eauto.
    + eauto.
  - intros id t'. rewrite lookup_insert. case_decide as Hid.
    + intros [= <-]. exists (set_pc Sending c). by rewrite lookup_insert_eq.
    + intros Hl. destruct (Hpend id t' Hl) as (c0 & Hc0 & Hid0).
      rewrite lookup_insert. case_decide; simplify_eq. eauto.
  - intros t' frame Hs'. destruct (Hpump t' frame Hs') as (c0 & Hc0 & Hf).
    rewrite lookup_insert. case_decide; simplify_eq; [|eauto].
    by eexists.
Qed.

Lemma step_AUnregister_inv k t s s' :
  conn_inv k s → step (AUnregister t) s = Some s' → conn_inv k s'.
Proof.
  intros [Hnext Hcallers Huniq Hpend Hpump] Hstep. simpl in Hstep.
  destruct (callers s !! t) as [c|] eqn:Hc; [|done].
  destruct (call_pc_of c) as [| | |r|] eqn:Hpc; try done.
  injection Hstep as <-.
  destruct (Hcallers t c Hc) as (Hn & Hp & Hch & Hres). rewrite Hpc in Hp, Hres.
  split; simpl.
  - done.
  - intros t' c'. rewrite lookup_insert. case_decide as Htt.
    + intros [= <-]. subst t'. unfold caller_inv. simpl.
      by rewrite lookup_delete_eq.
    + intros Hc'. destruct (Hcallers t' c' Hc') as (? & Hp' & ? & ?).
      unfold caller_inv. simpl. rewrite lookup_delete_ne; [done|].
      intros Heq. apply Htt. symmetry. by eapply Huniq.
  - intros t1 t2 c1 c2. rewrite !lookup_insert.
    repeat case_decide; simplify_eq; try done.
    + intros [= <-] Hc2 Heq. simpl in Heq. eauto.
    + intros Hc1 [= <-] Heq. simpl in Heq. eauto.
    + eauto.
  - intros id t'. rewrite lookup_delete. case_decide as Hid; [done|].
    intros Hl. destruct (Hpend id t' Hl) as (c0 & Hc0 & Hid0).
    rewrite lookup_insert. case_decide; simplify_eq. eauto.
  - intros t' frame Hs'. destruct (Hpump t' frame Hs') as (c0 & Hc0 & Hf).
    rewrite lookup_insert. case_decide; simplify_eq; [|eauto].
    by eexists.
Qed.

Lemma caller_frames k s t c :
  conn_inv k s → callers s !! t = Some c →
  Forall (frame_for (call_id c)) (call_ch c).
Proof. intros Hinv Hc. by destruct (inv_callers k s Hinv t c Hc) as (_ & _ & ? & _). Qed.

(** Every step keeps the invariant, while the counter cannot wrap. *)
Lemma step_inv k a s s' :
  conn_inv k s → (k + 1 < 2 ^ 63)%Z → step a s = Some s' →
  conn_inv (k + 1) s'.
Proof.
  intros Hinv Hk Hstep. destruct a as
    [t method params|t|t err|t err|t|t|t err|t|t| | |frame| ].
  - by eapply step_ACall_inv.
  - eapply conn_inv_mono; [|by eapply step_ARegister_inv]. lia.
  - simpl in Hstep. apply at_pc_Some in Hstep as (c & Hc & Hpc & [= <-]).
    eapply conn_inv_mono;
      [|eapply (conn_inv_update k s _ t c _ Hinv Hc);
        [reflexivity|reflexivity|reflexivity|..]; try done].
    + lia.
    + simpl. by rewrite Hpc.
    + exact (caller_frames k s t c Hinv Hc).
  - simpl in Hstep. apply at_pc_Some in Hstep as (c & Hc & Hpc & [= <-]).
    eapply conn_inv_mono;
      [|eapply (conn_inv_update k s _ t c _ Hinv Hc);
        [reflexivity|reflexivity|reflexivity|..]; try done].
    + lia.
    + simpl. by rewrite Hpc.
    + exact (caller_frames k s t c Hinv Hc).
  - simpl in Hstep. apply at_pc_Some in Hstep as (c & Hc & Hpc & [= <-]).
    eapply conn_inv_mono;
      [|eapply (conn_inv_update k s _ t c _ Hinv Hc);
        [reflexivity|reflexivity|reflexivity|..]; try done].
    + lia.
    + simpl. by rewrite Hpc.
    + exact (caller_frames k s t c Hinv Hc).
  - simpl in Hstep. apply at_pc_Some in Hstep as (c & Hc & Hpc & Hk').
    pose proof (caller_frames k s t c Hinv Hc) as Hch.
    destruct (call_ch c) as [|resp rest] eqn:Hchan; [done|].
    injection Hk' as <-. apply Forall_cons in Hch as [Hresp Hrest].
    eapply conn_inv_mono;
      [|eapply (conn_inv_update k s _ t c _ Hinv Hc);
        [reflexivity|reflexivity|reflexivity|..]; try done].
    + lia.
    + simpl. by rewrite Hpc.
  - simpl in Hstep. apply at_pc_Some in Hstep as (c & Hc & Hpc & [= <-]).
    eapply conn_inv_mono;
      [|eapply (conn_inv_update k s _ t c _ Hinv Hc);
        [reflexivity|reflexivity|reflexivity|..]; try done].
    + lia.
    + simpl. by rewrite Hpc.
    + exact (caller_frames k s t c Hinv Hc).
  - simpl in Hstep. apply at_pc_Some in Hstep as (c & Hc & Hpc & Hk').
    destruct (done s); [|done]. injection Hk' as <-.
    eapply conn_inv_mono;
      [|eapply (conn_inv_update k s _ t c _ Hinv Hc);
        [reflexivity|reflexivity|reflexivity|..]; try done].
    + lia.
    + simpl. by rewrite Hpc.
    + exact (caller_frames k s t c Hinv Hc).
  - eapply conn_inv_mono; [|by eapply step_AUnregister_inv]. lia.
  - simpl in Hstep. destruct (pump s); try done. injection Hstep as <-.
    eapply conn_inv_mono; [|eapply (conn_inv_pump k s); try done]. lia.
  - simpl in Hstep. destruct (pump s); try done. injection Hstep as <-.
    eapply conn_inv_mono; [|done]. lia.
  - simpl in Hstep. destruct (pump s) eqn:Hpump; try done.
    eapply (conn_inv_mono k); [lia|].
    case_decide as Hres.
    + destruct (pending s !! frame_ID frame) as [t|] eqn:Hp;
        injection Hstep as <-; [|done].
      eapply (conn_inv_pump k s); try done. simpl.
      intros t' frame' [= <- <-].
      destruct (inv_pending k s Hinv _ _ Hp) as (c & Hc & Hid).
      exists c. split; [done|]. by split; [|apply Hres].
    + case_decide.
      * destruct (challenge s); injection Hstep as <-; [|done].
        by eapply (conn_inv_pump k s).
      * by injection Hstep as <-.
  - simpl in Hstep. destruct (pump s) as [|t frame|] eqn:Hpump; try done.
    destruct (inv_pump k s Hinv t frame Hpump) as (c & Hc & Hf).
    rewrite Hc in Hstep.
    destruct (call_ch c) eqn:Hchan; [|done]. injection Hstep as <-.
    eapply conn_inv_mono;
      [|eapply (conn_inv_update k s _ t c _ Hinv Hc);
        [reflexivity|reflexivity|reflexivity|..]; try done].
    + lia.
    + simpl. by apply Forall_singleton.
    + simpl. by destruct (inv_callers k s Hinv t c Hc) as (_ & _ & _ & ?).
Qed.




End CallProperties.

(** * The package's tests, replayed *)

Section Replay.
#[local] Existing Instance golib_fragment.

(** [crypto/sha256] on the vectors of FIPS 180-4 and on the empty
    document. *)
Example sha256_vectors :
  take 2 sha256_K = [0x428a2f98; 0x71374491]
  ∧ last sha256_K = Some 0xc67178f2
  ∧ take 2 sha256_H0 = [0x6a09e667; 0xbb67ae85]
  ∧ hex_EncodeToString (sha256_Sum256 "abc") =
    "ba7816bf8f01cfea414140de5dae2223b00361a396177a9cb410ff61f20015ad"
  ∧ hex_EncodeToString (sha256_Sum256 "") =
    "e3b0c44298fc1c149afbf4c8996fb92427ae41e4649b934ca495991b7852b855"
  ∧ hashBytes "{}" =
    "44136fa355b3678a1146ad16f7e8649e94fb4fc21fe77e8310c060f61caaff8a".
Proof. by vm_compute. Qed.

Example base64url_vectors :
  base64_RawURLEncoding "ab" = "YWI"
  ∧ base64_RawURLEncoding (String "251" (String "255" (String "000" "hello")))
    = "-_8AaGVsbG8".
Proof. by vm_compute. Qed.

(** [TestMergePatch]: as the test does, the documents are compared
    through their encoding. *)
Example TestMergePatch :
  let same got want :=
    encode_document got "" "" = encode_document want "" "" in
  same (mergePatch (Some {[ "a" := VNum 1 ]}) {[ "b" := VNum 2 ]})
       {[ "a" := VNum 1; "b" := VNum 2 ]}
  ∧ same (mergePatch (Some {[ "a" := VNum 1 ]}) {[ "a" := VNum 2 ]})
         {[ "a" := VNum 2 ]}
  ∧ same (mergePatch (Some {[ "a" := VNum 1; "b" := VNum 2 ]})
            {[ "b" := VNull ]})
         {[ "a" := VNum 1 ]}
  ∧ same (mergePatch (Some deep_target) deep_patch)
         {[ "a" := VNum 1;
            "nested" :=
              VMap {[ "x" := VNum 1; "y" := VNum 3; "z" := VNum 4 ]} ]}
  ∧ same (mergePatch None {[ "a" := VNum 1 ]}) {[ "a" := VNum 1 ]}
  ∧ same (mergePatch (Some {[ "a" := VStr "string" ]})
            {[ "a" := VMap {[ "nested" := VBool true ]} ]})
         {[ "a" := VMap {[ "nested" := VBool true ]} ]}.
Proof. vm_compute. by repeat split. Qed.

(** A null nested in a patch is copied where the target has no map to
    merge it into, and deletes on the next application: the patch of
    C7 has to be free of nulls at every depth. *)
Example mergePatch_nested_null :
  encode_document (mergePatch None {[ "a" := VMap {[ "b" := VNull ]} ]})
    "" "" = json_encoded (json_text "{'a':{'b':null}}")
  ∧ encode_document
      (mergePatch (Some (mergePatch None {[ "a" := VMap {[ "b" := VNull ]} ]}))
         {[ "a" := VMap {[ "b" := VNull ]} ]}) "" ""
    = json_encoded (json_text "{'a':{}}").
Proof. vm_compute. by repeat split. Qed.

(** [TestFileClient_PatchConfig_IgnoresStaleHash] *)
Example TestFileClient_PatchConfig_IgnoresStaleHash :
  File_PatchConfig test_client {[ "test" := VBool true ]}
    (hashBytes gateway_18789) (world_of (inl gateway_9999))
  = (None,
     {| file := inl gateway_9999_test; mkdir_fault := None;
        write_fault := None;
        calls := [CallMkdirAll "/home/user/.openclaw";
                  CallWriteFile (path test_client) gateway_9999_test] |}).
Proof. by vm_compute. Qed.

(** The end-to-end scenario: patch the missing document, read, delete
    the key, read. *)
Example patch_then_delete :
  let w0 := world_of (inr ("open", ENOENT)) in
  let '(err1, w1) :=
    File_PatchConfig test_client {[ "a" := VMap {[ "b" := VNum 1 ]} ]}
      "any" w0 in
  let '(err2, w2) :=
    File_PatchConfig test_client {[ "a" := VNull ]} "any" w1 in
  err1 = None ∧ err2 = None
  ∧ file w1 = inl (String.concat newline
                     (json_text <$> ["{"; "  'a': {"; "    'b': 1"; "  }"; "}"]))
  ∧ file w2 = inl "{}".
Proof. vm_compute. by repeat split. Qed.

(** Three concurrent requests answered last first: each caller returns
    the response of its own request, and no slot is left. *)
Example out_of_order_responses :
  ∃ s,
    run out_of_order_run dialed = Some s
    ∧ (call_pc_of <$> callers s !! 0%nat)
      = Some (Returned (Response (response_to "tf-1" (VStr "first"))))
    ∧ (call_pc_of <$> callers s !! 1%nat)
      = Some (Returned (Response (response_to "tf-2" (VStr "second"))))
    ∧ (call_pc_of <$> callers s !! 2%nat)
      = Some (Returned (Response (response_to "tf-3" (VStr "third"))))
    ∧ pending s = ∅.
Proof. eexists. by vm_compute. Qed.

End Replay.

(** * The theorems at the inputs of the tests *)

Lemma mergePatch_idempotent_witness :
  no_null_keys deep_patch = true
  ∧ mergePatch (Some (mergePatch (Some deep_target) deep_patch)) deep_patch
    = mergePatch (Some deep_target) deep_patch.
Proof.
  split; [vm_compute; reflexivity|].
  apply mergePatch_idempotent. vm_compute; reflexivity.
Defined.

Lemma File_GetConfig_missing_witness :
  file (world_of (inr ("open", ENOENT))) = inr ("open", ENOENT)
  ∧ ∃ cfg,
      File_GetConfig (H := golib_fragment) test_client
        (world_of (inr ("open", ENOENT)))
      = (Ok cfg, world_of (inr ("open", ENOENT)))
      ∧ Raw cfg = "{}"
      ∧ String.length (Raw cfg) = 2%nat
      ∧ Hash cfg = hashBytes "{}"
      ∧ Hash cfg =
          "44136fa355b3678a1146ad16f7e8649e94fb4fc21fe77e8310c060f61caaff8a"
      ∧ ∀ w', file w' = inl "{}" →
          File_GetConfig (H := golib_fragment) test_client w' = (Ok cfg, w').
Proof.
  split; [reflexivity|].
  apply (File_GetConfig_missing (H := golib_fragment) test_client
           (world_of (inr ("open", ENOENT))) "open").
  reflexivity.
Defined.

Lemma File_PatchConfig_ignores_baseHash_witness :
  json_Unmarshal (GoLib := golib_fragment) gateway_9999
    = Ok (Some {[ "gateway" := VMap {[ "port" := VNum 9999 ]} ]})
  ∧ File_PatchConfig (H := golib_fragment) test_client
      {[ "test" := VBool true ]} (hashBytes gateway_18789)
      (world_of (inl gateway_9999))
    = (None,
       {| file := inl gateway_9999_test; mkdir_fault := None;
          write_fault := None;
          calls :=
            calls (world_of (inl gateway_9999))
            ++ [CallMkdirAll
                  (filepath_Dir (GoLib := golib_fragment) (path test_client));
                CallWriteFile (path test_client) gateway_9999_test] |}).
Proof.
  assert (Hparse :
    json_Unmarshal (GoLib := golib_fragment) gateway_9999
    = Ok (Some {[ "gateway" := VMap {[ "port" := VNum 9999 ]} ]})).
  { vm_compute; reflexivity. }
  split; [exact Hparse|].
  refine (proj1 (File_PatchConfig_ignores_baseHash (H := golib_fragment)
            test_client {[ "test" := VBool true ]} (hashBytes gateway_18789)
            (world_of (inl gateway_9999)) gateway_9999 _ gateway_9999_test
            _ Hparse _ _ _)).
  - reflexivity.
  - vm_compute; reflexivity.
  - reflexivity.
  - reflexivity.
Defined.

Lemma GetNestedSection_walk_witness :
  GetConfig (FileClient_Client (H := golib_fragment) test_client)
    (world_of (inl whatsapp_config))
  = (Ok whatsapp_payload, world_of (inl whatsapp_config))
  ∧ parseRawJSON (H := golib_fragment) (Raw whatsapp_payload)
    = Ok (Some whatsapp_document)
  ∧ resolves whatsapp_document ["channels"; "whatsapp"]
      {[ "dmPolicy" := VStr "pairing" ]}
  ∧ GetNestedSection (H := golib_fragment)
      (FileClient_Client (H := golib_fragment) test_client)
      ["channels"; "whatsapp"] (world_of (inl whatsapp_config))
    = ((Some {[ "dmPolicy" := VStr "pairing" ]}, Hash whatsapp_payload,
        None),
       world_of (inl whatsapp_config)).
Proof.
  assert (Hget :
    GetConfig (FileClient_Client (H := golib_fragment) test_client)
      (world_of (inl whatsapp_config))
    = (Ok whatsapp_payload, world_of (inl whatsapp_config))).
  { reflexivity. }
  assert (Hparse :
    parseRawJSON (H := golib_fragment) (Raw whatsapp_payload)
    = Ok (Some whatsapp_document)).
  { vm_compute; reflexivity. }
  assert (Hres :
    resolves whatsapp_document ["channels"; "whatsapp"]
      {[ "dmPolicy" := VStr "pairing" ]}).
  { eapply resolves_down; [vm_compute; reflexivity|].
    eapply resolves_down; [vm_compute; reflexivity|].
    apply resolves_here. }
  exact (conj Hget (conj Hparse (conj Hres
           (proj1 (GetNestedSection_walk (H := golib_fragment)
                     (FileClient_Client (H := golib_fragment) test_client)
                     ["channels"; "whatsapp"]
                     (world_of (inl whatsapp_config))
                     (world_of (inl whatsapp_config))
                     whatsapp_payload whatsapp_document Hget Hparse)
                  _ Hres)))).
Defined.


Lemma mergePatch_algorithm_witness :
  deep_patch !! "nested" = Some (VMap {[ "y" := VNum 3; "z" := VNum 4 ]})
  ∧ deep_target !! "nested" = Some (VMap {[ "x" := VNum 1; "y" := VNum 2 ]})
  ∧ mergePatch (Some deep_target) deep_patch !! "nested"
    = Some (VMap (mergePatch (Some {[ "x" := VNum 1; "y" := VNum 2 ]})
                    {[ "y" := VNum 3; "z" := VNum 4 ]}))
  ∧ mergePatch (Some deep_target) deep_patch !! "a" = deep_target !! "a".
Proof.
  assert (Hp : deep_patch !! "nested"
               = Some (VMap {[ "y" := VNum 3; "z" := VNum 4 ]})).
  { vm_compute; reflexivity. }
  assert (Ht : default ∅ (Some deep_target) !! "nested"
               = Some (VMap {[ "x" := VNum 1; "y" := VNum 2 ]})).
  { vm_compute; reflexivity. }
  assert (Ha : deep_patch !! "a" = None).
  { vm_compute; reflexivity. }
  destruct (mergePatch_algorithm (Some deep_target) deep_patch)
    as (_ & Hmaps & _ & Hrest & _).
  exact (conj Hp (conj Ht (conj (Hmaps _ _ _ Hp Ht) (Hrest _ Ha)))).
Defined.


Lemma File_PatchConfig_failure_keeps_file_witness :
  getConfigLocked (H := golib_fragment) test_client world_not_json
  = Ok {| Raw := "gateway: 18789"; Hash := hashBytes "gateway: 18789";
          Parsed := None |}
  ∧ File_PatchConfig (H := golib_fragment) test_client
      {[ "test" := VBool true ]} "any" world_not_json
    = (Some (fmt_Errorf (H := golib_fragment) "parsing existing config: %w"
               [AError (fmt_Errorf (H := golib_fragment) "json unmarshal: %w"
                          [AError (jsonError
                                     "invalid character in JSON input")])]),
       world_not_json).
Proof.
  assert (Hget :
    getConfigLocked (H := golib_fragment) test_client world_not_json
    = Ok {| Raw := "gateway: 18789"; Hash := hashBytes "gateway: 18789";
            Parsed := None |}).
  { reflexivity. }
  assert (Hparse :
    parseRawJSON (H := golib_fragment) "gateway: 18789"
    = Fail (fmt_Errorf (H := golib_fragment) "json unmarshal: %w"
              [AError (jsonError "invalid character in JSON input")])).
  { vm_compute; reflexivity. }
  destruct (File_PatchConfig_failure_keeps_file (H := golib_fragment)
              test_client {[ "test" := VBool true ]} "any" world_not_json)
    as (Hkeeps & _).
  exact (conj Hget (Hkeeps _ _ Hget Hparse)).
Defined.

Lemma handshake_signs_canonical_payload_witness :
  frame_Payload challenge_frame = VMap {[ "nonce" := VStr "n-1" ]}
  ∧ signedPayload (H := golib_fragment) "secret"
      (challenge_nonce (Some challenge_frame)) "public-key" 1700000000123
    = String.concat "|"
        ["v2"; hex_EncodeToString (sha256_Sum256 "public-key"); "cli";
         "cli"; "operator"; "operator.read,operator.write,operator.admin";
         format_int 1700000000123; "secret"; "n-1"].
Proof.
  split; [reflexivity|].
  destruct (handshake_signs_canonical_payload (H := golib_fragment)
              String.append "secret" "public-key" "private-key"
              1700000000123)
    as (Hv2 & _).
  apply (Hv2 challenge_frame {[ "nonce" := VStr "n-1" ]} "n-1");
    [reflexivity|vm_compute; reflexivity|discriminate].
Defined.

(** * Further properties *)

(** ** Further properties of the merge-patch engine *)

(** X1. Go ranges over the patch in an order it does not fix: whatever
    two orders the loop of [mergePatch] visits the entries of the patch
    in, it ends with the same document, the one [mergePatch] stands
    for. *)
Theorem mergePatch_range_order
    (target : option (gmap string value)) (patch : gmap string value)
    (l l' : list (string * value)) :
  l ≡ₚ map_to_list patch → l' ≡ₚ l →
  foldl (λ tgt kv, patchStep mergeInto kv.1 kv.2 tgt) (default ∅ target) l' =
    foldl (λ tgt kv, patchStep mergeInto kv.1 kv.2 tgt) (default ∅ target) l
  ∧ foldl (λ tgt kv, patchStep mergeInto kv.1 kv.2 tgt) (default ∅ target) l =
      mergePatch target patch.
Proof.
  intros Hl Hl'. rewrite !(mergePatch_any_order target patch); [done|done|].
  by rewrite Hl'.
Qed.

(** A patch of one null entry deletes the key. *)
Lemma mergePatch_delete_key (D : gmap string value) key :
  mergePatch (Some D) {[ key := VNull ]} = delete key D.
Proof.
  apply map_eq; intros k. rewrite mergePatch_lookup. simpl.
  destruct (decide (key = k)) as [->|Hne].
  - by rewrite lookup_singleton_eq, lookup_delete_eq.
  - by rewrite lookup_singleton_ne, lookup_delete_ne.
Qed.

(** Onto a target without keys the loop keeps the entries of the patch
    that are not null. *)
Lemma mergePatch_no_target (T : option (gmap string value))
    (P : gmap string value) :
  default ∅ T = ∅ →
  mergePatch T P = filter (λ kv, is_null kv.2 = false) P.
Proof.
  intros HT. apply map_eq; intros k.
  rewrite mergePatch_lookup, HT, lookup_empty.
  destruct (P !! k) as [v|] eqn:Hk.
  - destruct (is_null v) eqn:Hv.
    + destruct v; try done. simpl. symmetry.
      apply map_lookup_filter_None. right. intros v' Hk'. simpl.
      rewrite Hk in Hk'. by injection Hk' as <-.
    + transitivity (Some v); [by destruct v|]. symmetry.
      by apply map_lookup_filter_Some.
  - symmetry. apply map_lookup_filter_None. by left.
Qed.

(** X2. Merged onto a nil or an empty target, a patch gives itself
    without its null entries; a map of the patch is stored as it is,
    whatever nulls it holds inside. *)
Theorem mergePatch_onto_empty (P : gmap string value) :
  mergePatch None P = filter (λ kv, is_null kv.2 = false) P
  ∧ mergePatch (Some ∅) P = filter (λ kv, is_null kv.2 = false) P
  ∧ ∀ k sub, P !! k = Some (VMap sub) → mergePatch None P !! k = Some (VMap sub).
Proof.
  split; [by apply mergePatch_no_target|].
  split; [by apply mergePatch_no_target|].
  intros k sub Hk. by rewrite mergePatch_lookup, Hk.
Qed.

(** X3. Two patches that share no top-level key can be applied in
    either order, with the same result; the keys neither mentions keep
    the value of the target. *)
Theorem mergePatch_disjoint_commute
    (T : option (gmap string value)) (P Q : gmap string value) :
  P ##ₘ Q →
  mergePatch (Some (mergePatch T P)) Q = mergePatch (Some (mergePatch T Q)) P
  ∧ (∀ k, P !! k = None → Q !! k = None →
       mergePatch (Some (mergePatch T P)) Q !! k = default ∅ T !! k).
Proof.
  intros Hdisj. split.
  - apply map_eq; intros k. rewrite !(mergePatch_lookup (Some _)). simpl.
    rewrite !mergePatch_lookup.
    destruct (P !! k) as [p|] eqn:HP, (Q !! k) as [q|] eqn:HQ; try done.
    by destruct (map_disjoint_spec P Q) as [Hd _]; destruct (Hd Hdisj k p q).
  - intros k HP HQ. rewrite (mergePatch_lookup (Some _)), HQ. simpl.
    by rewrite mergePatch_lookup, HP.
Qed.

(** ** Further properties of the file client *)

Section MoreFileProperties.
Context `{GoLib}.
#[local] Opaque sha256_Sum256.
#[local] Arguments hashBytes : simpl never.

(** X4. On a file system that takes the calls, [ApplyConfig] succeeds
    whatever [raw] and [baseHash] are: it makes the directory and
    writes [raw] unchanged.  When the file could be read before, or did
    not exist, the next [GetConfig] returns [raw] and the digest of
    [raw]; a file that was there without the permission to read it
    takes the write, and [GetConfig] fails afterwards as it did
    before. *)
Theorem File_ApplyConfig_then_GetConfig
    (f : FileClient) (raw baseHash : string) (w : world) :
  mkdir_fault w = None → write_fault w = None →
  ∃ w',
    File_ApplyConfig f raw baseHash w = (None, w')
    ∧ calls w' = calls w ++ [CallMkdirAll (filepath_Dir (path f));
                             CallWriteFile (path f) raw]
    ∧ ((∃ data, file w = inl data) ∨ (∃ op, file w = inr (op, ENOENT)) →
       file w' = inl raw
       ∧ File_GetConfig f w' =
           (Ok {| Raw := raw; Hash := hashBytes raw; Parsed := None |}, w'))
    ∧ (∀ op, file w = inr (op, EACCES) →
       file w' = inr (op, EACCES)
       ∧ (File_GetConfig f w').1 = (File_GetConfig f w).1
       ∧ ∃ err, (File_GetConfig f w').1 = Fail err).
Proof.
  intros Hmk Hwr. eexists. split.
  { unfold File_ApplyConfig, ensureDir, os_MkdirAll, os_WriteFile. simpl.
    rewrite Hmk. simpl. rewrite Hwr. reflexivity. }
  simpl. split; [by rewrite <-app_assoc|]. split.
  - intros Hfile.
    assert (Hraw : written_file raw (file w) = inl raw).
    { by destruct Hfile as [[data ->]|[op ->]]. }
    split; [done|]. by apply File_GetConfig_existing.
  - intros op Hf. rewrite Hf. simpl. split; [done|].
    unfold File_GetConfig, getConfigLocked, os_ReadFile. simpl.
    rewrite Hf. simpl. split; [done|]. by eexists.
Qed.

(** X5. When the directory of the file cannot be made, [ApplyConfig]
    returns the error of [os.MkdirAll] as it is and never calls
    [os.WriteFile]; [PatchConfig] fails too, leaves the file as it was
    and attempts no write. *)
Theorem ensureDir_failure_no_write
    (f : FileClient) (w : world) (d : string) (e : errno) :
  mkdir_fault w = Some (d, e) →
  (∀ raw baseHash,
     File_ApplyConfig f raw baseHash w =
       (Some (PathError "mkdir" d e),
        log_call (CallMkdirAll (filepath_Dir (path f))) w))
  ∧ (∀ P baseHash err w',
       File_PatchConfig f P baseHash w = (err, w') →
       is_Some err ∧ file w' = file w
       ∧ ∀ name data, CallWriteFile name data ∈ calls w' →
                      CallWriteFile name data ∈ calls w).
Proof.
  intros Hmk. split.
  - intros raw baseHash.
    unfold File_ApplyConfig, ensureDir, os_MkdirAll. simpl. by rewrite Hmk.
  - intros P baseHash err w'. unfold File_PatchConfig.
    destruct (getConfigLocked f w) as [cfg|e0]; [|by intros [= <- <-]].
    destruct (parseRawJSON (Raw cfg)) as [existing|e0]; [|by intros [= <- <-]].
    destruct (json_MarshalIndent _ _ _) as [out|e0]; [|by intros [= <- <-]].
    unfold ensureDir, os_MkdirAll. simpl. rewrite Hmk.
    intros [= <- <-]. simpl. split; [done|]. split; [done|].
    intros name data [Hin|Hin]%elem_of_app; [done|].
    by apply list_elem_of_singleton in Hin.
Qed.

(** X6. Only a file that does not exist reads as the empty document:
    on every other error of [os.ReadFile], [GetConfig] fails with
    "reading <path>: <error>" wrapping that error, and [PatchConfig]
    returns the same error and leaves the file system untouched. *)
Theorem File_GetConfig_unreadable
    (f : FileClient) (w : world) (op : string) (e : errno) :
  file w = inr (op, e) → e ≠ ENOENT →
  let err := PathError op (path f) e in
  File_GetConfig f w =
    (Fail (wrapError ("reading " +:+ path f +:+ ": " +:+ Error err) err), w)
  ∧ ∀ P baseHash,
      File_PatchConfig f P baseHash w =
        (Some (wrapError ("reading " +:+ path f +:+ ": " +:+ Error err) err), w).
Proof.
  intros Hf He err.
  assert (Hget : getConfigLocked f w =
    Fail (wrapError ("reading " +:+ path f +:+ ": " +:+ Error err) err)).
  { unfold getConfigLocked, os_ReadFile. rewrite Hf.
    replace (os_IsNotExist (Some (PathError op (path f) e))) with false
      by by destruct e.
    unfold fmt_Errorf. cbn. by rewrite !append_empty_r. }
  split.
  - unfold File_GetConfig. by rewrite Hget.
  - intros P baseHash. unfold File_PatchConfig. by rewrite Hget.
Qed.

(** X7. [PatchConfig] on a file that does not exist creates it: it
    merges the patch onto the empty document, so the file holds the
    encoding of the entries of the patch that are not null. *)
Theorem File_PatchConfig_creates_file
    (f : FileClient) (P : gmap string value) (h : string) (w : world)
    (op out : string) :
  file w = inr (op, ENOENT) →
  json_Unmarshal "{}" = Ok (Some ∅) →
  json_MarshalIndent (filter (λ kv, is_null kv.2 = false) P) "" "  " = Ok out →
  mkdir_fault w = None →
  write_fault w = None →
  File_PatchConfig f P h w =
    (None,
     {| file := inl out; mkdir_fault := None; write_fault := None;
        calls := calls w ++ [CallMkdirAll (filepath_Dir (path f));
                             CallWriteFile (path f) out] |}).
Proof.
  intros Hf Hparse Hout Hmk Hwr.
  unfold File_PatchConfig, getConfigLocked, os_ReadFile, parseRawJSON.
  rewrite Hf. simpl. rewrite Hparse.
  rewrite (mergePatch_no_target (Some ∅) P) by done. rewrite Hout.
  unfold ensureDir, os_MkdirAll, os_WriteFile. simpl.
  rewrite Hmk. simpl. rewrite Hwr, Hmk, Hf, <-app_assoc. reflexivity.
Qed.

End MoreFileProperties.

(** ** Further properties of the section helpers *)

(** *** Nested patches *)

Lemma nestedPatch_cons v key keys :
  nestedPatch v (key :: keys) = VMap {[ key := nestedPatch v keys ]}.
Proof. reflexivity. Qed.

Lemma nestedPatch_snoc v keys key :
  nestedPatch v (keys ++ [key]) = nestedPatch (VMap {[ key := v ]}) keys.
Proof. unfold nestedPatch. by rewrite foldr_app. Qed.

Lemma nestedPatch_is_map m keys : ∃ p, nestedPatch (VMap m) keys = VMap p.
Proof. destruct keys; simpl; eauto. Qed.

(** The nested patch leads to the value along its own keys. *)
Lemma nestedPatch_resolves m keys p :
  nestedPatch (VMap m) keys = VMap p → resolves p keys m.
Proof.
  revert p. induction keys as [|k keys IH]; intros p.
  - intros [= <-]. constructor.
  - rewrite nestedPatch_cons. intros [= <-].
    destruct (nestedPatch_is_map m keys) as [q Hq].
    eapply resolves_down; [|exact (IH q Hq)].
    by rewrite lookup_singleton_eq, Hq.
Qed.

Lemma resolves_cons_inv doc key keys m :
  resolves doc (key :: keys) m →
  ∃ sub, doc !! key = Some (VMap sub) ∧ resolves sub keys m.
Proof. inversion 1; subst; eauto. Qed.

Lemma resolves_functional doc keys m m' :
  resolves doc keys m → resolves doc keys m' → m = m'.
Proof.
  induction 1 as [m|m k s ks m1 Hk _ IH]; inversion 1; subst; [done|].
  apply IH. congruence.
Qed.

(** Merging a nested patch: where the path leads to a map of the
    document the value is merged into it; where it does not, the value
    is stored as it is. *)
Lemma mergeInto_nestedPatch m keys D :
  let merged := mergeInto D (nestedPatch (VMap m) keys) in
  (∀ tm, resolves D keys tm → resolves merged keys (mergePatch (Some tm) m))
  ∧ ((∀ tm, ¬ resolves D keys tm) → resolves merged keys m).
Proof.
  revert D. induction keys as [|k keys IH]; intros D merged.
  - split.
    + intros tm Htm. inversion Htm; subst. constructor.
    + intros Hno. destruct (Hno D). constructor.
  - destruct (nestedPatch_is_map m keys) as [q Hq].
    assert (Hk : merged !! k =
      patchEntry (VMap q) (D !! k)).
    { subst merged. rewrite nestedPatch_cons.
      change (mergeInto D (VMap ?p)) with (mergePatch (Some D) p).
      by rewrite mergePatch_lookup, lookup_singleton_eq, Hq. }
    split.
    + intros tm (sub & Hsub & Htm)%resolves_cons_inv.
      rewrite Hsub in Hk. simpl in Hk.
      eapply resolves_down; [exact Hk|].
      change (mergePatch (Some sub) q) with (mergeInto sub (VMap q)).
      rewrite <-Hq. by apply IH.
    + intros Hno.
      destruct (D !! k) as [[| | | | |sub]|] eqn:HDk; simpl in Hk;
        try (eapply resolves_down; [exact Hk|by apply nestedPatch_resolves]).
      eapply resolves_down; [exact Hk|].
      change (mergePatch (Some sub) q) with (mergeInto sub (VMap q)).
      rewrite <-Hq. apply IH. intros tm Htm. apply (Hno tm).
      by eapply resolves_down.
Qed.

Section MoreHelperProperties.
Context `{GoLib}.
#[local] Opaque sha256_Sum256.
#[local] Arguments hashBytes : simpl never.

(** A patch the file system takes. *)
Lemma File_PatchConfig_writes f P h w C D out :
  file w = inl C →
  json_Unmarshal C = Ok D →
  json_MarshalIndent (mergePatch D P) "" "  " = Ok out →
  mkdir_fault w = None →
  write_fault w = None →
  File_PatchConfig f P h w =
    (None,
     {| file := inl out; mkdir_fault := None; write_fault := None;
        calls := calls w ++ [CallMkdirAll (filepath_Dir (path f));
                             CallWriteFile (path f) out] |}).
Proof.
  intros Hf Hparse Hout Hmk Hwr.
  unfold File_PatchConfig, getConfigLocked, os_ReadFile, parseRawJSON.
  rewrite Hf. simpl. rewrite Hparse, Hout.
  unfold ensureDir, os_MkdirAll, os_WriteFile. simpl.
  rewrite Hmk. simpl. rewrite Hwr, Hmk, Hf, <-app_assoc. reflexivity.
Qed.

(** Reading a section of a file that parses. *)
Lemma File_GetNestedSection_parsed f keys w data doc :
  file w = inl data →
  json_Unmarshal data = Ok (Some doc) →
  GetNestedSection (FileClient_Client f) keys w =
    (let '(m, err) := walkSections keys 0 keys (Some doc) in
     (m, hashBytes data, err), w).
Proof.
  intros Hf Hparse. unfold GetNestedSection.
  change (GetConfig (FileClient_Client f) w) with (File_GetConfig f w).
  rewrite (File_GetConfig_existing f w data Hf). simpl.
  unfold parseRawJSON. rewrite Hparse.
  by destruct (walkSections keys 0 keys (Some doc)).
Qed.

(** X8. With the file client, after [PatchNestedSection] of a map at a
    path, [GetNestedSection] of the same path returns a map: the merge
    of the one the document had there with the value, or the value
    itself when the path did not lead to a map (for a merged document
    the codec encodes and decodes back). *)
Theorem PatchNestedSection_then_GetNestedSection
    (f : FileClient) (m : gmap string value) (h : string)
    (keys : list string) (w : world) (C : string)
    (D : gmap string value) (out : string) :
  let c := FileClient_Client f in
  let merged := mergeInto D (nestedPatch (VMap m) keys) in
  file w = inl C →
  json_Unmarshal C = Ok (Some D) →
  json_MarshalIndent merged "" "  " = Ok out →
  json_Unmarshal out = Ok (Some merged) →
  mkdir_fault w = None →
  write_fault w = None →
  ∃ w' m',
    PatchNestedSection c (VMap m) h keys w = Some (None, w')
    ∧ file w' = inl out
    ∧ GetNestedSection c keys w' = ((Some m', hashBytes out, None), w')
    ∧ (∀ tm, resolves D keys tm → m' = mergePatch (Some tm) m)
    ∧ ((∀ tm, ¬ resolves D keys tm) → m' = m).
Proof.
  intros c merged Hf Hparse Hout Hback Hmk Hwr.
  destruct (nestedPatch_is_map m keys) as [p Hp].
  assert (Hmerged : merged = mergePatch (Some D) p).
  { subst merged. by rewrite Hp. }
  destruct (mergeInto_nestedPatch m keys D) as [Hyes Hno]. fold merged in Hyes, Hno.
  assert (∃ m', resolves merged keys m'
    ∧ (∀ tm, resolves D keys tm → m' = mergePatch (Some tm) m)
    ∧ ((∀ tm, ¬ resolves D keys tm) → m' = m)) as (m' & Hm' & Hm'yes & Hm'no).
  { destruct (resolves_or_stops D keys) as [[tm Htm]|Hstop].
    - exists (mergePatch (Some tm) m). split; [by apply Hyes|]. split.
      + intros tm' Htm'. by rewrite (resolves_functional _ _ _ _ Htm Htm').
      + intros Hnone. by destruct (Hnone tm).
    - assert (Hnone : ∀ tm, ¬ resolves D keys tm).
      { intros tm Htm.
        destruct Hstop as (pre & key & post & mid & -> & Hmid & Hkey).
        clear -Htm Hmid Hkey. revert Htm.
        induction Hmid as [mid|mid k s ks m1 Hk _ IH]; simpl.
        - intros (sub & Hsub & _)%resolves_cons_inv.
          destruct Hkey as [Hkey|(v & Hkey & Hv)]; rewrite Hsub in Hkey;
            [done|]. by injection Hkey as <-.
        - intros (sub & Hsub & Hrest)%resolves_cons_inv.
          rewrite Hk in Hsub. injection Hsub as <-. by apply IH. }
      exists m. split; [by apply Hno|]. split; [|done].
      intros tm Htm. by destruct (Hnone tm). }
  eexists _, m'. split.
  { unfold PatchNestedSection. rewrite Hp. simpl. f_equal.
    apply (File_PatchConfig_writes f p h w C (Some D) out); try done.
    by rewrite <-Hmerged. }
  split; [done|]. split; [|done].
  rewrite (File_GetNestedSection_parsed f keys _ out merged); [|done|done].
  by rewrite (walkSections_found keys 0 keys merged m' Hm').
Qed.


(** What a nil value patched at [pre ++ [last]] leaves in the document. *)
Lemma mergeInto_nil_patch pre last D :
  let merged := mergeInto D (nestedPatch VNull (pre ++ [last])) in
  (∀ tm, resolves D pre tm → resolves merged pre (delete last tm))
  ∧ ((∀ tm, ¬ resolves D pre tm) → resolves merged pre {[ last := VNull ]}).
Proof.
  intros merged. subst merged. rewrite nestedPatch_snoc.
  destruct (mergeInto_nestedPatch {[ last := VNull ]} pre D) as [Hyes Hno].
  split; [|done]. intros tm Htm. rewrite <-mergePatch_delete_key. by apply Hyes.
Qed.

Lemma PatchNestedSection_nil_writes f h pre last w C D out :
  file w = inl C →
  json_Unmarshal C = Ok (Some D) →
  json_MarshalIndent (mergeInto D (nestedPatch VNull (pre ++ [last]))) "" "  "
    = Ok out →
  mkdir_fault w = None →
  write_fault w = None →
  PatchNestedSection (FileClient_Client f) VNull h (pre ++ [last]) w =
    Some (None,
          {| file := inl out; mkdir_fault := None; write_fault := None;
             calls := calls w ++ [CallMkdirAll (filepath_Dir (path f));
                                  CallWriteFile (path f) out] |}).
Proof.
  intros Hf Hparse Hout Hmk Hwr. unfold PatchNestedSection.
  rewrite nestedPatch_snoc in Hout |- *.
  destruct (nestedPatch_is_map {[ last := VNull ]} pre) as [p Hp].
  rewrite Hp in Hout |- *. simpl. f_equal.
  by apply (File_PatchConfig_writes f p h w C (Some D) out).
Qed.

(** X9. [PatchNestedSection] of nil at [pre ++ [last]], where [pre]
    leads to a map of the document, deletes [last] from that map and
    nothing else of it: afterwards [GetNestedSection] of the path
    reports the section as absent, without error. *)
Theorem PatchNestedSection_nil_removes
    (f : FileClient) (h : string) (pre : list string) (last : string)
    (w : world) (C : string) (D tm : gmap string value) (out : string) :
  let c := FileClient_Client f in
  let merged := mergeInto D (nestedPatch VNull (pre ++ [last])) in
  file w = inl C →
  json_Unmarshal C = Ok (Some D) →
  resolves D pre tm →
  json_MarshalIndent merged "" "  " = Ok out →
  json_Unmarshal out = Ok (Some merged) →
  mkdir_fault w = None →
  write_fault w = None →
  ∃ w',
    PatchNestedSection c VNull h (pre ++ [last]) w = Some (None, w')
    ∧ file w' = inl out
    ∧ resolves merged pre (delete last tm)
    ∧ GetNestedSection c (pre ++ [last]) w' = ((None, hashBytes out, None), w').
Proof.
  intros c merged Hf Hparse Htm Hout Hback Hmk Hwr.
  destruct (mergeInto_nil_patch pre last D) as [Hyes _].
  specialize (Hyes tm Htm). fold merged in Hyes.
  eexists. split; [by apply (PatchNestedSection_nil_writes f h pre last w C D out)|].
  split; [done|]. split; [done|].
  rewrite (File_GetNestedSection_parsed f _ _ out merged); [|done|done].
  rewrite (walkSections_absent _ 0 pre last [] merged _ Hyes); [done|].
  apply lookup_delete_eq.
Qed.


(** X11. With the file client, after [DeleteSection] of a key the
    file holds the document without that key and [GetSection] of the
    key returns no map and no error; [DeleteSection] is
    [PatchNestedSection] of nil at the path of that one key. *)
Theorem DeleteSection_then_GetSection
    (f : FileClient) (key h : string) (w : world) (C : string)
    (D : gmap string value) (out : string) :
  let c := FileClient_Client f in
  file w = inl C →
  json_Unmarshal C = Ok (Some D) →
  json_MarshalIndent (delete key D) "" "  " = Ok out →
  json_Unmarshal out = Ok (Some (delete key D)) →
  mkdir_fault w = None →
  write_fault w = None →
  ∃ w',
    DeleteSection c key h w = (None, w')
    ∧ file w' = inl out
    ∧ GetSection c key w' = ((None, hashBytes out, None), w')
    ∧ PatchNestedSection c VNull h [key] w = Some (DeleteSection c key h w).
Proof.
  intros c Hf Hparse Hout Hback Hmk Hwr. eexists. split.
  { unfold DeleteSection.
    apply (File_PatchConfig_writes f _ h w C (Some D) out); try done.
    by rewrite mergePatch_delete_key. }
  split; [done|]. split; [|done].
  unfold GetSection.
  change (GetConfig c ?w) with (File_GetConfig f w).
  erewrite File_GetConfig_existing by done. simpl.
  unfold parseRawJSON. rewrite Hback. simpl. by rewrite lookup_delete_eq.
Qed.

(** X12. A file whose content is the JSON [null] reads as a document
    without any section: [GetSection] and [GetNestedSection] return no
    map and no error for every key and path, and [PatchConfig] patches it
    as it patches the empty document. *)
Theorem File_null_document (f : FileClient) (w : world) (C : string) :
  let c := FileClient_Client f in
  file w = inl C →
  json_Unmarshal C = Ok None →
  (∀ key, GetSection c key w = ((None, hashBytes C, None), w))
  ∧ (∀ keys, GetNestedSection c keys w = ((None, hashBytes C, None), w))
  ∧ (∀ P h out,
       json_MarshalIndent (filter (λ kv, is_null kv.2 = false) P) "" "  "
         = Ok out →
       mkdir_fault w = None →
       write_fault w = None →
       File_PatchConfig f P h w =
         (None,
          {| file := inl out; mkdir_fault := None; write_fault := None;
             calls := calls w ++ [CallMkdirAll (filepath_Dir (path f));
                                  CallWriteFile (path f) out] |})).
Proof.
  intros c Hf Hparse. split; [|split].
  - intros key. unfold GetSection.
    change (GetConfig c w) with (File_GetConfig f w).
    rewrite (File_GetConfig_existing f w C Hf). simpl.
    unfold parseRawJSON. by rewrite Hparse.
  - intros keys. unfold GetNestedSection.
    change (GetConfig c w) with (File_GetConfig f w).
    rewrite (File_GetConfig_existing f w C Hf). simpl.
    unfold parseRawJSON. rewrite Hparse. by destruct keys.
  - intros P h out Hout Hmk Hwr.
    apply (File_PatchConfig_writes f P h w C None out); try done.
    by rewrite (mergePatch_no_target None P).
Qed.

End MoreHelperProperties.

(** ** Further properties of requests in flight *)

Section MoreCallProperties.
Context `{GoLib}.

(** [done] is closed exactly when [readPump] has returned. *)
Lemma step_done_pump a s s' :
  (done s = true ↔ pump s = PumpExited) → step a s = Some s' →
  (done s' = true ↔ pump s' = PumpExited).
Proof.
  intros Hinv Hstep.
  destruct a as [t method params|t|t err|t err|t|t|t err|t|t| | |frame| ];
    simpl in Hstep.
  - destruct (callers s !! t); [done|]. injection Hstep as <-; exact Hinv.
  - apply at_pc_Some in Hstep as (c & _ & _ & [= <-]); exact Hinv.
  - apply at_pc_Some in Hstep as (c & _ & _ & [= <-]); exact Hinv.
  - apply at_pc_Some in Hstep as (c & _ & _ & [= <-]); exact Hinv.
  - apply at_pc_Some in Hstep as (c & _ & _ & [= <-]); exact Hinv.
  - apply at_pc_Some in Hstep as (c & _ & _ & Hk).
    destruct (call_ch c); [done|]. injection Hk as <-; exact Hinv.
  - apply at_pc_Some in Hstep as (c & _ & _ & [= <-]); exact Hinv.
  - apply at_pc_Some in Hstep as (c & _ & _ & Hk).
    destruct (done s) eqn:Hd; [|done]. injection Hk as <-. simpl. by rewrite Hd.
  - destruct (callers s !! t) as [c|]; [|done].
    destruct (call_pc_of c); try done. injection Hstep as <-; exact Hinv.
  - destruct (pump s); try done. by injection Hstep as <-.
  - destruct (pump s) eqn:Hpump; try done. injection Hstep as <-.
    by rewrite Hpump.
  - destruct (pump s) eqn:Hpump; try done.
    assert (Hd : done s = false).
    { destruct (done s); [|done]. destruct Hinv as [Hinv _].
      by specialize (Hinv eq_refl). }
    repeat case_decide.
    + destruct (pending s !! frame_ID frame); injection Hstep as <-; simpl;
        rewrite ?Hd, ?Hpump; done.
    + destruct (challenge s); injection Hstep as <-; simpl;
        rewrite ?Hd, ?Hpump; done.
    + injection Hstep as <-. by rewrite Hd, Hpump.
  - destruct (pump s) as [|t frame|] eqn:Hpump; try done.
    destruct (callers s !! t) as [c|]; [|done].
    destruct (call_ch c); [|done]. injection Hstep as <-. simpl.
    assert (Hd : done s = false).
    { destruct (done s); [|done]. destruct Hinv as [Hinv _].
      by specialize (Hinv eq_refl). }
    by rewrite Hd.
Qed.

Lemma run_done_pump acts s s' :
  (done s = true ↔ pump s = PumpExited) → run acts s = Some s' →
  (done s' = true ↔ pump s' = PumpExited).
Proof.
  revert s. induction acts as [|a acts IH]; intros s Hinv; simpl.
  - by intros [= <-].
  - destruct (step a s) as [s1|] eqn:Hstep; [|done].
    apply IH. by eapply step_done_pump.
Qed.

(** X15. A goroutine waiting in [call] can take the case [<-c.done]
    exactly when [readPump] has returned; it then returns the error
    "connection closed", which [isConnectionClosed] recognises, also
    under the wrapping "reading config: %w". *)
Theorem connection_closed_when_pump_exited
    (acts : list action) (s : connection) (t : nat) (c : caller) :
  run acts dialed = Some s →
  callers s !! t = Some c → call_pc_of c = Waiting →
  (is_Some (step (AConnClosed t) s) ↔ pump s = PumpExited)
  ∧ (∀ s', step (AConnClosed t) s = Some s' →
       ∃ err,
         (call_pc_of <$> callers s' !! t) = Some (Returning (CallError err))
         ∧ Error err = "connection closed"
         ∧ isConnectionClosed (Some err) = true
         ∧ isConnectionClosed
             (Some (fmt_Errorf "reading config: %w" [AError err])) = true).
Proof.
  intros Hrun Hc Hpc.
  assert (Hinv : done s = true ↔ pump s = PumpExited).
  { eapply run_done_pump; [|exact Hrun]. done. }
  assert (Hstep : step (AConnClosed t) s =
    if done s then
      Some (set_caller t
              (set_pc (Returning (CallError
                 (fmt_Errorf "connection closed" []))) c) s)
    else None).
  { simpl. unfold at_pc. by rewrite Hc, Hpc. }
  rewrite Hstep. split.
  - rewrite <-Hinv. by destruct (done s); split; try done.
  - intros s'. destruct (done s); [|done]. intros [= <-].
    exists (errorString "connection closed").
    split; [simpl; by rewrite lookup_insert_eq|].
    split; [done|]. split; [by vm_compute|by vm_compute].
Qed.

(** Once [readPump] is stuck, no step frees it. *)
Lemma step_pump_stuck t frame a s s' :
  pump_stuck t frame s → step a s = Some s' → pump_stuck t frame s'.
Proof.
  intros (Hpump & c & r & Hc & Hpc & Hch) Hstep.
  assert (Hother : ∀ t' c', t' ≠ t →
    pump_stuck t frame (set_caller t' c' s)).
  { intros t' c' Hne. split; [done|]. exists c, r. simpl.
    by rewrite lookup_insert_ne. }
  assert (Hat : ∀ pc k, at_pc t pc s k = None).
  { intros pc k. unfold at_pc. rewrite Hc, Hpc. done. }
  assert (Hmove : ∀ t' pc k c', at_pc t' pc s k = Some s' →
    (∀ c0, k c0 = Some s' → s' = set_caller t' (c' c0) s ∨
       ∃ s0, pump_stuck t frame s0 ∧ s' = set_caller t' (c' c0) s0) →
    pump_stuck t frame s').
  { intros t' pc k c' Hk Hshape.
    destruct (decide (t' = t)) as [->|Hne]; [by rewrite Hat in Hk|].
    apply at_pc_Some in Hk as (c0 & Hc0 & _ & Hk).
    destruct (Hshape c0 Hk) as [->|(s0 & Hs0 & ->)]; [by apply Hother|].
    destruct Hs0 as (Hp0 & c1 & r1 & Hc1 & Hpc1 & Hch1).
    split; [done|]. exists c1, r1. simpl. by rewrite lookup_insert_ne. }
  destruct a as [t' method params|t'|t' err|t' err|t'|t'|t' err|t'|t'| | |fr| ];
    simpl in Hstep.
  - destruct (callers s !! t') eqn:Ht'; [done|]. injection Hstep as <-.
    split; [done|]. exists c, r. simpl.
    rewrite lookup_insert_ne; [done|]. intros ->. by rewrite Hc in Ht'.
  - eapply (Hmove t' _ _ (set_pc Sending)); [exact Hstep|].
    intros c0 [= <-]. right. eexists. split; [|reflexivity].
    split; [done|]. by exists c, r.
  - eapply (Hmove t' _ _ (set_pc _)); [exact Hstep|].
    intros c0 [= <-]. by left.
  - eapply (Hmove t' _ _ (set_pc _)); [exact Hstep|].
    intros c0 [= <-]. by left.
  - destruct (decide (t' = t)) as [->|Hne]; [by rewrite Hat in Hstep|].
    apply at_pc_Some in Hstep as (c0 & Hc0 & _ & [= <-]).
    split; [done|]. exists c, r. simpl. by rewrite lookup_insert_ne.
  - destruct (decide (t' = t)) as [->|Hne]; [by rewrite Hat in Hstep|].
    apply at_pc_Some in Hstep as (c0 & Hc0 & _ & Hk).
    destruct (call_ch c0); [done|]. injection Hk as <-. by apply Hother.
  - eapply (Hmove t' _ _ (set_pc _)); [exact Hstep|].
    intros c0 [= <-]. by left.
  - destruct (decide (t' = t)) as [->|Hne]; [by rewrite Hat in Hstep|].
    apply at_pc_Some in Hstep as (c0 & Hc0 & _ & Hk).
    destruct (done s); [|done]. injection Hk as <-. by apply Hother.
  - destruct (decide (t' = t)) as [->|Hne].
    { by rewrite Hc, Hpc in Hstep. }
    destruct (callers s !! t') as [c0|]; [|done].
    destruct (call_pc_of c0); try done. injection Hstep as <-.
    split; [done|]. exists c, r. simpl. by rewrite lookup_insert_ne.
  - by rewrite Hpump in Hstep.
  - by rewrite Hpump in Hstep.
  - by rewrite Hpump in Hstep.
  - rewrite Hpump, Hc in Hstep. by destruct (call_ch c).
Qed.

(** X16. Once [readPump] is about to send a frame to the channel of a
    goroutine that has returned and left a frame in that channel,
    nothing frees it: after every further run it is still blocked there,
    it reads no frame, never fails and never closes [done]. *)
Theorem readPump_blocked_forever
    (t : nat) (frame : wsFrame) (acts : list action) (s s' : connection) :
  pump_stuck t frame s → run acts s = Some s' →
  pump s' = PumpSending t frame
  ∧ done s' = done s
  ∧ (∀ frame', step (APumpFrame frame') s' = None)
  ∧ step APumpSend s' = None
  ∧ step APumpReadFails s' = None.
Proof.
  intros Hstuck Hrun.
  assert (Hboth : pump_stuck t frame s' ∧ done s' = done s).
  { revert s Hstuck Hrun. induction acts as [|a acts IH]; intros s Hstuck; simpl.
    - by intros [= <-].
    - destruct (step a s) as [s1|] eqn:Hstep; [|done]. intros Hrun.
      destruct (IH s1 (step_pump_stuck t frame a s s1 Hstuck Hstep) Hrun)
        as [Hs' Hd]. split; [done|]. rewrite Hd. clear -Hstep Hstuck.
      destruct Hstuck as (Hpump & _).
      destruct a as [t' method params|t'|t' err|t' err|t'|t'|t' err|t'|t'| | |fr| ];
        simpl in Hstep; rewrite ?Hpump in Hstep; try done.
      + destruct (callers s !! t'); [done|]. injection Hstep as <-; reflexivity.
      + apply at_pc_Some in Hstep as (c & _ & _ & [= <-]); reflexivity.
      + apply at_pc_Some in Hstep as (c & _ & _ & [= <-]); reflexivity.
      + apply at_pc_Some in Hstep as (c & _ & _ & [= <-]); reflexivity.
      + apply at_pc_Some in Hstep as (c & _ & _ & [= <-]); reflexivity.
      + apply at_pc_Some in Hstep as (c & _ & _ & Hk).
        destruct (call_ch c); [done|]. injection Hk as <-; reflexivity.
      + apply at_pc_Some in Hstep as (c & _ & _ & [= <-]); reflexivity.
      + apply at_pc_Some in Hstep as (c & _ & _ & Hk).
        destruct (done s) eqn:Hds; [|done]. injection Hk as <-. exact Hds.
      + destruct (callers s !! t') as [c|]; [|done].
        destruct (call_pc_of c); try done. injection Hstep as <-; reflexivity.
      + destruct (callers s !! t) as [c|]; [|done].
        destruct (call_ch c); [|done]. injection Hstep as <-; reflexivity. }
  destruct Hboth as [(Hpump & c & r & Hc & Hpc & Hch) Hd].
  split; [done|]. split; [done|]. simpl. rewrite Hpump, Hc.
  split; [done|]. split; [|done]. by destruct (call_ch c).
Qed.

End MoreCallProperties.


Section WireProperties.
Context `{GoLib}.

Lemma written_inv_update s s' t c c' :
  written_inv s →
  callers s !! t = Some c →
  callers s' = <[t := c']> (callers s) →
  written s' = written s →
  request_frame c' = request_frame c →
  (past_write (call_pc_of c) = true → past_write (call_pc_of c') = true) →
  (call_pc_of c' = Waiting → call_pc_of c = Waiting) →
  written_inv s'.
Proof.
  intros (Hnd & Hall & Hwait) Hc Hcs Hw Hreq Hpc Hpc'. unfold written_inv.
  rewrite Hw, Hcs. split; [done|]. split.
  - intros frame Hin. destruct (Hall frame Hin) as (t0 & c0 & Hc0 & Hf & Hp).
    destruct (decide (t0 = t)) as [->|Hne].
    + exists t, c'. rewrite lookup_insert_eq. rewrite Hc in Hc0.
      injection Hc0 as <-. split; [done|]. split; [by rewrite Hreq|auto].
    + exists t0, c0. by rewrite lookup_insert_ne.
  - intros t0 c0. rewrite lookup_insert. case_decide as Ht.
    + intros [= <-] Hw0. rewrite Hreq. apply (Hwait t c Hc). auto.
    + apply Hwait.
Qed.

Lemma written_inv_same s s' :
  written_inv s → callers s' = callers s → written s' = written s →
  written_inv s'.
Proof. unfold written_inv. by intros ? -> ->. Qed.

Lemma step_written_inv k a s s' :
  conn_inv k s → written_inv s → step a s = Some s' → written_inv s'.
Proof.
  intros Hinv Hw Hstep.
  destruct a as [t method params|t|t err|t err|t|t|t err|t|t| | |frame| ];
    simpl in Hstep.
  - destruct (callers s !! t) eqn:Ht; [done|]. injection Hstep as <-.
    destruct Hw as (Hnd & Hall & Hwait). split; [done|]. simpl. split.
    + intros frame Hin. destruct (Hall frame Hin) as (t0 & c0 & Hc0 & Hf & Hp).
      exists t0, c0. rewrite lookup_insert_ne; [done|].
      intros ->. by rewrite Ht in Hc0.
    + intros t0 c0. rewrite lookup_insert. case_decide; [by intros [= <-]|].
      apply Hwait.
  - apply at_pc_Some in Hstep as (c & Hc & Hpc & [= <-]).
    eapply (written_inv_update s _ t c); try done. by rewrite Hpc.
  - apply at_pc_Some in Hstep as (c & Hc & Hpc & [= <-]).
    eapply (written_inv_update s _ t c); try done.
  - apply at_pc_Some in Hstep as (c & Hc & Hpc & [= <-]).
    eapply (written_inv_update s _ t c); try done.
  - apply at_pc_Some in Hstep as (c & Hc & Hpc & [= <-]).
    destruct Hw as (Hnd & Hall & Hwait). split; [|split]; simpl.
    + rewrite fmap_app. apply NoDup_app. split; [done|].
      split; [|apply NoDup_singleton].
      intros id Hid Hnew. apply list_elem_of_singleton in Hnew. simpl in Hnew.
      apply list_elem_of_fmap in Hid as (frame & -> & Hin).
      destruct (Hall frame Hin) as (t0 & c0 & Hc0 & -> & Hp). simpl in Hnew.
      assert (t0 = t) as -> by (by eapply (inv_unique k s Hinv)).
      rewrite Hc in Hc0. injection Hc0 as <-. by rewrite Hpc in Hp.
    + intros frame [Hin|Hin]%elem_of_app.
      * destruct (Hall frame Hin) as (t0 & c0 & Hc0 & Hf & Hp).
        exists t0, c0. rewrite lookup_insert_ne; [done|].
        intros ->. rewrite Hc in Hc0. injection Hc0 as <-.
        by rewrite Hpc in Hp.
      * apply list_elem_of_singleton in Hin as ->.
        exists t, (set_pc Waiting c). by rewrite lookup_insert_eq.
    + intros t0 c0. rewrite lookup_insert. case_decide as Ht.
      * intros [= <-] _. apply elem_of_app. right.
        by apply list_elem_of_singleton.
      * intros Hc0 Hw0. apply elem_of_app. left. by eapply Hwait.
  - apply at_pc_Some in Hstep as (c & Hc & Hpc & Hk).
    destruct (call_ch c); [done|]. injection Hk as <-.
    eapply (written_inv_update s _ t c); try done.
  - apply at_pc_Some in Hstep as (c & Hc & Hpc & [= <-]).
    eapply (written_inv_update s _ t c); try done.
  - apply at_pc_Some in Hstep as (c & Hc & Hpc & Hk).
    destruct (done s); [|done]. injection Hk as <-.
    eapply (written_inv_update s _ t c); try done.
  - destruct (callers s !! t) as [c|] eqn:Hc; [|done].
    destruct (call_pc_of c) eqn:Hpc; try done. injection Hstep as <-.
    eapply (written_inv_update s _ t c); try done.
  - destruct (pump s); try done. injection Hstep as <-.
    by eapply written_inv_same.
  - destruct (pump s); try done. by injection Hstep as <-.
  - destruct (pump s); try done. repeat case_decide.
    + destruct (pending s !! frame_ID frame); injection Hstep as <-;
        by eapply written_inv_same.
    + destruct (challenge s); injection Hstep as <-;
        by eapply written_inv_same.
    + by injection Hstep as <-.
  - destruct (pump s) as [|t frame|]; try done.
    destruct (callers s !! t) as [c|] eqn:Hc; [|done].
    destruct (call_ch c); [|done]. injection Hstep as <-.
    eapply (written_inv_update s _ t c); try done.
Qed.

Lemma run_written_inv acts k s s' :
  conn_inv k s → written_inv s →
  (k + Z.of_nat (length acts) < 2 ^ 63)%Z →
  run acts s = Some s' → written_inv s'.
Proof.
  revert k s. induction acts as [|a acts IH]; intros k s Hinv Hw Hk; simpl.
  - by intros [= <-].
  - destruct (step a s) as [s1|] eqn:Hstep; [|done]. simpl in Hk.
    apply (IH (k + 1)%Z); [eapply step_inv; [done|lia|done]| |lia].
    by eapply step_written_inv.
Qed.

(** X14. Through every interleaving (while the 64-bit counter has not
    wrapped), the frames written to the connection are requests of type
    [req] of goroutines past their write, no two of them carry the same
    id, and the request of every goroutine that waits for a response
    has been written. *)
Theorem written_requests_distinct (acts : list action) (s : connection) :
  (Z.of_nat (length acts) < 2 ^ 63 - 1)%Z →
  run acts dialed = Some s →
  NoDup (frame_ID <$> written s)
  ∧ (∀ frame, frame ∈ written s →
       frame_Type frame = "req"
       ∧ ∃ t c, callers s !! t = Some c ∧ frame = request_frame c
                ∧ past_write (call_pc_of c) = true)
  ∧ (∀ t c, callers s !! t = Some c → call_pc_of c = Waiting →
       request_frame c ∈ written s).
Proof.
  intros Hlen Hrun.
  assert (Hw : written_inv s).
  { eapply (run_written_inv acts 0 dialed); [apply dialed_inv| |lia|done].
    split; [apply NoDup_nil_2|]. split.
    - intros frame Hin. by apply elem_of_nil in Hin.
    - intros t c Hc. simpl in Hc. by rewrite lookup_empty in Hc. }
  destruct Hw as (Hnd & Hall & Hwait). split; [done|]. split; [|done].
  intros frame Hin. destruct (Hall frame Hin) as (t & c & Hc & -> & Hp).
  split; [done|]. eauto.
Qed.

End WireProperties.

(** ** Properties of the helpers of the resources *)

Lemma prefix_app_r (substr s b : string) :
  String.prefix substr s = true → String.prefix substr (s +:+ b) = true.
Proof.
  revert s. induction substr as [|x substr IH]; intros s Hs.
  - by destruct (s +:+ b).
  - destruct s as [|y s]; [done|].
    change (String y s +:+ b) with (String y (s +:+ b)).
    simpl in Hs |- *. destruct (ascii_dec x y); [|done]. by apply IH.
Qed.

(** A substring of [s] is a substring of every string around [s]. *)
Lemma strings_Contains_app (a s b substr : string) :
  strings_Contains s substr = true →
  strings_Contains (a +:+ s +:+ b) substr = true.
Proof.
  intros Hs. induction a as [|c a IH].
  - change ("" +:+ s +:+ b) with (s +:+ b).
    induction s as [|c s IH].
    + simpl in Hs. rewrite orb_false_r in Hs.
      destruct substr; [|done]. by destruct b.
    + change (String c s +:+ b) with (String c (s +:+ b)).
      cbn [strings_Contains] in Hs |- *.
      apply orb_true_iff in Hs as [Hs|Hs]; apply orb_true_iff.
      * left. by apply (prefix_app_r substr (String c s) b).
      * right. by apply IH.
  - change (String c a +:+ s +:+ b) with (String c (a +:+ s +:+ b)).
    cbn [strings_Contains]. rewrite IH. apply orb_true_r.
Qed.

Section ErrorProperties.
Context `{GoLib}.

(** A format scans its text before the first verb as it is. *)
Lemma fmt_scan_text (text format : string) (args : list arg) :
  has_char "%" text = false →
  fmt_scan (text +:+ format) args =
    ((text +:+ (fmt_scan format args).1), (fmt_scan format args).2).
Proof.
  intros Htext. induction text as [|c text IH].
  - change ("" +:+ format) with format. by destruct (fmt_scan format args).
  - simpl in Htext. apply orb_false_iff in Htext as [Hc Htext].
    change (String c text +:+ format) with (String c (text +:+ format)).
    assert (Hstep : fmt_scan (String c (text +:+ format)) args =
      let '(s, w) := fmt_scan (text +:+ format) args in (String c s, w)).
    { destruct c as [[] [] [] [] [] [] [] []]; try done. }
    rewrite Hstep, (IH Htext). reflexivity.
Qed.

(** X17. [isConnectionClosed] looks at the message only: an error it
    recognises is still recognised after [fmt.Errorf] wraps it with
    [%w] behind any text, and the wrapped error unwraps to it. *)
Theorem isConnectionClosed_wrapped (text : string) (err : error) :
  has_char "%" text = false →
  isConnectionClosed (Some err) = true →
  fmt_Errorf (text +:+ "%w") [AError err] = wrapError (text +:+ Error err) err
  ∧ isConnectionClosed (Some (fmt_Errorf (text +:+ "%w") [AError err])) = true.
Proof.
  intros Htext Herr.
  assert (Hfmt : fmt_Errorf (text +:+ "%w") [AError err]
                 = wrapError (text +:+ Error err) err).
  { unfold fmt_Errorf. rewrite (fmt_scan_text text "%w" _ Htext). cbn.
    by rewrite append_empty_r. }
  split; [done|]. rewrite Hfmt. unfold isConnectionClosed in Herr |- *.
  cbn [Error].
  apply orb_true_iff in Herr as [Herr|Herr];
    [apply orb_true_iff in Herr as [Herr|Herr]|].
  - apply orb_true_iff. left. apply orb_true_iff. left.
    rewrite <-(append_empty_r (Error err)).
    by apply (strings_Contains_app text (Error err) "").
  - apply orb_true_iff. left. apply orb_true_iff. right.
    rewrite <-(append_empty_r (Error err)).
    by apply (strings_Contains_app text (Error err) "").
  - apply orb_true_iff. right.
    rewrite <-(append_empty_r (Error err)).
    by apply (strings_Contains_app text (Error err) "").
Qed.

End ErrorProperties.

(** ** Properties of the binding resource *)

Lemma setIfString_lookup m key val k :
  setIfString m key val !! k =
    match val with
    | StringValue s => if decide (key = k) then Some (VStr s) else m !! k
    | _ => m !! k
    end.
Proof.
  destruct val as [| |s]; simpl; try done.
  unfold setIfString. simpl. rewrite lookup_insert. by case_decide.
Qed.

Lemma setIfString_size_pos m key s :
  (0 <? size (setIfString m key (StringValue s)))%nat = true.
Proof.
  apply Nat.ltb_lt. unfold setIfString. simpl.
  assert (size (<[key := VStr s]> m) ≠ 0%nat); [|lia].
  apply (map_size_ne_0_lookup_2 _ key). by rewrite lookup_insert_eq.
Qed.

(** The key read off the entry of a model is the key of the model. *)
Lemma bindingKeyFromMap_modelToMap (m : BindingModel) :
  bindingKeyFromMap (modelToMap m) = bindingKeyFromModel m.
Proof.
  destruct m as [id agent channel account kind peerid].
  unfold bindingKeyFromMap, bindingKeyFromModel, modelToMap, string_at. simpl.
  destruct agent as [| |a], channel as [| |c], account as [| |acc],
    kind as [| |k], peerid as [| |p]; vm_compute; reflexivity.
Qed.

Lemma mapToModel_modelToMap_self (m : BindingModel) :
  mapToModel (modelToMap m) m = m.
Proof.
  destruct m as [id agent channel account kind peerid].
  destruct agent as [| |a], channel as [| |c], account as [| |acc],
    kind as [| |k], peerid as [| |p]; vm_compute; reflexivity.
Qed.

(** X19. [mapToModel] reads back what [modelToMap] wrote: into the
    zero model it gives the known fields of the model, null for the
    others; into the model itself it changes nothing; and it never
    clears a field, so an empty entry leaves the state as it was. *)
Theorem mapToModel_modelToMap (m : BindingModel) :
  mapToModel (modelToMap m) BindingModel_zero =
    {| ID := StringNull; AgentID := known (AgentID m);
       MatchChannel := known (MatchChannel m);
       MatchAccountID := known (MatchAccountID m);
       MatchPeerKind := known (MatchPeerKind m);
       MatchPeerID := known (MatchPeerID m) |}
  ∧ mapToModel (modelToMap m) m = m
  ∧ ∀ st, mapToModel ∅ st = st.
Proof.
  split; [|split; [apply mapToModel_modelToMap_self|by intros []]].
  destruct m as [id agent channel account kind peerid].
  destruct agent as [| |a], channel as [| |c], account as [| |acc],
    kind as [| |k], peerid as [| |p]; vm_compute; reflexivity.
Qed.

Lemma mapToModel_set_ID entry id (m : BindingModel) :
  mapToModel entry (set_ID id m) = set_ID id (mapToModel entry m).
Proof.
  unfold mapToModel, set_ID. simpl.
  destruct (entry !! "match") as [[| | | | |matchMap]|]; try done.
  by destruct (matchMap !! "peer") as [[| | | | |peer]|].
Qed.

Lemma binding_keys_app l1 l2 :
  binding_keys (l1 ++ l2) = binding_keys l1 ++ binding_keys l2.
Proof. apply omap_app. Qed.

(** What [findBindingIndex] returns: [-1] when no object of the list
    has the key, the index of the first that has it otherwise. *)
Lemma findBindingIndex_from_spec key l i :
  (findBindingIndex_from i l key = -1 ∧ key ∉ binding_keys l)
  ∨ (∃ (n : nat) m,
       findBindingIndex_from i l key = i + Z.of_nat n
       ∧ l !! n = Some (VMap m) ∧ bindingKeyFromMap m = key
       ∧ key ∉ binding_keys (take n l)).
Proof.
  revert i. induction l as [|item l IH]; intros i.
  - left. split; [done|]. apply not_elem_of_nil.
  - assert (Hskip : ∀ ks, key ∉ ks → binding_keys [item] = ks →
      findBindingIndex_from i (item :: l) key =
        findBindingIndex_from (i + 1) l key →
      (findBindingIndex_from i (item :: l) key = -1
       ∧ key ∉ binding_keys (item :: l))
      ∨ (∃ (n : nat) m,
           findBindingIndex_from i (item :: l) key = i + Z.of_nat n
           ∧ (item :: l) !! n = Some (VMap m) ∧ bindingKeyFromMap m = key
           ∧ key ∉ binding_keys (take n (item :: l)))).
    { intros ks Hks Hitem ->.
      change (item :: l) with ([item] ++ l).
      destruct (IH (i + 1)) as [[-> Hno]|(n & m & -> & Hn & Hm & Hbefore)].
      - left. split; [done|]. rewrite binding_keys_app, Hitem.
        by apply not_elem_of_app.
      - right. exists (S n), m. split; [lia|]. split; [done|]. split; [done|].
        change (take (S n) ([item] ++ l)) with ([item] ++ take n l).
        rewrite binding_keys_app, Hitem. by apply not_elem_of_app. }
    destruct item as [| | | | |m];
      try (apply (Hskip []); [apply not_elem_of_nil|done|done]).
    destruct (decide (bindingKeyFromMap m = key)) as [Hm|Hm].
    + right. exists 0%nat, m. simpl. rewrite decide_True by done.
      split; [lia|]. split; [done|]. split; [done|]. apply not_elem_of_nil.
    + apply (Hskip [bindingKeyFromMap m]).
      * by intros ->%list_elem_of_singleton.
      * done.
      * simpl. by rewrite decide_False.
Qed.

Lemma findBindingIndex_absent key l i :
  key ∉ binding_keys l → findBindingIndex_from i l key = -1.
Proof.
  intros Hno.
  destruct (findBindingIndex_from_spec key l i)
    as [[? _]|(n & m & _ & Hn & Hm & _)]; [done|].
  destruct Hno. apply list_elem_of_omap. exists (VMap m).
  split; [by eapply list_elem_of_lookup_2|]. by rewrite Hm.
Qed.

Lemma findBindingIndex_first key l i (n : nat) m :
  l !! n = Some (VMap m) → bindingKeyFromMap m = key →
  key ∉ binding_keys (take n l) →
  findBindingIndex_from i l key = i + Z.of_nat n.
Proof.
  intros Hn Hm Hbefore.
  destruct (findBindingIndex_from_spec key l i)
    as [[_ Hno]|(n' & m' & -> & Hn' & Hm' & Hbefore')].
  - destruct Hno. apply list_elem_of_omap. exists (VMap m).
    split; [by eapply list_elem_of_lookup_2|]. by rewrite Hm.
  - f_equal. f_equal.
    destruct (Nat.lt_trichotomy n n') as [Hlt|[->|Hlt]]; [|done|].
    + destruct Hbefore'. apply list_elem_of_omap. exists (VMap m).
      split; [|by rewrite Hm].
      apply (list_elem_of_lookup_2 _ n). by rewrite lookup_take_lt.
    + destruct Hbefore. apply list_elem_of_omap. exists (VMap m').
      split; [|by rewrite Hm'].
      apply (list_elem_of_lookup_2 _ n'). by rewrite lookup_take_lt.
Qed.

(** X20. [Create] (and [Update]) never index out of range; the list
    they write holds the entry of the plan at the index
    [findBindingIndex] then finds for its key, every other entry stays
    where it was, the list grows by one entry at most, and [Read] of
    that list with the state [Create] stored returns that state. *)
Theorem Create_then_Read (bindings : list value) (plan : BindingModel) :
  let key := bindingKeyFromModel plan in
  let state := set_ID (StringValue key) plan in
  ∃ bindings' (i : nat),
    Create_list bindings plan = Some (bindings', state)
    ∧ findBindingIndex bindings' key = Z.of_nat i
    ∧ bindings' !! i = Some (VMap (modelToMap plan))
    ∧ (length bindings ≤ length bindings' ≤ S (length bindings))%nat
    ∧ (∀ j item, j ≠ i → bindings !! j = Some item → bindings' !! j = Some item)
    ∧ Read_list bindings' state = Some (Some state).
Proof.
  intros key state.
  assert (Hread : ∀ bindings' (i : nat),
    findBindingIndex bindings' key = Z.of_nat i →
    bindings' !! i = Some (VMap (modelToMap plan)) →
    Read_list bindings' state = Some (Some state)).
  { intros bindings' i Hfind Hi. unfold Read_list.
    change (bindingKeyFromModel state) with key. rewrite Hfind.
    destruct (Z.ltb_spec (Z.of_nat i) 0) as [|_]; [lia|].
    rewrite Nat2Z.id, Hi. do 2 f_equal.
    unfold state. by rewrite mapToModel_set_ID, mapToModel_modelToMap_self. }
  unfold Create_list, findBindingIndex. fold key. fold state.
  destruct (findBindingIndex_from_spec key bindings 0)
    as [[-> Hno]|(n & m & -> & Hn & Hm & Hbefore)].
  - simpl. exists (bindings ++ [VMap (modelToMap plan)]), (length bindings).
    assert (Hfind : findBindingIndex (bindings ++ [VMap (modelToMap plan)]) key
                    = Z.of_nat (length bindings)).
    { unfold findBindingIndex.
      rewrite (findBindingIndex_first key _ 0 (length bindings)
                 (modelToMap plan)); [lia| | |].
      - by rewrite lookup_app_r, Nat.sub_diag by lia.
      - apply bindingKeyFromMap_modelToMap.
      - by rewrite take_app_length. }
    assert (Hi : (bindings ++ [VMap (modelToMap plan)]) !! length bindings
                 = Some (VMap (modelToMap plan))).
    { by rewrite lookup_app_r, Nat.sub_diag by lia. }
    split; [done|]. split; [done|]. split; [done|].
    split; [rewrite length_app; simpl; lia|].
    split; [|by eapply Hread].
    intros j item _ Hj. by apply lookup_app_l_Some.
  - assert (Hlt : (n < length bindings)%nat) by (by eapply lookup_lt_Some).
    destruct (Z.leb_spec 0 (0 + Z.of_nat n)) as [_|]; [|lia].
    destruct (Z.ltb_spec (0 + Z.of_nat n) (Z.of_nat (length bindings)))
      as [_|]; [|lia].
    replace (Z.to_nat (0 + Z.of_nat n)) with n by lia.
    exists (<[n := VMap (modelToMap plan)]> bindings), n.
    assert (Hi : <[n := VMap (modelToMap plan)]> bindings !! n
                 = Some (VMap (modelToMap plan))).
    { by apply list_lookup_insert_eq. }
    assert (Hfind : findBindingIndex
                      (<[n := VMap (modelToMap plan)]> bindings) key
                    = Z.of_nat n).
    { unfold findBindingIndex.
      rewrite (findBindingIndex_first key _ 0 n (modelToMap plan)); [lia|done| |].
      - apply bindingKeyFromMap_modelToMap.
      - by rewrite take_insert_ge by lia. }
    split; [done|]. split; [done|]. split; [done|].
    split; [rewrite length_insert; lia|].
    split; [|by eapply Hread].
    intros j item Hne Hj. by rewrite list_lookup_insert_ne.
Qed.

(** X21. On a list whose objects have pairwise distinct keys,
    [Create] and [Delete] keep the keys distinct: [Create] adds the key
    of the model when it was not there and no other; [Delete] removes
    that key and no other, after which [findBindingIndex] returns [-1]
    and [Read] removes the resource. *)
Theorem bindings_keys_unique
    (bindings : list value) (model : BindingModel) :
  let key := bindingKeyFromModel model in
  NoDup (binding_keys bindings) →
  (∃ bindings' state,
     Create_list bindings model = Some (bindings', state)
     ∧ NoDup (binding_keys bindings')
     ∧ ∀ k, k ∈ binding_keys bindings' ↔ k = key ∨ k ∈ binding_keys bindings)
  ∧ (∃ bindings',
       Delete_list bindings model = Some bindings'
       ∧ NoDup (binding_keys bindings')
       ∧ (∀ k, k ∈ binding_keys bindings' ↔ k ≠ key ∧ k ∈ binding_keys bindings)
       ∧ findBindingIndex bindings' key = -1
       ∧ Read_list bindings' model = Some None).
Proof.
  intros key Hnd. unfold Create_list, Delete_list, Read_list, findBindingIndex.
  fold key.
  destruct (findBindingIndex_from_spec key bindings 0)
    as [[Hfind Hno]|(n & m & Hfind & Hn & Hm & Hbefore)].
  - rewrite Hfind. simpl. split.
    + eexists _, _. split; [done|]. rewrite binding_keys_app. simpl.
      rewrite bindingKeyFromMap_modelToMap. fold key. split.
      * apply NoDup_app. split; [done|]. split; [|apply NoDup_singleton].
        by intros k Hk ->%list_elem_of_singleton.
      * intros k. rewrite elem_of_app, list_elem_of_singleton. tauto.
    + exists bindings. rewrite Hfind. simpl. split; [done|]. split; [done|].
      split; [|done]. intros k. split; [|tauto].
      intros Hk. split; [|done]. by intros ->.
  - assert (Hlt : (n < length bindings)%nat) by (by eapply lookup_lt_Some).
    rewrite Hfind.
    destruct (Z.leb_spec 0 (0 + Z.of_nat n)) as [_|]; [|lia].
    destruct (Z.ltb_spec (0 + Z.of_nat n) (Z.of_nat (length bindings)))
      as [_|]; [|lia].
    replace (Z.to_nat (0 + Z.of_nat n)) with n by lia.
    assert (Hsplit : bindings = take n bindings ++ VMap m :: drop (S n) bindings).
    { by rewrite take_drop_middle. }
    assert (Hkeys : binding_keys bindings =
      binding_keys (take n bindings) ++ key :: binding_keys (drop (S n) bindings)).
    { rewrite Hsplit at 1. rewrite binding_keys_app. simpl. by rewrite Hm. }
    rewrite Hkeys in Hnd. apply NoDup_app in Hnd as (Hnd1 & Hcross & Hnd2).
    apply NoDup_cons in Hnd2 as [Hafter Hnd2].
    split.
    + eexists _, _. split; [done|].
      assert (Hkeys' : binding_keys (<[n := VMap (modelToMap model)]> bindings)
                       = binding_keys bindings).
      { rewrite Hsplit at 1.
        rewrite insert_app_r_alt by (rewrite length_take; lia).
        rewrite length_take, Nat.min_l, Nat.sub_diag by lia. simpl.
        rewrite binding_keys_app. simpl.
        rewrite bindingKeyFromMap_modelToMap. fold key. by rewrite Hkeys. }
      rewrite Hkeys', Hkeys. split.
      * apply NoDup_app. split; [done|]. split; [done|]. by apply NoDup_cons.
      * intros k. rewrite !elem_of_app, !elem_of_cons. tauto.
    + exists (take n bindings ++ drop (n + 1) bindings).
      replace (n + 1)%nat with (S n) by lia.
      assert (Hgone : key ∉ binding_keys (take n bindings ++ drop (S n) bindings)).
      { rewrite binding_keys_app. by apply not_elem_of_app. }
      split; [done|]. split.
      { rewrite binding_keys_app. apply NoDup_app. split; [done|].
        split; [|done]. intros k Hk Hk'. apply (Hcross k Hk). by right. }
      split.
      { intros k. rewrite binding_keys_app, Hkeys, !elem_of_app, elem_of_cons.
        split.
        - intros [Hk|Hk]; (split; [by intros ->|tauto]).
        - intros [Hne [Hk|[Hk|Hk]]]; tauto. }
      rewrite (findBindingIndex_absent key _ 0 Hgone). done.
Qed.

(** *** Import ids *)

Lemma strings_IndexByte_None s sep :
  strings_IndexByte s sep = None → ∀ c, c ∈ list_ascii_of_string s → c ≠ sep.
Proof.
  induction s as [|c s IH]; simpl; [by intros _ c ?%elem_of_nil|].
  destruct (Ascii.eqb_spec c sep) as [|Hne]; [done|].
  destruct (strings_IndexByte s sep) as [[before after]|]; [done|].
  intros _ c' [->|Hin]%elem_of_cons; [done|by apply IH].
Qed.

Lemma count_slash_app a b : count_slash (a +:+ b) = (count_slash a + count_slash b)%nat.
Proof.
  induction a as [|c a IH]; [done|].
  change (String c a +:+ b) with (String c (a +:+ b)). simpl. rewrite IH. lia.
Qed.

Lemma strings_IndexByte_slash s :
  match strings_IndexByte s "/" with
  | None => count_slash s = 0%nat
  | Some (before, after) =>
      s = before +:+ "/" +:+ after ∧ count_slash before = 0%nat
      ∧ count_slash s = S (count_slash after)
  end.
Proof.
  induction s as [|c s IH]; simpl; [done|].
  destruct (Ascii.eqb_spec c "/") as [->|Hne]; [done|].
  destruct (strings_IndexByte s "/") as [[before after]|].
  - destruct IH as (-> & Hb & Hc). simpl.
    destruct (Ascii.eqb_spec c "/"); [done|]. simpl.
    split; [done|]. split; [done|]. rewrite count_slash_app. simpl.
    rewrite count_slash_app in Hc. simpl in Hc. lia.
  - done.
Qed.

Lemma append_assoc (a b c : string) : (a +:+ b) +:+ c = a +:+ b +:+ c.
Proof.
  induction a as [|x a IH]; [done|].
  change (String x ((a +:+ b) +:+ c) = String x (a +:+ b +:+ c)). by f_equal.
Qed.

(** An id with two slashes or more is looked up as it is. *)
Lemma ImportState_key_two (id : string) :
  (2 ≤ count_slash id)%nat → ImportState_key id = Some id.
Proof.
  intros Hid. unfold ImportState_key. cbn [strings_SplitN].
  pose proof (strings_IndexByte_slash id) as H1.
  destruct (strings_IndexByte id "/") as [[agentID rest]|]; [|lia].
  destruct H1 as (-> & Ha & Hcount). rewrite Hcount in Hid.
  pose proof (strings_IndexByte_slash rest) as H2.
  destruct (strings_IndexByte rest "/") as [[channel accountID]|]; [|lia].
  by destruct H2 as (-> & _ & _).
Qed.

(** X18. The key read off the entry [modelToMap] builds for a model is
    the composite key of the model, for every model (null and unknown
    fields count as empty strings on both sides); that key has two
    slashes at least, and [ImportState] given it looks the same key
    up. *)
Theorem bindingKey_modelToMap (m : BindingModel) :
  bindingKeyFromMap (modelToMap m) = bindingKeyFromModel m
  ∧ (2 ≤ count_slash (bindingKeyFromModel m))%nat
  ∧ ImportState_key (bindingKeyFromModel m) = Some (bindingKeyFromModel m).
Proof.
  split; [apply bindingKeyFromMap_modelToMap|].
  assert (Hcount : (2 ≤ count_slash (bindingKeyFromModel m))%nat).
  { unfold bindingKeyFromModel, bindingCompositeKey.
    rewrite !count_slash_app. simpl. lia. }
  split; [done|]. by apply ImportState_key_two.
Qed.

(** X22. [ImportState] rejects exactly the ids without a slash; an id
    with one slash is looked up under the key made of the id and a
    final slash (the empty account), an id with two slashes or more
    under itself. *)
Theorem ImportState_key_slashes (id : string) :
  ImportState_key id =
    match count_slash id with
    | 0%nat => None
    | 1%nat => Some (id +:+ "/")
    | _ => Some id
    end.
Proof.
  unfold ImportState_key. cbn [strings_SplitN].
  pose proof (strings_IndexByte_slash id) as H1.
  destruct (strings_IndexByte id "/") as [[agentID rest]|]; [|by rewrite H1].
  destruct H1 as (-> & Ha & ->).
  pose proof (strings_IndexByte_slash rest) as H2.
  destruct (strings_IndexByte rest "/") as [[channel accountID]|].
  - destruct H2 as (-> & Hc & ->). done.
  - rewrite H2. simpl. unfold bindingCompositeKey.
    by rewrite !append_assoc.
Qed.

Lemma strings_IndexByte_first a rest :
  count_slash a = 0%nat →
  strings_IndexByte (a +:+ "/" +:+ rest) "/" = Some (a, rest).
Proof.
  induction a as [|c a IH]; [done|].
  change (String c a +:+ "/" +:+ rest) with (String c (a +:+ "/" +:+ rest)).
  simpl. destruct (Ascii.eqb_spec c "/"); [done|]. simpl.
  intros Ha. by rewrite IH.
Qed.

(** X23. The composite key tells bindings apart when neither agent id
    nor channel holds a slash: equal keys then come from equal agent
    ids, channels and account ids. *)
Theorem bindingCompositeKey_inj (a c acc a' c' acc' : string) :
  count_slash a = 0%nat → count_slash c = 0%nat →
  count_slash a' = 0%nat → count_slash c' = 0%nat →
  bindingCompositeKey a c acc = bindingCompositeKey a' c' acc' →
  a = a' ∧ c = c' ∧ acc = acc'.
Proof.
  intros Ha Hc Ha' Hc' Heq. unfold bindingCompositeKey in Heq.
  assert (H1 : Some (a, c +:+ "/" +:+ acc) = Some (a', c' +:+ "/" +:+ acc')).
  { by rewrite <-(strings_IndexByte_first a), <-(strings_IndexByte_first a'), Heq. }
  injection H1 as <- H1.
  assert (H2 : Some (c, acc) = Some (c', acc')).
  { by rewrite <-(strings_IndexByte_first c), <-(strings_IndexByte_first c'), H1. }
  by injection H2 as <- <-.
Qed.

(** ** Properties of the digest *)

Lemma sha256_round_length st kw : length (sha256_round st kw) = length st.
Proof.
  unfold sha256_round.
  by destruct st as [|a [|b [|c [|d [|e [|f [|g [|h [|]]]]]]]]].
Qed.

Lemma sha256_block_length hs block :
  length (sha256_block hs block) = length hs.
Proof.
  unfold sha256_block. rewrite length_zip_with.
  assert (Hfold : ∀ l st, length (foldl sha256_round st l) = length st).
  { induction l as [|kw l IH]; intros st; simpl; [done|].
    by rewrite IH, sha256_round_length. }
  rewrite Hfold. lia.
Qed.

Lemma sha256_blocks_length n hs bytes :
  length (sha256_blocks n hs bytes) = length hs.
Proof.
  revert hs bytes. induction n as [|n IH]; intros hs bytes; simpl; [done|].
  by rewrite IH, sha256_block_length.
Qed.

Lemma be_bytes_bind_length n (l : list Z) :
  length (l ≫= be_bytes n) = (length l * n)%nat.
Proof.
  induction l as [|x l IH]; [done|].
  rewrite bind_cons, length_app, IH. unfold be_bytes.
  rewrite length_fmap, length_rev, length_seq. simpl. lia.
Qed.

Lemma string_of_bytes_length l : String.length (string_of_bytes l) = length l.
Proof.
  unfold string_of_bytes. rewrite <-(length_fmap (λ b, ascii_of_N (Z.to_N b)) l).
  induction (_ <$> l) as [|c cs IH]; simpl; [done|]. by rewrite IH.
Qed.

Lemma sha256_Sum256_length data : String.length (sha256_Sum256 data) = 32%nat.
Proof.
  unfold sha256_Sum256.
  rewrite string_of_bytes_length, be_bytes_bind_length, sha256_blocks_length.
  by vm_compute.
Qed.

Lemma hex_digit_lower n : is_lower_hex (hex_digit n) = true.
Proof.
  destruct n as [|p]; [done|].
  do 4 (destruct p as [p|p|]; try done).
Qed.

Lemma hex_EncodeToString_spec data :
  String.length (hex_EncodeToString data) = (2 * String.length data)%nat
  ∧ Forall (λ c, is_lower_hex c = true)
      (list_ascii_of_string (hex_EncodeToString data)).
Proof.
  induction data as [|c data [IHlen IHall]]; [done|].
  cbn [hex_EncodeToString String.length list_ascii_of_string]. split; [lia|].
  repeat apply Forall_cons_2; [apply hex_digit_lower..|done].
Qed.

Section DigestProperties.
Context `{GoLib}.

(** X24. [hashBytes] of every input is 64 characters of lower-case
    hexadecimal, and the device id of a handshake is [hashBytes] of the
    public key. *)
Theorem hashBytes_hex (data : string) :
  String.length (hashBytes data) = 64%nat
  ∧ Forall (λ c, is_lower_hex c = true) (list_ascii_of_string (hashBytes data))
  ∧ deviceID data = hashBytes data.
Proof.
  unfold hashBytes.
  destruct (hex_EncodeToString_spec (sha256_Sum256 data)) as [Hlen Hall].
  rewrite Hlen, sha256_Sum256_length. split; [done|]. split; [done|].
  apply deviceID_hash.
Qed.

End DigestProperties.

(** * The further theorems at concrete inputs *)

Lemma mergePatch_range_order_witness :
  [("a", VNum 2); ("b", VNull)]
    ≡ₚ map_to_list ({[ "a" := VNum 2; "b" := VNull ]} : gmap string value)
  ∧ foldl (λ tgt kv, patchStep mergeInto kv.1 kv.2 tgt)
      (default ∅ (Some {[ "a" := VNum 1; "b" := VNum 2 ]}))
      [("b", VNull); ("a", VNum 2)]
    = mergePatch (Some {[ "a" := VNum 1; "b" := VNum 2 ]})
        {[ "a" := VNum 2; "b" := VNull ]}.
Proof.
  assert (Hl : [("a", VNum 2); ("b", VNull)]
    ≡ₚ map_to_list ({[ "a" := VNum 2; "b" := VNull ]} : gmap string value)).
  { vm_compute. first [reflexivity | apply perm_swap]. }
  assert (Hl' : [("b", VNull); ("a", VNum 2)] ≡ₚ [("a", VNum 2); ("b", VNull)]).
  { apply perm_swap. }
  destruct (mergePatch_range_order (Some {[ "a" := VNum 1; "b" := VNum 2 ]})
              {[ "a" := VNum 2; "b" := VNull ]} _ _ Hl Hl') as [Hsame Hmerge].
  exact (conj Hl (eq_trans Hsame Hmerge)).
Defined.

Lemma mergePatch_disjoint_commute_witness :
  ({[ "gateway" := VMap {[ "port" := VNum 9999 ]} ]} : gmap string value)
    ##ₘ {[ "test" := VBool true ]}
  ∧ mergePatch
      (Some (mergePatch None {[ "gateway" := VMap {[ "port" := VNum 9999 ]} ]}))
      {[ "test" := VBool true ]}
    = mergePatch (Some (mergePatch None {[ "test" := VBool true ]}))
        {[ "gateway" := VMap {[ "port" := VNum 9999 ]} ]}.
Proof.
  assert (Hd : ({[ "gateway" := VMap {[ "port" := VNum 9999 ]} ]}
                  : gmap string value) ##ₘ {[ "test" := VBool true ]}).
  { apply map_disjoint_singleton_l_2. by apply lookup_singleton_ne. }
  exact (conj Hd (proj1 (mergePatch_disjoint_commute None _ _ Hd))).
Defined.

Lemma File_ApplyConfig_then_GetConfig_witness :
  mkdir_fault (world_of (inr ("open", ENOENT))) = None
  ∧ write_fault (world_of (inr ("open", ENOENT))) = None
  ∧ ∃ w',
      File_ApplyConfig (H := golib_fragment) test_client "gateway: 18789"
        "stale" (world_of (inr ("open", ENOENT))) = (None, w')
      ∧ File_GetConfig (H := golib_fragment) test_client w'
        = (Ok {| Raw := "gateway: 18789"; Hash := hashBytes "gateway: 18789";
                 Parsed := None |}, w').
Proof.
  destruct (File_ApplyConfig_then_GetConfig (H := golib_fragment) test_client
              "gateway: 18789" "stale" (world_of (inr ("open", ENOENT)))
              eq_refl eq_refl)
    as (w' & Happly & _ & Hreadable & _).
  destruct (Hreadable (or_intror (ex_intro _ "open" eq_refl))) as [_ Hget].
  exact (conj eq_refl (conj eq_refl (ex_intro _ w' (conj Happly Hget)))).
Defined.

Lemma ensureDir_failure_no_write_witness :
  mkdir_fault world_no_dir = Some ("/home/user", EACCES)
  ∧ File_ApplyConfig (H := golib_fragment) test_client gateway_9999 "any"
      world_no_dir
    = (Some (PathError "mkdir" "/home/user" EACCES),
       log_call (CallMkdirAll
                   (filepath_Dir (GoLib := golib_fragment) (path test_client)))
         world_no_dir).
Proof.
  exact (conj eq_refl
    (proj1 (ensureDir_failure_no_write (H := golib_fragment) test_client
              world_no_dir "/home/user" EACCES eq_refl) gateway_9999 "any")).
Defined.

Lemma File_GetConfig_unreadable_witness :
  file (world_of (inr ("read", EISDIR))) = inr ("read", EISDIR)
  ∧ EISDIR ≠ ENOENT
  ∧ File_GetConfig (H := golib_fragment) test_client
      (world_of (inr ("read", EISDIR)))
    = (Fail (wrapError
               ("reading " +:+ path test_client +:+ ": "
                +:+ Error (PathError "read" (path test_client) EISDIR))
               (PathError "read" (path test_client) EISDIR)),
       world_of (inr ("read", EISDIR))).
Proof.
  assert (Hne : EISDIR ≠ ENOENT) by discriminate.
  exact (conj eq_refl (conj Hne
    (proj1 (File_GetConfig_unreadable (H := golib_fragment) test_client
              (world_of (inr ("read", EISDIR))) "read" EISDIR eq_refl Hne)))).
Defined.

Lemma File_PatchConfig_creates_file_witness :
  json_Unmarshal (GoLib := golib_fragment) "{}" = Ok (Some ∅)
  ∧ File_PatchConfig (H := golib_fragment) test_client
      {[ "a" := VMap {[ "b" := VNum 1 ]}; "gone" := VNull ]} "any"
      (world_of (inr ("open", ENOENT)))
    = (None,
       {| file := inl created_document; mkdir_fault := None;
          write_fault := None;
          calls :=
            calls (world_of (inr ("open", ENOENT)))
            ++ [CallMkdirAll
                  (filepath_Dir (GoLib := golib_fragment) (path test_client));
                CallWriteFile (path test_client) created_document] |}).
Proof.
  assert (Hparse : json_Unmarshal (GoLib := golib_fragment) "{}" = Ok (Some ∅)).
  { vm_compute; reflexivity. }
  refine (conj Hparse
    (File_PatchConfig_creates_file (H := golib_fragment) test_client
       {[ "a" := VMap {[ "b" := VNum 1 ]}; "gone" := VNull ]} "any"
       (world_of (inr ("open", ENOENT))) "open" created_document
       eq_refl Hparse _ eq_refl eq_refl)).
  vm_compute; reflexivity.
Defined.

Lemma PatchNestedSection_then_GetNestedSection_witness :
  json_Unmarshal (GoLib := golib_fragment) "{}" = Ok (Some ∅)
  ∧ (∀ tm, ¬ resolves ∅ ["channels"; "telegram"] tm)
  ∧ ∃ w',
      PatchNestedSection (FileClient_Client (H := golib_fragment) test_client)
        (VMap {[ "dmPolicy" := VStr "open" ]}) "any" ["channels"; "telegram"]
        (world_of (inl "{}")) = Some (None, w')
      ∧ GetNestedSection (H := golib_fragment)
          (FileClient_Client (H := golib_fragment) test_client)
          ["channels"; "telegram"] w'
        = ((Some {[ "dmPolicy" := VStr "open" ]}, hashBytes telegram_open,
            None), w').
Proof.
  assert (Hparse : json_Unmarshal (GoLib := golib_fragment) "{}" = Ok (Some ∅)).
  { vm_compute; reflexivity. }
  assert (Hnone : ∀ tm, ¬ resolves ∅ ["channels"; "telegram"] tm).
  { intros tm Htm. inversion Htm; subst. by rewrite lookup_empty in * |-. }
  destruct (PatchNestedSection_then_GetNestedSection (H := golib_fragment)
              test_client {[ "dmPolicy" := VStr "open" ]} "any"
              ["channels"; "telegram"] (world_of (inl "{}")) "{}" ∅
              telegram_open)
    as (w' & m' & Hpatch & _ & Hget & _ & Hno).
  - reflexivity.
  - exact Hparse.
  - vm_compute; reflexivity.
  - vm_compute; reflexivity.
  - reflexivity.
  - reflexivity.
  - rewrite (Hno Hnone) in Hget. exact (conj Hparse (conj Hnone
      (ex_intro _ w' (conj Hpatch Hget)))).
Defined.


Lemma PatchNestedSection_nil_removes_witness :
  json_Unmarshal (GoLib := golib_fragment) whatsapp_config
    = Ok (Some whatsapp_document)
  ∧ resolves whatsapp_document ["channels"]
      {[ "whatsapp" := VMap {[ "dmPolicy" := VStr "pairing" ]} ]}
  ∧ ∃ w',
      PatchNestedSection (FileClient_Client (H := golib_fragment) test_client)
        VNull "any" (["channels"] ++ ["whatsapp"])
        (world_of (inl whatsapp_config))
      = Some (None, w')
      ∧ file w' = inl channels_empty
      ∧ GetNestedSection (H := golib_fragment)
          (FileClient_Client (H := golib_fragment) test_client)
          (["channels"] ++ ["whatsapp"]) w'
        = ((None, hashBytes channels_empty, None), w').
Proof.
  assert (Hparse : json_Unmarshal (GoLib := golib_fragment) whatsapp_config
                   = Ok (Some whatsapp_document)).
  { vm_compute; reflexivity. }
  assert (Hres : resolves whatsapp_document ["channels"]
                   {[ "whatsapp" := VMap {[ "dmPolicy" := VStr "pairing" ]} ]}).
  { eapply resolves_down; [vm_compute; reflexivity|apply resolves_here]. }
  destruct (PatchNestedSection_nil_removes (H := golib_fragment)
              test_client "any" ["channels"] "whatsapp"
              (world_of (inl whatsapp_config)) whatsapp_config
              whatsapp_document
              {[ "whatsapp" := VMap {[ "dmPolicy" := VStr "pairing" ]} ]}
              channels_empty)
    as (w' & Hpatch & Hfile & _ & Hget).
  - reflexivity.
  - exact Hparse.
  - exact Hres.
  - vm_compute; reflexivity.
  - vm_compute; reflexivity.
  - reflexivity.
  - reflexivity.
  - exact (conj Hparse (conj Hres
      (ex_intro _ w' (conj Hpatch (conj Hfile Hget))))).
Defined.

Lemma DeleteSection_then_GetSection_witness :
  json_Unmarshal (GoLib := golib_fragment) gateway_18789
    = Ok (Some {[ "gateway" := VMap {[ "port" := VNum 18789 ]} ]})
  ∧ ∃ w',
      DeleteSection (FileClient_Client (H := golib_fragment) test_client)
        "gateway" "any" (world_of (inl gateway_18789)) = (None, w')
      ∧ file w' = inl "{}"
      ∧ GetSection (H := golib_fragment)
          (FileClient_Client (H := golib_fragment) test_client) "gateway" w'
        = ((None, hashBytes "{}", None), w').
Proof.
  assert (Hparse : json_Unmarshal (GoLib := golib_fragment) gateway_18789
            = Ok (Some {[ "gateway" := VMap {[ "port" := VNum 18789 ]} ]})).
  { vm_compute; reflexivity. }
  destruct (DeleteSection_then_GetSection (H := golib_fragment)
              test_client "gateway" "any" (world_of (inl gateway_18789))
              gateway_18789
              {[ "gateway" := VMap {[ "port" := VNum 18789 ]} ]} "{}")
    as (w' & Hdel & Hfile & Hget & _).
  - reflexivity.
  - exact Hparse.
  - vm_compute; reflexivity.
  - vm_compute; reflexivity.
  - reflexivity.
  - reflexivity.
  - exact (conj Hparse (ex_intro _ w' (conj Hdel (conj Hfile Hget)))).
Defined.

Lemma written_requests_distinct_witness :
  (Z.of_nat (length out_of_order_run) < 2 ^ 63 - 1)%Z
  ∧ run (H := golib_fragment) out_of_order_run dialed
    = Some out_of_order_final
  ∧ NoDup (frame_ID <$> written out_of_order_final)
  ∧ frame_ID <$> written out_of_order_final = ["tf-1"; "tf-3"; "tf-2"].
Proof.
  assert (Hlen : (Z.of_nat (length out_of_order_run) < 2 ^ 63 - 1)%Z).
  { vm_compute; reflexivity. }
  assert (Hrun : run (H := golib_fragment) out_of_order_run dialed
                 = Some out_of_order_final).
  { vm_compute; reflexivity. }
  assert (Hids :
    frame_ID <$> written out_of_order_final = ["tf-1"; "tf-3"; "tf-2"]).
  { vm_compute; reflexivity. }
  exact (conj Hlen (conj Hrun (conj
    (proj1 (written_requests_distinct (H := golib_fragment)
              out_of_order_run out_of_order_final Hlen Hrun)) Hids))).
Defined.

Lemma connection_closed_when_pump_exited_witness :
  run (H := golib_fragment) connection_lost_run dialed = Some connection_lost
  ∧ (call_pc_of <$> callers connection_lost !! 0%nat) = Some Waiting
  ∧ pump connection_lost = PumpExited
  ∧ is_Some (step (H := golib_fragment) (AConnClosed 0) connection_lost).
Proof.
  assert (Hrun : run (H := golib_fragment) connection_lost_run dialed
                 = Some connection_lost).
  { vm_compute; reflexivity. }
  assert (Hc : callers connection_lost !! 0%nat
    = Some {| call_id := "tf-1"; call_method := "config.patch";
              call_params := VMap ∅; call_ch := [];
              call_pc_of := Waiting |}).
  { vm_compute; reflexivity. }
  assert (Hpump : pump connection_lost = PumpExited).
  { vm_compute; reflexivity. }
  destruct (connection_closed_when_pump_exited (H := golib_fragment)
              connection_lost_run connection_lost 0 _ Hrun Hc eq_refl)
    as [Hiff _].
  refine (conj Hrun (conj _ (conj Hpump (proj2 Hiff Hpump)))).
  by rewrite Hc.
Defined.

Lemma readPump_blocked_forever_witness :
  run (H := golib_fragment) repeated_response_run dialed
    = Some repeated_response_final
  ∧ pump_stuck 0 (response_to "tf-1" (VStr "thrice")) repeated_response_final
  ∧ run (H := golib_fragment) unanswered_run repeated_response_final
    = Some unanswered_final
  ∧ pump unanswered_final
    = PumpSending 0 (response_to "tf-1" (VStr "thrice"))
  ∧ step (H := golib_fragment) APumpSend unanswered_final = None.
Proof.
  assert (Hrun : run (H := golib_fragment) repeated_response_run dialed
                 = Some repeated_response_final).
  { vm_compute; reflexivity. }
  assert (Hstuck : pump_stuck 0 (response_to "tf-1" (VStr "thrice"))
                     repeated_response_final).
  { split; [vm_compute; reflexivity|].
    eexists _, _. split; [vm_compute; reflexivity|]. split; [reflexivity|done]. }
  assert (Hnext : run (H := golib_fragment) unanswered_run
                    repeated_response_final = Some unanswered_final).
  { vm_compute; reflexivity. }
  destruct (readPump_blocked_forever (H := golib_fragment) 0
              (response_to "tf-1" (VStr "thrice")) unanswered_run
              repeated_response_final unanswered_final Hstuck Hnext)
    as (Hpump & _ & _ & Hsend & _).
  exact (conj Hrun (conj Hstuck (conj Hnext (conj Hpump Hsend)))).
Defined.

Lemma isConnectionClosed_wrapped_witness :
  has_char "%" "reading config: " = false
  ∧ isConnectionClosed (Some (errorString "connection closed")) = true
  ∧ isConnectionClosed
      (Some (fmt_Errorf (H := golib_fragment) "reading config: %w"
               [AError (errorString "connection closed")])) = true.
Proof.
  assert (Htext : has_char "%" "reading config: " = false).
  { vm_compute; reflexivity. }
  assert (Herr : isConnectionClosed (Some (errorString "connection closed"))
                 = true).
  { vm_compute; reflexivity. }
  exact (conj Htext (conj Herr
    (proj2 (isConnectionClosed_wrapped (H := golib_fragment)
              "reading config: " (errorString "connection closed")
              Htext Herr)))).
Defined.

Lemma File_null_document_witness :
  json_Unmarshal (GoLib := golib_fragment) "null" = Ok None
  ∧ GetSection (H := golib_fragment)
      (FileClient_Client (H := golib_fragment) test_client) "gateway"
      (world_of (inl "null"))
    = ((None, hashBytes "null", None), world_of (inl "null"))
  ∧ GetNestedSection (H := golib_fragment)
      (FileClient_Client (H := golib_fragment) test_client) []
      (world_of (inl "null"))
    = ((None, hashBytes "null", None), world_of (inl "null")).
Proof.
  assert (Hparse : json_Unmarshal (GoLib := golib_fragment) "null" = Ok None).
  { vm_compute; reflexivity. }
  destruct (File_null_document (H := golib_fragment) test_client
              (world_of (inl "null")) "null" eq_refl Hparse)
    as (Hsection & Hnested & _).
  exact (conj Hparse (conj (Hsection "gateway") (Hnested []))).
Defined.

Lemma bindings_keys_unique_witness :
  NoDup (binding_keys [VMap (modelToMap binding_whatsapp);
                       VMap (modelToMap binding_telegram)])
  ∧ ∃ bindings',
      Delete_list [VMap (modelToMap binding_whatsapp);
                   VMap (modelToMap binding_telegram)] binding_telegram
      = Some bindings'
      ∧ findBindingIndex bindings' (bindingKeyFromModel binding_telegram) = -1
      ∧ Read_list bindings' binding_telegram = Some None.
Proof.
  assert (Hnd : NoDup (binding_keys [VMap (modelToMap binding_whatsapp);
                                     VMap (modelToMap binding_telegram)])).
  { apply (NoDup_fmap_1 String.length). vm_compute.
    apply NoDup_cons. split; [|apply NoDup_singleton].
    intros Hin. apply list_elem_of_singleton in Hin. discriminate. }
  destruct (bindings_keys_unique _ binding_telegram Hnd)
    as (_ & bindings' & Hdel & _ & _ & Hfind & Hread).
  exact (conj Hnd (ex_intro _ bindings' (conj Hdel (conj Hfind Hread)))).
Defined.

Lemma bindingCompositeKey_inj_witness :
  count_slash "main" = 0%nat ∧ count_slash "whatsapp" = 0%nat
  ∧ bindingCompositeKey "main" "whatsapp" "personal"
    = "main/whatsapp/personal"
  ∧ "main" = "main" ∧ "whatsapp" = "whatsapp" ∧ "personal" = "personal".
Proof.
  exact (conj eq_refl (conj eq_refl (conj eq_refl
    (bindingCompositeKey_inj "main" "whatsapp" "personal"
       "main" "whatsapp" "personal" eq_refl eq_refl eq_refl eq_refl
       eq_refl)))).
Defined.

Lemma NewWSClient_backoff_witness :
  attempts_failed dial_third wait_timer 2
  ∧ dial_third 2 = Ok tt
  ∧ NewWSClient (H := golib_fragment) unit dial_third wait_timer
    = ((Some tt, None), take 5 backoff_schedule)
  ∧ attempts_failed dial_third wait_cancelled 2
  ∧ wait_cancelled 2 = CtxDone ctxCanceled
  ∧ NewWSClient (H := golib_fragment) unit dial_third wait_cancelled
    = ((None,
        Some (cancelled_error (H := golib_fragment) 2 ctxCanceled
                (errorString "dial: connection refused"))),
       take 3 backoff_schedule).
Proof.
  assert (Hfailed : ∀ wait, wait 1%Z = TimerFired →
            attempts_failed dial_third wait 2).
  { intros wait Hwait j Hj.
    destruct j as [|[|j]]; [split; [by eexists|lia]
                           |split; [by eexists|done]|lia]. }
  pose proof (NewWSClient_backoff (H := golib_fragment)
                dial_third wait_timer) as Hconnects.
  pose proof (NewWSClient_backoff (H := golib_fragment)
                dial_third wait_cancelled) as Hcancels.
  destruct (NewWSClient unit dial_third wait_timer) as [res log].
  destruct (NewWSClient unit dial_third wait_cancelled) as [res' log'].
  destruct Hconnects as (_ & _ & _ & Hconn & _).
  destruct Hcancels as (_ & _ & _ & _ & Hcanc & _).
  destruct (Hconn 2%nat tt) as (-> & -> & _);
    [lia|by apply Hfailed|done|done|].
  destruct (Hcanc 2%nat ctxCanceled) as (lastErr & Hlast & -> & -> & _);
    [lia|by apply Hfailed|done|].
  injection Hlast as <-.
  split; [by apply Hfailed|]. split; [done|]. split; [done|].
  split; [by apply Hfailed|]. by split.
Defined.
